(** * The wabt decompiler's expression pretty-printer (src/decompiler.cc)

    A shallow embedding of [struct Decompiler]: the [Value] fragment type,
    the layout primitives ([IndentValue], [WrapChild], [BracketIfNeeded],
    [WrapBinary], [WrapNAry]), the recursive renderer [DecompileExpr], the
    auxiliary formatters and the module walker [Decompile].

    Conventions of the embedding.
    - [std::string] is [string]; [size_t] quantities that only measure
      strings and vectors held in memory are [nat] (they cannot wrap);
      fixed-width integers stored in the module ([uint32_t], [uint64_t],
      [Index], [Address]) are [Z] with their wrap-around written out.
    - A C++ operation whose behaviour is undefined ([v.back()] or [v[0]] on
      an empty vector, [s.back()] on an empty string, [args[i]] out of
      range, a null [cur_func]) or that aborts (a failed [assert], a failed
      [cast<>], [WABT_UNREACHABLE]) makes the embedded function return
      [None].
    - Code that mutates a [Value] in place is written as a function that
      returns the updated [Value]. *)

From Stdlib Require Import String Ascii List Bool Arith ZArith Lia.
From Stdlib Require Import Numbers.DecimalString.
From Stdlib Require Strings.Byte.
From Stdlib Require NArith Numbers.DecimalZ Numbers.DecimalPos.
Import ListNotations.

Set Warnings "-register-all".

Local Open Scope string_scope.
Local Open Scope list_scope.
Local Open Scope nat_scope.

(** ** An error monad for undefined behaviour and aborts *)

Module Partial.

Definition bind {A B : Type} (c : option A) (k : A -> option B) : option B :=
  match c with
  | Some a => k a
  | None => None
  end.

Definition guard (b : bool) : option unit :=
  if b then Some tt else None.

Fixpoint mapM {A B : Type} (f : A -> option B) (l : list A) : option (list B) :=
  match l with
  | [] => Some []
  | a :: l' =>
      match f a with
      | None => None
      | Some b =>
          match mapM f l' with
          | None => None
          | Some bs => Some (b :: bs)
          end
      end
  end.

End Partial.

Notation "x <- c ;; k" := (Partial.bind c (fun x => k))
  (at level 61, c at next level, right associativity).
Notation "'assert!' b ;; k" := (Partial.bind (Partial.guard b) (fun _ => k))
  (at level 61, b at next level, right associativity).

(** ** [std::string] operations used by the decompiler *)

Module Str.

Definition space : ascii := "032"%char.
Definition newline : ascii := "010"%char.
Definition dquote : ascii := "034"%char.
Definition backslash : ascii := "092"%char.

Definition empty (s : string) : bool :=
  match s with
  | EmptyString => true
  | String _ _ => false
  end.

(** [std::string(1, c)] *)
Definition of_char (c : ascii) : string := String c EmptyString.

(** [s.back()]: the last character; undefined on the empty string. *)
Fixpoint back (s : string) : option ascii :=
  match s with
  | EmptyString => None
  | String c EmptyString => Some c
  | String _ s' => back s'
  end.

(** [s.pop_back()] *)
Fixpoint pop_back (s : string) : string :=
  match s with
  | EmptyString => EmptyString
  | String _ EmptyString => EmptyString
  | String c s' => String c (pop_back s')
  end.

(** [std::string(n, c)] *)
Fixpoint make (n : nat) (c : ascii) : string :=
  match n with
  | O => EmptyString
  | S n' => String c (make n' c)
  end.

(** [std::replace(s.begin(), s.end(), a, b)] *)
Fixpoint replace (a b : ascii) (s : string) : string :=
  match s with
  | EmptyString => EmptyString
  | String c s' => String (if Ascii.eqb c a then b else c) (replace a b s')
  end.

(** [cat(...)]: concatenation of all the pieces. *)
Definition cat (pieces : list string) : string :=
  fold_right append EmptyString pieces.

(** [std::to_string] on an integer: the decimal digits, with a leading
    ['-'] for a negative value. *)
Definition of_Z (z : Z) : string := NilZero.string_of_int (Z.to_int z).

End Str.

(** ** [std::vector<T>] accessors that are undefined on an empty vector *)

Module Vec.

(** [v.back()] *)
Definition back {A : Type} (v : list A) : option A :=
  match rev v with
  | [] => None
  | a :: _ => Some a
  end.

(** [v.back() = f(v.back())], the in-place update of the last element. *)
Fixpoint update_back {A : Type} (f : A -> A) (v : list A) : option (list A) :=
  match v with
  | [] => None
  | [a] => Some [f a]
  | a :: v' =>
      match update_back f v' with
      | Some w => Some (a :: w)
      | None => None
      end
  end.

(** [v[0] = f(v[0])] *)
Definition update_front {A : Type} (f : A -> A) (v : list A) : option (list A) :=
  match v with
  | [] => None
  | a :: v' => Some (f a :: v')
  end.

End Vec.

(** ** [struct Value] *)

Record Value := mkValue {
  v : list string;
  needs_bracketing : bool
}.

(** [Value::width()] *)
Definition width (val : Value) : nat :=
  fold_left (fun w s => Nat.max w (String.length s)) (v val) 0.

(** The two tunables of [struct Decompiler]; the source initialises them to
    [indent_amount = 2] and [target_exp_width = 70]. *)
Record Tunables := mkTunables {
  indent_amount : nat;
  target_exp_width : nat
}.

Definition default_tunables : Tunables := mkTunables 2 70.

(** [to_string(double)]: the loop that removes redundant trailing zeros from
    the text [std::to_string] produced.  Every iteration pops one character,
    so [String.length s] iterations always suffice. *)
Definition trim_cond (s : string) : bool :=
  (2 <? String.length s)
  && match Str.back s with
     | Some c => Ascii.eqb c "0"
     | None => false
     end
  && match String.get (String.length s - 2) s with
     | Some c => negb (Ascii.eqb c ".")
     | None => false
     end.

Fixpoint trim_loop (fuel : nat) (s : string) : string :=
  match fuel with
  | O => s
  | S fuel' => if trim_cond s then trim_loop fuel' (Str.pop_back s) else s
  end.

Definition to_string (std_to_string_d : string) : string :=
  trim_loop (String.length std_to_string_d) std_to_string_d.

(** [Indent(amount)] *)
Definition Indent (amount : nat) : string := Str.make amount Str.space.

(** [IndentValue(val, amount, first_indent)]: the first line receives
    [first_indent] when that is not empty, every other line [amount]
    spaces. *)
Definition IndentValue (val : Value) (amount : nat) (first_indent : string)
  : Value :=
  let indent := Indent amount in
  match v val with
  | [] => val
  | stat :: rest =>
      mkValue
        (((if Str.empty first_indent then indent else first_indent) ++ stat)%string
           :: map (fun s => (indent ++ s)%string) rest)
        (needs_bracketing val)
  end.

Section Layout.

Variable tn : Tunables.

(** [WrapChild(child, prefix, postfix)] *)
Definition WrapChild (child : Value) (prefix postfix : string) : option Value :=
  let width_ := String.length prefix + String.length postfix + width child in
  if (width_ <? target_exp_width tn)
     || ((String.length prefix <=? indent_amount tn)
         && (String.length postfix <=? indent_amount tn))
  then
    if length (v child) =? 1 then
      (* Fits in a single line. *)
      match v child with
      | l :: rest => Some (mkValue ((prefix ++ l ++ postfix)%string :: rest)
                                   (needs_bracketing child))
      | [] => None
      end
    else
      (* Multiline, but with prefix on same line. *)
      let child' := IndentValue child (String.length prefix) prefix in
      w <- Vec.update_back (fun s => (s ++ postfix)%string) (v child') ;;
      Some (mkValue w (needs_bracketing child'))
  else
    (* Multiline with prefix on its own line. *)
    let child' := IndentValue child (indent_amount tn) "" in
    w <- Vec.update_back (fun s => (s ++ postfix)%string) (prefix :: v child') ;;
    Some (mkValue w (needs_bracketing child')).

(** [BracketIfNeeded(val)] *)
Definition BracketIfNeeded (val : Value) : option Value :=
  if negb (needs_bracketing val) then Some val
  else
    val' <- WrapChild val "(" ")" ;;
    Some (mkValue (v val') false).

(** [WrapBinary(args, infix, indent_right)] *)
Definition WrapBinary (args : list Value) (infix : string) (indent_right : bool)
  : option Value :=
  assert! (length args =? 2) ;;
  left0 <- nth_error args 0 ;;
  right0 <- nth_error args 1 ;;
  left <- BracketIfNeeded left0 ;;
  right <- BracketIfNeeded right0 ;;
  let width_ := String.length infix + width left + width right in
  if (width_ <? target_exp_width tn)
     && (length (v left) =? 1) && (length (v right) =? 1)
  then
    l0 <- nth_error (v left) 0 ;;
    r0 <- nth_error (v right) 0 ;;
    Some (mkValue [(l0 ++ infix ++ r0)%string] true)
  else
    w <- Vec.update_back (fun s => (s ++ infix)%string) (v left) ;;
    let right' :=
      if indent_right then IndentValue right (indent_amount tn) "" else right in
    Some (mkValue (w ++ v right') true).

End Layout.

Section LayoutNAry.

Variable tn : Tunables.

(** The first loop of [WrapNAry]: [(total_width, max_width, multiline)]. *)
Definition nary_measure (args : list Value) : nat * nat * bool :=
  fold_left
    (fun (acc : nat * nat * bool) (child : Value) =>
       let '(total_width, max_width, multiline) := acc in
       let w := width child in
       (total_width + w, Nat.max max_width w,
        multiline || (1 <? length (v child))))
    args (0, 0, false).

(** The single-line loop of [WrapNAry]; [first] tells whether [child] is
    [args[0]]. *)
Fixpoint nary_single_loop (first : bool) (s : string) (args : list Value)
  : option string :=
  match args with
  | [] => Some s
  | child :: rest =>
      let s1 := if first then s else (s ++ ", ")%string in
      c0 <- nth_error (v child) 0 ;;
      nary_single_loop false (s1 ++ c0)%string rest
  end.

(** The multi-line loop of [WrapNAry]; [size] is [args.size()], [i] the loop
    counter and [ml] the lines moved into [ml.v] so far. *)
Fixpoint nary_multi_loop (size : nat) (ident_with_name : bool) (prefix : string)
    (i : nat) (ml : list string) (args : list Value) : option (list string) :=
  match args with
  | [] => Some ml
  | child :: rest =>
      let child1 :=
        IndentValue child
          (if ident_with_name then String.length prefix else indent_amount tn)
          (if (i =? 0) && ident_with_name then prefix else "") in
      lines <- (if i <? size - 1
                then Vec.update_back (fun s => (s ++ ",")%string) (v child1)
                else Some (v child1)) ;;
      nary_multi_loop size ident_with_name prefix (S i) (ml ++ lines) rest
  end.

(** [WrapNAry(args, prefix, postfix)] *)
Definition WrapNAry (args : list Value) (prefix postfix : string) : option Value :=
  let '(total_width, max_width, multiline) := nary_measure args in
  if negb multiline
     && ((total_width + String.length prefix + String.length postfix
            <? target_exp_width tn)
         || (length args =? 0))
  then
    (* Single line. *)
    s <- nary_single_loop true prefix args ;;
    Some (mkValue [(s ++ postfix)%string] false)
  else
    (* Multi-line. *)
    let ident_with_name := max_width + String.length prefix <? target_exp_width tn in
    ml <- nary_multi_loop (length args) ident_with_name prefix 0 [] args ;;
    let ml1 := if negb ident_with_name then prefix :: ml else ml in
    w <- Vec.update_back (fun s => (s ++ postfix)%string) ml1 ;;
    Some (mkValue w false).

End LayoutNAry.

(** ** The input: the module's records and the AST nodes

    The headers that declare these types (ir.h, opcode.h, decompiler-ast.h,
    decompiler-ls.h) are not part of the sources at hand; each type below
    holds what decompiler.cc reads from it. *)

Module NodeType.
Inductive t :=
  | Uninitialized | FlushToVars | FlushedVar | Statements | EndReturn
  | Decl | DeclInit | Expr.
End NodeType.

Module ExprType.
(** The kinds decompiler.cc names, and [Other k] for every remaining kind
    (they all take the [default:] branch). *)
Inductive t :=
  | Const | LocalGet | GlobalGet | LocalSet | GlobalSet | LocalTee
  | Binary | Compare | Unary | Load | Store | If | Block | Loop
  | Br | BrIf | Return | Drop | Call | Convert | Nop
  | Other (k : nat).
End ExprType.

Module LabelType.
Inductive t := Func | Block | Loop | If | Else | Try | Catch.
End LabelType.

Module ExternalKind.
Inductive t := Func | Table | Memory | Global | Event.

Definition eqb (a b : t) : bool :=
  match a, b with
  | Func, Func | Table, Table | Memory, Memory | Global, Global
  | Event, Event => true
  | _, _ => false
  end.
End ExternalKind.

(** [enum class Type] *)
Module Type_.
Inductive t :=
  | I32 | I64 | F32 | F64 | V128 | Funcref | Anyref | Nullref | Exnref
  | Func | Void | Any.
End Type_.

(** A [Var] that holds a name; [Var_name] is [var.name()]. *)
Record Var := mkVar { Var_name : string }.

(** An [Opcode], by the metadata decompiler.cc asks it for. *)
Record Opcode := mkOpcode {
  GetDecomp : string;
  IsNaturallyAligned : Z -> bool;
  GetResultType : Type_.t;
  GetParamType2 : Type_.t
}.

(** [struct Const]: the type tag and the 64 bits of the union that holds
    [u32], [u64], [f32_bits] and [f64_bits]. *)
Record Const := mkConst {
  const_type : Type_.t;
  const_bits : Z
}.

Definition Const_u32 (c : Const) : Z := const_bits c mod 2 ^ 32.
Definition Const_u64 (c : Const) : Z := const_bits c mod 2 ^ 64.

(** The expression records the renderer casts [n.e] to; a [Block] is given
    by its label and its expression list. *)
Inductive Expr :=
  | ConstExpr (const_ : Const)
  | LocalGetExpr (var : Var)
  | GlobalGetExpr (var : Var)
  | LocalSetExpr (var : Var)
  | GlobalSetExpr (var : Var)
  | LocalTeeExpr (var : Var)
  | BinaryExpr (opcode : Opcode)
  | CompareExpr (opcode : Opcode)
  | UnaryExpr (opcode : Opcode)
  | ConvertExpr (opcode : Opcode)
  | LoadExpr (opcode : Opcode) (align : Z) (offset : Z)
  | StoreExpr (opcode : Opcode) (align : Z) (offset : Z)
  | IfExpr (true_label : string) (true_exprs : list Expr) (false_ : list Expr)
  | BlockExpr (label : string) (exprs : list Expr)
  | LoopExpr (label : string) (exprs : list Expr)
  | BrExpr (var : Var)
  | BrIfExpr (var : Var)
  | CallExpr (var : Var)
  | OtherExpr.

Definition ExprList := list Expr.

(** The union [Node::u]; reading a member that was not stored is undefined. *)
Inductive NodeU :=
  | U_vars (var_start var_count : Z)
  | U_var (var : Var)
  | U_lt (lt : LabelType.t)
  | U_unset.

(** [struct Node]; [e] is a pointer and may be null. *)
Inductive Node :=
  | mkNode (ntype : NodeType.t) (etype : ExprType.t) (e : option Expr)
           (children : list Node) (u : NodeU).

Definition ntype (n : Node) : NodeType.t := let '(mkNode t _ _ _ _) := n in t.
Definition etype (n : Node) : ExprType.t := let '(mkNode _ t _ _ _) := n in t.
Definition e (n : Node) : option Expr := let '(mkNode _ _ x _ _) := n in x.
Definition children (n : Node) : list Node := let '(mkNode _ _ _ c _) := n in c.
Definition u (n : Node) : NodeU := let '(mkNode _ _ _ _ x) := n in x.

Definition u_var_start (n : Node) : option Z :=
  match u n with U_vars s _ => Some s | _ => None end.
Definition u_var_count (n : Node) : option Z :=
  match u n with U_vars _ c => Some c | _ => None end.
Definition u_var (n : Node) : option Var :=
  match u n with U_var x => Some x | _ => None end.
Definition u_lt (n : Node) : option LabelType.t :=
  match u n with U_lt l => Some l | _ => None end.

(** The load/store tracker [lst], by the answers to its two queries. *)
Record LoadStoreTracking := mkLoadStoreTracking {
  GenStruct : string -> string;
  GenAccess : Z -> Node -> string
}.

(** [struct Func] *)
Record Func := mkFunc {
  Func_name : string;
  Func_exprs : ExprList;
  Func_param_types : list Type_.t;
  Func_result_types : list Type_.t;
  GetLocalType : Var -> Type_.t
}.

Record Limits := mkLimits { Limits_initial : Z; Limits_max : Z }.

Record Memory := mkMemory {
  Memory_name : string;
  page_limits : Limits
}.

Record Global := mkGlobal {
  Global_name : string;
  Global_type : Type_.t;
  init_expr : ExprList
}.

Record Table := mkTable {
  Table_name : string;
  elem_type : Type_.t;
  elem_limits : Limits
}.

Record DataSegment := mkDataSegment {
  DataSegment_name : string;
  DataSegment_offset : ExprList;
  data : list Byte.byte
}.

Record Export := mkExport { Export_kind : ExternalKind.t }.

(** [struct Module]: the five vectors the walker iterates over, and the two
    queries [IsImport(kind, Var(index))] and [GetExport(name)] by their
    answers. *)
Record Module_ := mkModule {
  memories : list Memory;
  globals : list Global;
  tables : list Table;
  data_segments : list DataSegment;
  funcs : list Func;
  IsImport : ExternalKind.t -> Z -> bool;
  GetExport : string -> option Export
}.

(** Functions of the repository and of the C++ library that decompiler.cc
    calls and whose definitions are elsewhere.  [std_to_string_f32 bits] and
    [std_to_string_f64 bits] stand for [std::to_string] applied to the
    floating-point number with these bits. *)
Record Collaborators := mkCollaborators {
  GetDecompTypeName : Type_.t -> string;
  GetMemoryType : Type_.t -> Opcode -> Type_.t;
  GetExprTypeName : ExprType.t -> string;
  std_to_string_f32 : Z -> string;
  std_to_string_f64 : Z -> string;
  IndexToAlphaName : Z -> string;
  (** [AST ast(mc, f); ast.Construct(es, nresults, is_function_body)]:
      the resulting [ast.exp_stack]. *)
  AST_Construct : option Func -> ExprList -> nat -> bool -> list Node;
  (** The default-constructed tracker and its three state changes. *)
  lst_initial : LoadStoreTracking;
  lst_Track : LoadStoreTracking -> Node -> LoadStoreTracking;
  lst_CheckLayouts : LoadStoreTracking -> LoadStoreTracking;
  lst_Clear : LoadStoreTracking -> LoadStoreTracking
}.

(** ** Auxiliary formatters and the expression renderer *)

(** [OpcodeToToken(opcode)] *)
Definition OpcodeToToken (opcode : Opcode) : string :=
  Str.replace "." "_" (GetDecomp opcode).

(** [TempVarName(n)] *)
Definition TempVarName (n : Z) : string := ("t" ++ Str.of_Z n)%string.

(** [Get(ve)] *)
Definition Get (var : Var) : Value := mkValue [Var_name var] false.

(** [static_cast<int32_t>] and [static_cast<int64_t>] of an unsigned value. *)
Definition to_int32 (x : Z) : Z := (x + 2 ^ 31) mod 2 ^ 32 - 2 ^ 31.
Definition to_int64 (x : Z) : Z := (x + 2 ^ 63) mod 2 ^ 64 - 2 ^ 63.

(** [cast<T>(n.e)] for the record classes the renderer needs; [None] when
    the pointer is null or the record is of another class. *)
Module Cast.
Definition ConstExpr (x : option Expr) : option Const :=
  match x with Some (ConstExpr c) => Some c | _ => None end.
Definition LocalGetExpr (x : option Expr) : option Var :=
  match x with Some (LocalGetExpr w) => Some w | _ => None end.
Definition GlobalGetExpr (x : option Expr) : option Var :=
  match x with Some (GlobalGetExpr w) => Some w | _ => None end.
Definition LocalSetExpr (x : option Expr) : option Var :=
  match x with Some (LocalSetExpr w) => Some w | _ => None end.
Definition GlobalSetExpr (x : option Expr) : option Var :=
  match x with Some (GlobalSetExpr w) => Some w | _ => None end.
Definition LocalTeeExpr (x : option Expr) : option Var :=
  match x with Some (LocalTeeExpr w) => Some w | _ => None end.
Definition BinaryExpr (x : option Expr) : option Opcode :=
  match x with Some (BinaryExpr o) => Some o | _ => None end.
Definition CompareExpr (x : option Expr) : option Opcode :=
  match x with Some (CompareExpr o) => Some o | _ => None end.
Definition UnaryExpr (x : option Expr) : option Opcode :=
  match x with Some (UnaryExpr o) => Some o | _ => None end.
Definition ConvertExpr (x : option Expr) : option Opcode :=
  match x with Some (ConvertExpr o) => Some o | _ => None end.
Definition LoadExpr (x : option Expr) : option (Opcode * Z * Z) :=
  match x with Some (LoadExpr o a off) => Some (o, a, off) | _ => None end.
Definition StoreExpr (x : option Expr) : option (Opcode * Z * Z) :=
  match x with Some (StoreExpr o a off) => Some (o, a, off) | _ => None end.
(** For an [IfExpr] the renderer only reads [false_]. *)
Definition IfExpr (x : option Expr) : option ExprList :=
  match x with Some (IfExpr _ _ f) => Some f | _ => None end.
(** For a [BlockExpr] or [LoopExpr] it only reads [block.label]. *)
Definition BlockExpr (x : option Expr) : option string :=
  match x with Some (BlockExpr l _) => Some l | _ => None end.
Definition LoopExpr (x : option Expr) : option string :=
  match x with Some (LoopExpr l _) => Some l | _ => None end.
Definition BrExpr (x : option Expr) : option Var :=
  match x with Some (BrExpr w) => Some w | _ => None end.
Definition BrIfExpr (x : option Expr) : option Var :=
  match x with Some (BrIfExpr w) => Some w | _ => None end.
Definition CallExpr (x : option Expr) : option Var :=
  match x with Some (CallExpr w) => Some w | _ => None end.
End Cast.

(** The body of the [Statements] loop for one child: [';'] is appended to
    the child's last line unless that line ends in ['}'].  Both [.back()]
    calls are undefined on an empty container. *)
Definition terminate_statement (arg : Value) : option (list string) :=
  s <- Vec.back (v arg) ;;
  c <- Str.back s ;;
  if negb (Ascii.eqb c "}")
  then Vec.update_back (fun s => (s ++ ";")%string) (v arg)
  else Some (v arg).

(** The [Statements] loop: [stats] holds the lines moved so far. *)
Fixpoint statements_loop (stats : list string) (args : list Value)
  : option (list string) :=
  match args with
  | [] => Some stats
  | arg :: rest =>
      lines <- terminate_statement arg ;;
      statements_loop (stats ++ lines) rest
  end.

(** The [FlushToVars] loop that builds ["let t0, t1, ... = "]. *)
Definition flush_decls (var_start var_count : Z) : string :=
  (fold_left
     (fun (decls : string) (i : nat) =>
        ((if (i =? 0)%nat then decls else decls ++ ", ")
           ++ TempVarName ((var_start + Z.of_nat i) mod 2 ^ 32))%string)
     (seq 0 (Z.to_nat var_count)) "let "
   ++ " = ")%string.

Section Renderer.

Variable tn : Tunables.
Variable env : Collaborators.
Variable cur_func : option Func.
Variable lst : LoadStoreTracking.

(** [Set(child, ve)] *)
Definition Set_ (child : Value) (var : Var) : option Value :=
  WrapChild tn (mkValue (v child) true) (Var_name var ++ " = ") "".

(** [Block(val, block, label, name)] *)
Definition Block (val : Value) (label : string) (name : string) : Value :=
  let val1 := IndentValue val (indent_amount tn) "" in
  mkValue (Str.cat [name; " "; label; " {"] :: v val1 ++ ["}"])
          (needs_bracketing val1).

(** [LocalDecl(name, t)] *)
Definition LocalDecl (name : string) (t : Type_.t) : string :=
  let struc := GenStruct lst name in
  Str.cat [name; ":";
           if Str.empty struc then GetDecompTypeName env t else struc].

(** What [LoadStore] appends to the last line of the address. *)
Definition LoadStore_suffix (addr_exp : Node) (offset : Z) (opc : Opcode)
    (align : Z) (op_type : Type_.t) : string :=
  let access := GenAccess lst offset addr_exp in
  if negb (Str.empty access)
  then ("." ++ access)%string
  else Str.cat ["["; Str.of_Z offset; "]:";
                GetDecompTypeName env (GetMemoryType env op_type opc);
                if negb (IsNaturallyAligned opc align)
                then Str.cat [("@" ++ Str.of_Z align)%string]
                else ""].

(** [LoadStore(val, addr_exp, offset, opc, align, op_type)] *)
Definition LoadStore (val : Value) (addr_exp : Node) (offset : Z)
    (opc : Opcode) (align : Z) (op_type : Type_.t) : option Value :=
  val1 <- BracketIfNeeded tn val ;;
  w <- Vec.update_back
         (fun s => (s ++ LoadStore_suffix addr_exp offset opc align op_type)%string)
         (v val1) ;;
  Some (mkValue w (needs_bracketing val1)).

(** The [ExprType::Const] case. *)
Definition DecompileConst (c : Const) : option Value :=
  match const_type c with
  | Type_.I32 => Some (mkValue [Str.of_Z (to_int32 (Const_u32 c))] false)
  | Type_.I64 =>
      Some (mkValue [(Str.of_Z (to_int64 (Const_u64 c)) ++ "L")%string] false)
  | Type_.F32 =>
      Some (mkValue
              [(to_string (std_to_string_f32 env (Const_u32 c)) ++ "f")%string]
              false)
  | Type_.F64 =>
      Some (mkValue [to_string (std_to_string_f64 env (Const_u64 c))] false)
  | Type_.V128 => Some (mkValue ["V128"] false)
  | _ => None
  end.

(** The [ExprType::If] case. *)
Definition DecompileIf (false_ : ExprList) (args : list Value) : option Value :=
  elsep <- (if negb (length false_ =? 0)
            then a2 <- nth_error args 2 ;; Some (Some a2)
            else Some None) ;;
  thenp <- nth_error args 1 ;;
  ifs <- nth_error args 0 ;;
  let multiline0 := (1 <? length (v ifs)) || (1 <? length (v thenp)) in
  let width0 := width ifs + width thenp in
  let '(width_, multiline1) :=
    match elsep with
    | Some els => (width0 + width els, multiline0 || (1 <? length (v els)))
    | None => (width0, multiline0)
    end in
  let multiline := multiline1 || (target_exp_width tn <? width_) in
  if multiline then
    w0 <- Vec.update_front (fun s => ("if (" ++ s)%string) (v ifs) ;;
    w1 <- Vec.update_back (fun s => (s ++ ") {")%string) w0 ;;
    let w2 := w1 ++ v (IndentValue thenp (indent_amount tn) "") in
    let w3 :=
      match elsep with
      | Some els =>
          (w2 ++ ["} else {"]) ++ v (IndentValue els (indent_amount tn) "")
      | None => w2
      end in
    Some (mkValue (w3 ++ ["}"]) (needs_bracketing ifs))
  else
    i0 <- nth_error (v ifs) 0 ;;
    t0 <- nth_error (v thenp) 0 ;;
    let s := Str.cat ["if ("; i0; ") { "; t0; " }"] in
    match elsep with
    | Some els =>
        e0 <- nth_error (v els) 0 ;;
        Some (mkValue [(s ++ Str.cat [" else { "; e0; " }"])%string] false)
    | None => Some (mkValue [s] false)
    end.

(** The second [switch] of [DecompileExpr], on [n.etype]. *)
Definition DecompileExprType (n : Node) (args : list Value) : option Value :=
  match etype n with
  | ExprType.Const =>
      c <- Cast.ConstExpr (e n) ;;
      DecompileConst c
  | ExprType.LocalGet =>
      var <- Cast.LocalGetExpr (e n) ;;
      Some (Get var)
  | ExprType.GlobalGet =>
      var <- Cast.GlobalGetExpr (e n) ;;
      Some (Get var)
  | ExprType.LocalSet =>
      a0 <- nth_error args 0 ;;
      var <- Cast.LocalSetExpr (e n) ;;
      Set_ a0 var
  | ExprType.GlobalSet =>
      a0 <- nth_error args 0 ;;
      var <- Cast.GlobalSetExpr (e n) ;;
      Set_ a0 var
  | ExprType.LocalTee =>
      te <- Cast.LocalTeeExpr (e n) ;;
      match args with
      | [] => Some (Get te)
      | a0 :: _ => Set_ a0 te
      end
  | ExprType.Binary =>
      opcode <- Cast.BinaryExpr (e n) ;;
      WrapBinary tn args (Str.cat [" "; OpcodeToToken opcode; " "]) false
  | ExprType.Compare =>
      opcode <- Cast.CompareExpr (e n) ;;
      WrapBinary tn args (Str.cat [" "; OpcodeToToken opcode; " "]) false
  | ExprType.Unary =>
      opcode <- Cast.UnaryExpr (e n) ;;
      a0 <- nth_error args 0 ;;
      WrapChild tn a0 (OpcodeToToken opcode ++ "(") ")"
  | ExprType.Load =>
      le <- Cast.LoadExpr (e n) ;;
      let '(opcode, align, offset) := le in
      a0 <- nth_error args 0 ;;
      c0 <- nth_error (children n) 0 ;;
      LoadStore a0 c0 offset opcode align (GetResultType opcode)
  | ExprType.Store =>
      se <- Cast.StoreExpr (e n) ;;
      let '(opcode, align, offset) := se in
      a0 <- nth_error args 0 ;;
      c0 <- nth_error (children n) 0 ;;
      a0' <- LoadStore a0 c0 offset opcode align (GetParamType2 opcode) ;;
      WrapBinary tn (a0' :: tl args) " = " true
  | ExprType.If =>
      false_ <- Cast.IfExpr (e n) ;;
      DecompileIf false_ args
  | ExprType.Block =>
      a0 <- nth_error args 0 ;;
      label <- Cast.BlockExpr (e n) ;;
      Some (Block a0 label "block")
  | ExprType.Loop =>
      a0 <- nth_error args 0 ;;
      label <- Cast.LoopExpr (e n) ;;
      Some (Block a0 label "loop")
  | ExprType.Br =>
      var <- Cast.BrExpr (e n) ;;
      lt <- u_lt n ;;
      Some (mkValue
              [((match lt with
                 | LabelType.Loop => "continue "
                 | _ => "break "
                 end) ++ Var_name var)%string]
              false)
  | ExprType.BrIf =>
      var <- Cast.BrIfExpr (e n) ;;
      lt <- u_lt n ;;
      let jmp := match lt with
                 | LabelType.Loop => "continue"
                 | _ => "break"
                 end in
      a0 <- nth_error args 0 ;;
      WrapChild tn a0 "if (" (Str.cat [") "; jmp; " "; Var_name var])
  | ExprType.Return => WrapNAry tn args "return " ""
  | ExprType.Drop =>
      (* Silent dropping of return values. *)
      nth_error args 0
  | ExprType.Call =>
      var <- Cast.CallExpr (e n) ;;
      WrapNAry tn args (Var_name var ++ "(") ")"
  | ExprType.Convert =>
      opcode <- Cast.ConvertExpr (e n) ;;
      WrapNAry tn args (OpcodeToToken opcode ++ "(") ")"
  | ExprType.Nop | ExprType.Other _ =>
      WrapNAry tn args (GetExprTypeName env (etype n) ++ "(") ")"
  end.

(** [DecompileExpr] once the children have been rendered into [args]: the
    first [switch], on [n.ntype]. *)
Definition DecompileNode (n : Node) (args : list Value) : option Value :=
  match ntype n with
  | NodeType.FlushToVars =>
      var_start <- u_var_start n ;;
      var_count <- u_var_count n ;;
      WrapNAry tn args (flush_decls var_start var_count) ""
  | NodeType.FlushedVar =>
      var_start <- u_var_start n ;;
      Some (mkValue [TempVarName var_start] false)
  | NodeType.Statements =>
      stats <- statements_loop [] args ;;
      Some (mkValue stats false)
  | NodeType.EndReturn => WrapNAry tn args "return " ""
  | NodeType.Decl =>
      var <- u_var n ;;
      f <- cur_func ;;
      Some (mkValue
              [("var " ++ LocalDecl (Var_name var) (GetLocalType f var))%string]
              false)
  | NodeType.DeclInit =>
      a0 <- nth_error args 0 ;;
      var <- u_var n ;;
      f <- cur_func ;;
      WrapChild tn a0
        (Str.cat ["var "; LocalDecl (Var_name var) (GetLocalType f var); " = "])
        ""
  | NodeType.Expr => DecompileExprType n args
  | NodeType.Uninitialized => None
  end.

(** [DecompileExpr(n)] *)
Fixpoint DecompileExpr (n : Node) : option Value :=
  match n with
  | mkNode _ _ _ children_ _ =>
      args <- (fix render (cs : list Node) : option (list Value) :=
                 match cs with
                 | [] => Some []
                 | c :: cs' =>
                     match DecompileExpr c with
                     | None => None
                     | Some a =>
                         match render cs' with
                         | None => None
                         | Some rest => Some (a :: rest)
                         end
                     end
                 end) children_ ;;
      DecompileNode n args
  end.

End Renderer.

(** ** The module walker *)

Definition s_hexdigits : string := "0123456789abcdef".

(** The body of the [BinaryToString] loop for the byte [c]. *)
Definition BinaryToString_step (s : string) (c : Byte.byte) : option string :=
  let n := Byte.to_N c in
  if (N.leb 32 n && N.leb n 126)%bool
  then Some (s ++ Str.of_char (ascii_of_byte c))%string
  else
    hi <- String.get (N.to_nat (N.shiftr n 4)) s_hexdigits ;;
    lo <- String.get (N.to_nat (N.land n 15)) s_hexdigits ;;
    Some (((s ++ Str.of_char Str.backslash) ++ Str.of_char hi)
            ++ Str.of_char lo)%string.

Fixpoint BinaryToString_loop (s : string) (in_ : list Byte.byte)
  : option string :=
  match in_ with
  | [] => Some s
  | c :: rest =>
      s1 <- BinaryToString_step s c ;;
      BinaryToString_loop s1 rest
  end.

(** [BinaryToString(in)] *)
Definition BinaryToString (in_ : list Byte.byte) : option string :=
  s <- BinaryToString_loop (Str.of_char Str.dquote) in_ ;;
  Some (s ++ Str.of_char Str.dquote)%string.

Section Walker.

Variable tn : Tunables.
Variable env : Collaborators.
Variable module : Module_.

(** [CheckImportExport(s, kind, index, name)]: the new [s] and the result. *)
Definition CheckImportExport (s : string) (kind : ExternalKind.t) (index : Z)
    (name : string) : string * bool :=
  let is_import := IsImport module kind index in
  let is_export :=
    match GetExport module name with
    | Some xport => ExternalKind.eqb (Export_kind xport) kind
    | None => false
    end in
  let s1 := if is_export then (s ++ "export ")%string else s in
  let s2 := if is_import then (s1 ++ "import ")%string else s1 in
  (s2, is_import).

(** [InitExp(el)] *)
Definition InitExp (cur_func : option Func) (lst : LoadStoreTracking)
    (el : ExprList) : option string :=
  assert! (negb (length el =? 0)) ;;
  let exp_stack := AST_Construct env None el 1 false in
  root <- nth_error exp_stack 0 ;;
  val <- DecompileExpr tn env cur_func lst root ;;
  assert! ((length exp_stack =? 1) && (length (v val) =? 1)) ;;
  nth_error (v val) 0.

Definition newline : string := Str.of_char Str.newline.

(** One iteration of the loop over [mc.module.memories]. *)
Definition DecompileMemory (st : string * Z) (m : Memory) : string * Z :=
  let '(s, memory_index) := st in
  let '(s1, is_import) :=
    CheckImportExport s ExternalKind.Memory memory_index (Memory_name m) in
  let s2 := (s1 ++ Str.cat ["memory "; Memory_name m])%string in
  let s3 :=
    if negb is_import
    then (s2 ++ Str.cat ["(initial: "; Str.of_Z (Limits_initial (page_limits m));
                         ", max: "; Str.of_Z (Limits_max (page_limits m)); ")"])%string
    else s2 in
  ((s3 ++ ";" ++ newline)%string, ((memory_index + 1) mod 2 ^ 32)%Z).

(** One iteration of the loop over [mc.module.globals]. *)
Definition DecompileGlobal (cur_func : option Func) (lst : LoadStoreTracking)
    (st : string * Z) (g : Global) : option (string * Z) :=
  let '(s, global_index) := st in
  let '(s1, is_import) :=
    CheckImportExport s ExternalKind.Global global_index (Global_name g) in
  let s2 := (s1 ++ Str.cat ["global "; Global_name g; ":";
                            GetDecompTypeName env (Global_type g)])%string in
  s3 <- (if negb is_import
         then ie <- InitExp cur_func lst (init_expr g) ;;
              Some (s2 ++ Str.cat [" = "; ie])%string
         else Some s2) ;;
  Some ((s3 ++ ";" ++ newline)%string, ((global_index + 1) mod 2 ^ 32)%Z).

(** One iteration of the loop over [mc.module.tables]. *)
Definition DecompileTable (st : string * Z) (tab : Table) : string * Z :=
  let '(s, table_index) := st in
  let '(s1, is_import) :=
    CheckImportExport s ExternalKind.Table table_index (Table_name tab) in
  let s2 := (s1 ++ Str.cat ["table "; Table_name tab; ":";
                            GetDecompTypeName env (elem_type tab)])%string in
  let s3 :=
    if negb is_import
    then (s2 ++ Str.cat ["(min: "; Str.of_Z (Limits_initial (elem_limits tab));
                         ", max: "; Str.of_Z (Limits_max (elem_limits tab)); ")"])%string
    else s2 in
  ((s3 ++ ";" ++ newline)%string, ((table_index + 1) mod 2 ^ 32)%Z).

(** One iteration of the loop over [mc.module.data_segments]. *)
Definition DecompileData (cur_func : option Func) (lst : LoadStoreTracking)
    (s : string) (dat : DataSegment) : option string :=
  ie <- InitExp cur_func lst (DataSegment_offset dat) ;;
  bs <- BinaryToString (data dat) ;;
  Some (s ++ Str.cat ["data "; DataSegment_name dat; "(offset: "; ie; ") = ";
                      bs; ";" ++ newline])%string.

(** The parameter list of a function signature. *)
Definition DecompileParams (lst : LoadStoreTracking) (s : string) (f : Func)
  : string :=
  fold_left
    (fun (s : string) (it : nat * Type_.t) =>
       let '(i, t) := it in
       ((if (i =? 0)%nat then s else s ++ ", ")
          ++ LocalDecl env lst (IndexToAlphaName env (Z.of_nat i)) t)%string)
    (combine (seq 0 (length (Func_param_types f))) (Func_param_types f)) s.

(** The result part of a function signature. *)
Definition DecompileResults (s : string) (f : Func) : string :=
  match Func_result_types f with
  | [] => s
  | [t] => (s ++ Str.cat [":"; GetDecompTypeName env t])%string
  | ts =>
      (fold_left
         (fun (s : string) (it : nat * Type_.t) =>
            let '(i, t) := it in
            ((if (i =? 0)%nat then s else s ++ ", ")
               ++ GetDecompTypeName env t)%string)
         (combine (seq 0 (length ts)) ts) (s ++ ":(")
       ++ ")")%string
  end.

(** One iteration of the loop over [mc.module.funcs]; the state is [s], the
    tracker and [func_index]. *)
Definition DecompileFunc (st : string * LoadStoreTracking * Z) (f : Func)
  : option (string * LoadStoreTracking * Z) :=
  let '(s, lst, func_index) := st in
  let cur_func := Some f in
  let '(s1, is_import) :=
    CheckImportExport s ExternalKind.Func func_index (Func_name f) in
  let exp_stack :=
    if negb is_import
    then AST_Construct env (Some f) (Func_exprs f)
           (length (Func_result_types f)) true
    else [] in
  lst1 <- (if negb is_import
           then root <- nth_error exp_stack 0 ;;
                Some (lst_CheckLayouts env (lst_Track env lst root))
           else Some lst) ;;
  let s2 := (s1 ++ Str.cat ["function "; Func_name f; "("])%string in
  let s3 := (DecompileParams lst1 s2 f ++ ")")%string in
  let s4 := DecompileResults s3 f in
  s5 <- (if is_import
         then Some (s4 ++ ";")%string
         else
           root <- nth_error exp_stack 0 ;;
           val <- DecompileExpr tn env cur_func lst1 root ;;
           let val1 := IndentValue val (indent_amount tn) "" in
           Some (fold_left (fun (s : string) (stat : string) =>
                              ((s ++ stat) ++ newline)%string)
                           (v val1) (s4 ++ " {" ++ newline)
                 ++ "}")%string) ;;
  Some ((s5 ++ newline ++ newline)%string, lst_Clear env lst1,
        ((func_index + 1) mod 2 ^ 32)%Z).

(** A [for] loop whose body may be undefined. *)
Fixpoint foldM {S A : Type} (body : S -> A -> option S) (st : S) (l : list A)
  : option S :=
  match l with
  | [] => Some st
  | a :: l' =>
      st1 <- body st a ;;
      foldM body st1 l'
  end.

(** After a section that is not empty comes a blank line. *)
Definition section_end {A : Type} (items : list A) (s : string) : string :=
  if negb (length items =? 0) then (s ++ newline)%string else s.

(** [Decompile()] *)
Definition Decompile : option string :=
  let cur_func : option Func := None in
  let lst := lst_initial env in
  let s := "" in
  (* Memories. *)
  let '(s, _) := fold_left DecompileMemory (memories module) (s, 0%Z) in
  let s := section_end (memories module) s in
  (* Globals. *)
  sg <- foldM (DecompileGlobal cur_func lst) (s, 0%Z) (globals module) ;;
  let s := section_end (globals module) (fst sg) in
  (* Tables. *)
  let '(s, _) := fold_left DecompileTable (tables module) (s, 0%Z) in
  let s := section_end (tables module) s in
  (* Data. *)
  s <- foldM (DecompileData cur_func lst) s (data_segments module) ;;
  let s := section_end (data_segments module) s in
  (* Code. *)
  sf <- foldM DecompileFunc (s, lst, 0%Z) (funcs module) ;;
  Some (fst (fst sf)).

End Walker.

(** ** Predicates and reference definitions used in the statements *)

(** The children of [n] rendered in order, then [DecompileNode]: the first
    loop of [DecompileExpr] written with [Partial.mapM]. *)
Definition render_children (tn : Tunables) (env : Collaborators)
    (cur_func : option Func) (lst : LoadStoreTracking) (cs : list Node)
  : option (list Value) :=
  Partial.mapM (DecompileExpr tn env cur_func lst) cs.

(** The last line of a [Value], when it has one. *)
Definition last_line (val : Value) : option string := Vec.back (v val).

(** [ends_with c s]: the last character of [s] is [c]. *)
Definition ends_with (c : ascii) (s : string) : bool :=
  match Str.back s with
  | Some c' => Ascii.eqb c' c
  | None => false
  end.

(** The lines of one statement as the specification describes them: the
    child's lines, with [';'] added to the last one unless it ends in
    ['}']. *)
Definition terminated_lines (val : Value) : list string :=
  match last_line val with
  | Some s =>
      removelast (v val)
        ++ [if ends_with "}" s then s else (s ++ ";")%string]
  | None => []
  end.

(** Nodes that render to a [Value] without any line: a [Statements] node
    without children, and a [Drop] of such a node. *)
Fixpoint renders_empty (n : Node) : bool :=
  match n with
  | mkNode nt et _ cs _ =>
      match nt with
      | NodeType.Statements =>
          match cs with
          | [] => true
          | _ :: _ => false
          end
      | NodeType.Expr =>
          match et with
          | ExprType.Drop =>
              match cs with
              | c :: _ => renders_empty c
              | [] => false
              end
          | _ => false
          end
      | _ => false
      end
  end.

(** The leaves whose text comes from outside the decompiler: the name of a
    variable that is read, and the text of a floating-point constant. *)
Definition atom_not_empty (env : Collaborators) (n : Node) : bool :=
  match ntype n with
  | NodeType.Expr =>
      match etype n, e n with
      | ExprType.LocalGet, Some (LocalGetExpr var)
      | ExprType.GlobalGet, Some (GlobalGetExpr var) =>
          negb (Str.empty (Var_name var))
      | ExprType.LocalTee, Some (LocalTeeExpr var) =>
          match children n with
          | [] => negb (Str.empty (Var_name var))
          | _ :: _ => true
          end
      | ExprType.Const, Some (ConstExpr c) =>
          match const_type c with
          | Type_.F64 => negb (Str.empty (std_to_string_f64 env (Const_u64 c)))
          | _ => true
          end
      | _, _ => true
      end
  | _ => true
  end.

Fixpoint no_empty_atom (env : Collaborators) (n : Node) : bool :=
  atom_not_empty env n
  && match n with
     | mkNode _ _ _ cs _ =>
         (fix all (cs : list Node) : bool :=
            match cs with
            | [] => true
            | c :: cs' => no_empty_atom env c && all cs'
            end) cs
     end.

(** *** Well-formed nodes

    [well_formed env has_func n] collects what the renderer relies on: the
    record [n.e] is of the class its [etype] announces, the union [n.u] holds
    the member that is read, the operands that are used are present, an
    operand whose lines are used has lines, and the statements of a
    [Statements] node have no leaf with an empty text.  [has_func] tells
    whether [cur_func] is set. *)

Definition has_lines (n : Node) : bool := negb (renders_empty n).

Definition expr_matches (et : ExprType.t) (x : option Expr) : bool :=
  match et, x with
  | ExprType.Const, Some (ConstExpr c) =>
      match const_type c with
      | Type_.I32 | Type_.I64 | Type_.F32 | Type_.F64 | Type_.V128 => true
      | _ => false
      end
  | ExprType.LocalGet, Some (LocalGetExpr _)
  | ExprType.GlobalGet, Some (GlobalGetExpr _)
  | ExprType.LocalSet, Some (LocalSetExpr _)
  | ExprType.GlobalSet, Some (GlobalSetExpr _)
  | ExprType.LocalTee, Some (LocalTeeExpr _)
  | ExprType.Binary, Some (BinaryExpr _)
  | ExprType.Compare, Some (CompareExpr _)
  | ExprType.Unary, Some (UnaryExpr _)
  | ExprType.Load, Some (LoadExpr _ _ _)
  | ExprType.Store, Some (StoreExpr _ _ _)
  | ExprType.If, Some (IfExpr _ _ _)
  | ExprType.Block, Some (BlockExpr _ _)
  | ExprType.Loop, Some (LoopExpr _ _)
  | ExprType.Br, Some (BrExpr _)
  | ExprType.BrIf, Some (BrIfExpr _)
  | ExprType.Call, Some (CallExpr _)
  | ExprType.Convert, Some (ConvertExpr _) => true
  | ExprType.Return, _ | ExprType.Drop, _ | ExprType.Nop, _
  | ExprType.Other _, _ => true
  | _, _ => false
  end.

Definition first_has_lines (cs : list Node) : bool :=
  match cs with
  | c :: _ => has_lines c
  | [] => false
  end.

Definition operands_ok (et : ExprType.t) (x : option Expr) (cs : list Node)
  : bool :=
  match et with
  | ExprType.LocalSet | ExprType.GlobalSet | ExprType.Unary | ExprType.Load
  | ExprType.BrIf => first_has_lines cs
  | ExprType.LocalTee =>
      match cs with
      | [] => true
      | c :: _ => has_lines c
      end
  | ExprType.Binary | ExprType.Compare | ExprType.Store =>
      match cs with
      | [a; b] => has_lines a && has_lines b
      | _ => false
      end
  | ExprType.If =>
      match x, cs with
      | Some (IfExpr _ _ []), c :: t :: _ => has_lines c && has_lines t
      | Some (IfExpr _ _ (_ :: _)), c :: t :: el :: _ =>
          has_lines c && has_lines t && has_lines el
      | _, _ => false
      end
  | ExprType.Block | ExprType.Loop | ExprType.Drop =>
      match cs with
      | _ :: _ => true
      | [] => false
      end
  | ExprType.Return | ExprType.Call | ExprType.Convert | ExprType.Nop
  | ExprType.Other _ => forallb has_lines cs
  | ExprType.Const | ExprType.LocalGet | ExprType.GlobalGet | ExprType.Br =>
      true
  end.

Definition union_ok (nt : NodeType.t) (et : ExprType.t) (w : NodeU) : bool :=
  match nt, w with
  | NodeType.FlushToVars, U_vars _ _ | NodeType.FlushedVar, U_vars _ _
  | NodeType.Decl, U_var _ | NodeType.DeclInit, U_var _ => true
  | NodeType.Expr, U_lt _ => true
  | NodeType.Expr, _ =>
      match et with
      | ExprType.Br | ExprType.BrIf => false
      | _ => true
      end
  | NodeType.Statements, _ | NodeType.EndReturn, _ => true
  | _, _ => false
  end.

Definition node_ok (env : Collaborators) (has_func : bool) (n : Node) : bool :=
  union_ok (ntype n) (etype n) (u n)
  && match ntype n with
     | NodeType.Uninitialized => false
     | NodeType.FlushToVars | NodeType.EndReturn =>
         forallb has_lines (children n)
     | NodeType.FlushedVar => true
     | NodeType.Statements =>
         forallb (fun c => has_lines c && no_empty_atom env c) (children n)
     | NodeType.Decl => has_func
     | NodeType.DeclInit => has_func && first_has_lines (children n)
     | NodeType.Expr =>
         expr_matches (etype n) (e n)
         && operands_ok (etype n) (e n) (children n)
     end.

Fixpoint well_formed (env : Collaborators) (has_func : bool) (n : Node) : bool :=
  node_ok env has_func n
  && match n with
     | mkNode _ _ _ cs _ =>
         (fix all (cs : list Node) : bool :=
            match cs with
            | [] => true
            | c :: cs' => well_formed env has_func c && all cs'
            end) cs
     end.

(** *** [WrapNAry] *)

Definition first_line (val : Value) : string :=
  match v val with
  | l :: _ => l
  | [] => ""
  end.

Definition sum_of_widths (args : list Value) : nat :=
  fold_right (fun a acc => width a + acc) 0 args.

Definition no_arg_multiline (args : list Value) : bool :=
  forallb (fun a => length (v a) <=? 1) args.

(** The single-line condition with the widths of the [", "] separators
    counted, two characters between each two arguments. *)
Definition single_line_cond_with_separators (tn : Tunables) (args : list Value)
    (prefix postfix : string) : bool :=
  (length args =? 0)
  || (no_arg_multiline args
      && (String.length prefix + sum_of_widths args + 2 * (length args - 1)
            + String.length postfix <? target_exp_width tn)).

(** The single-line condition without the separators. *)
Definition single_line_cond (tn : Tunables) (args : list Value)
    (prefix postfix : string) : bool :=
  (length args =? 0)
  || (no_arg_multiline args
      && (String.length prefix + sum_of_widths args + String.length postfix
            <? target_exp_width tn)).

(** [prefix ++ a0 ++ ", " ++ a1 ++ ... ++ postfix] *)
Definition single_line_form (args : list Value) (prefix postfix : string)
  : string :=
  (prefix ++ String.concat ", " (map first_line args) ++ postfix)%string.

Definition total_lines (args : list Value) : nat :=
  fold_right (fun a acc => length (v a) + acc) 0 args.

Definition max_of_widths (args : list Value) : nat :=
  fold_right (fun a acc => Nat.max (width a) acc) 0 args.

(** One argument of one line that fits after the prefix: the multi-line
    branch then puts the prefix on the argument's line. *)
Definition lone_argument_fits (tn : Tunables) (args : list Value)
    (prefix : string) : bool :=
  match args with
  | [a] =>
      (length (v a) =? 1)
      && (width a + String.length prefix <? target_exp_width tn)
  | _ => false
  end.

(** When the result is one line: the test of the single-line branch, or a
    lone argument that fits. *)
Definition one_line_cond (tn : Tunables) (args : list Value)
    (prefix postfix : string) : bool :=
  single_line_cond tn args prefix postfix || lone_argument_fits tn args prefix.

(** *** [BinaryToString] *)

Definition printable (c : Byte.byte) : bool :=
  (N.leb 32 (Byte.to_N c) && N.leb (Byte.to_N c) 126)%bool.

(** The lowercase hexadecimal digit of a value below 16. *)
Definition lower_hex_digit (d : N) : ascii :=
  if N.ltb d 10
  then ascii_of_N (48 + d)
  else ascii_of_N (97 + (d - 10)).

Definition is_lower_hex (c : ascii) : bool :=
  let n := N_of_ascii c in
  ((N.leb 48 n && N.leb n 57) || (N.leb 97 n && N.leb n 102))%bool.

(** The text of one byte as the specification describes it. *)
Definition byte_text (c : Byte.byte) : string :=
  if printable c
  then Str.of_char (ascii_of_byte c)
  else String Str.backslash
         (String (lower_hex_digit (Byte.to_N c / 16))
            (String (lower_hex_digit (Byte.to_N c mod 16)) EmptyString)).

Definition quoted (s : string) : string :=
  String Str.dquote (s ++ Str.of_char Str.dquote)%string.

(** *** Floating-point literals *)

Definition is_digit (c : ascii) : bool :=
  let n := N_of_ascii c in (N.leb 48 n && N.leb n 57)%bool.

Fixpoint all_digits (s : string) : bool :=
  match s with
  | EmptyString => true
  | String c s' => is_digit c && all_digits s'
  end.

(** [digits_then_dot s]: [s] is [int ++ "." ++ frac] where [int] is a
    non-empty run of digits; the result is [(int, frac)]. *)
Fixpoint digits_then_dot (s : string) : option (string * string) :=
  match s with
  | EmptyString => None
  | String c s' =>
      if is_digit c then
        match s' with
        | String "." frac => Some (Str.of_char c, frac)
        | _ =>
            match digits_then_dot s' with
            | Some (int, frac) => Some (String c int, frac)
            | None => None
            end
        end
      else None
  end.

(** What [std::to_string(double)] produces for a finite number (the format
    of [printf("%f")]): an optional ['-'], one or more digits, ['.'] and six
    digits. *)
Definition fixed_notation (s : string) : bool :=
  let body := match s with
              | String "-" r => r
              | _ => s
              end in
  match digits_then_dot body with
  | Some (_, frac) => all_digits frac && (String.length frac =? 6)
  | None => false
  end.

(** [sign_of s] is ["-"] when [s] starts with the sign and [""] otherwise. *)
Definition sign_of (s : string) : string :=
  match s with
  | String "-" _ => "-"
  | _ => ""
  end.

(** *** Whitespace *)

Definition is_whitespace (c : ascii) : bool :=
  let n := N_of_ascii c in
  ((N.eqb n 32) || (N.leb 9 n && N.leb n 13))%bool.

(** The text with every whitespace character deleted. *)
Fixpoint strip_whitespace (s : string) : string :=
  match s with
  | EmptyString => EmptyString
  | String c s' =>
      if is_whitespace c then strip_whitespace s'
      else String c (strip_whitespace s')
  end.

(** ** Concrete inputs *)

Module Demo.

Definition lst : LoadStoreTracking :=
  mkLoadStoreTracking (fun _ => "") (fun _ _ => "").

Definition type_name (t : Type_.t) : string :=
  match t with
  | Type_.I32 => "int"
  | Type_.I64 => "long"
  | Type_.F32 => "float"
  | Type_.F64 => "double"
  | _ => "ILLEGAL"
  end.

(** Collaborators whose AST builder is the table [ast]. *)
Definition env (ast : ExprList -> list Node) : Collaborators :=
  mkCollaborators type_name (fun t _ => t) (fun _ => "other")
    (fun _ => "0.000000") (fun _ => "0.000000") (fun _ => "a")
    (fun _ el _ _ => ast el) lst (fun l _ => l) (fun l => l) (fun l => l).

Definition opcode (name : string) : Opcode :=
  mkOpcode name (fun _ => true) Type_.I32 Type_.I32.

Definition i32_const (z : Z) : Node :=
  mkNode NodeType.Expr ExprType.Const
    (Some (ConstExpr (mkConst Type_.I32 z))) [] U_unset.

Definition binary (opc : Opcode) (a b : Node) : Node :=
  mkNode NodeType.Expr ExprType.Binary (Some (BinaryExpr opc)) [a; b] U_unset.

Definition compare (opc : Opcode) (a b : Node) : Node :=
  mkNode NodeType.Expr ExprType.Compare (Some (CompareExpr opc)) [a; b] U_unset.

Definition local_get (name : string) : Node :=
  mkNode NodeType.Expr ExprType.LocalGet (Some (LocalGetExpr (mkVar name)))
    [] U_unset.

Definition if_else (c t f : Node) : Node :=
  mkNode NodeType.Expr ExprType.If (Some (IfExpr "" [] [OtherExpr]))
    [c; t; f] U_unset.

Definition statements (cs : list Node) : Node :=
  mkNode NodeType.Statements ExprType.Nop None cs U_unset.

Definition end_return (cs : list Node) : Node :=
  mkNode NodeType.EndReturn ExprType.Nop None cs U_unset.

Definition line (s : string) : Value := mkValue [s] false.

(** [1 + (2 + 3)] with the opcode [opc]. *)
Definition nested_add (opc : Opcode) : Node :=
  binary opc (i32_const 1) (binary opc (i32_const 2) (i32_const 3)).

(** Two arguments of 34 characters each. *)
Definition two_wide_args : list Value :=
  [line (Str.make 34 "a"); line (Str.make 34 "b")].

(** [(if (a < b) x else y) + 1] as the value a function returns: the
    condition of the [if] is a comparison, its arms are two locals with
    names of 15 characters. *)
Definition if_operand : Node :=
  end_return
    [binary (opcode "i32.add")
       (if_else (compare (opcode "i32.lt_s") (local_get "a") (local_get "b"))
          (local_get "xxxxxxxxxxxxxxx") (local_get "yyyyyyyyyyyyyyy"))
       (i32_const 1)].

(** The AST builder gives [if_operand] for the body of the function. *)
Definition if_operand_env : Collaborators := env (fun _ => [if_operand]).

Definition if_operand_func : Func :=
  mkFunc "f" [OtherExpr] [] [Type_.I32] (fun _ => Type_.I32).

Definition if_operand_module : Module_ :=
  mkModule [] [] [] [] [if_operand_func] (fun _ _ => false) (fun _ => None).

(** A function without parameters, results and instructions. *)
Definition empty_func : Func :=
  mkFunc "f" [] [] [] (fun _ => Type_.I32).

Definition empty_func_module : Module_ :=
  mkModule [] [] [] [] [empty_func] (fun _ _ => false) (fun _ => None).

Definition data_module (offset : ExprList) : Module_ :=
  mkModule [] [] []
    [mkDataSegment "d" offset [Byte.x48; Byte.x69; Byte.x00]] []
    (fun _ _ => false) (fun _ => None).

End Demo.

(** [has_last_character val]: the fragment has a last line and that line has
    a last character, so both [.back()] calls of the loop are defined. *)
Definition has_last_character (val : Value) : Prop :=
  exists s c, last_line val = Some s /\ Str.back s = Some c.

(** Every line of the fragment has at least one character. *)
Definition lines_not_empty (val : Value) : Prop :=
  Forall (fun s : string => s <> "") (v val).

(** *** The text of a fragment, without its layout *)

(** The characters of the lines, in order, without the whitespace. *)
Definition text_of_lines (l : list string) : string :=
  strip_whitespace (Str.cat l).

Definition text (val : Value) : string := text_of_lines (v val).

(** Whether the last line ends in ['}'], which is what the [Statements]
    loop asks before it appends [';']. *)
Definition brace (val : Value) : bool :=
  match last_line val with
  | Some s => ends_with "}" s
  | None => false
  end.

(** The text of an operand after [BracketIfNeeded]. *)
Definition bracketed_text (val : Value) : string :=
  if needs_bracketing val then ("(" ++ text val ++ ")")%string else text val.

(** Two fragments with the same text that the [Statements] loop treats
    alike. *)
Definition same_text (val1 val2 : Value) : Prop :=
  text val1 = text val2 /\ brace val1 = brace val2.

(** A fragment whose lines can be used: there is one, and none is empty. *)
Definition usable (val : Value) : Prop :=
  v val <> [] /\ lines_not_empty val.

(** What the [Statements] loop will ask about the fragment of an argument
    list: the last argument decides when the postfix is empty. *)
Definition nary_brace (args : list Value) (prefix postfix : string) : bool :=
  if Str.empty postfix
  then match Vec.back args with
       | Some a => brace a
       | None => ends_with "}" prefix
       end
  else ends_with "}" postfix.

(** The text of an [if]: the condition, the arm and the optional second arm
    between the same tokens in both layouts. *)
Definition if_text (c t : Value) (els : option Value) : string :=
  ("if(" ++ text c ++ "){" ++ text t ++ "}"
     ++ match els with
        | Some el => "else{" ++ text el ++ "}"
        | None => ""
        end)%string.

(** The text of a statement with its terminator. *)
Definition statement_text (a : Value) : string :=
  (text a ++ if brace a then "" else ";")%string.

(** [static_flag n] is the [needs_bracketing] flag of the fragment of [n]
    when the layout cannot change it, and [None] when it can: the multi-line
    branch of the [If] case hands on the flag of the condition and the
    single-line branch clears it. *)
Fixpoint static_flag (n : Node) : option bool :=
  match n with
  | mkNode nt et _ cs _ =>
      let first :=
        match cs with
        | c :: _ => static_flag c
        | [] => None
        end in
      match nt with
      | NodeType.DeclInit => first
      | NodeType.Expr =>
          match et with
          | ExprType.LocalSet | ExprType.GlobalSet | ExprType.Binary
          | ExprType.Compare | ExprType.Store => Some true
          | ExprType.LocalTee =>
              match cs with
              | [] => Some false
              | _ :: _ => Some true
              end
          | ExprType.Unary | ExprType.BrIf | ExprType.Block | ExprType.Loop
          | ExprType.Drop => first
          | ExprType.If =>
              match first with
              | Some false => Some false
              | _ => None
              end
          | _ => Some false
          end
      | _ => Some false
      end
  end.

Definition flag_known (n : Node) : bool :=
  match static_flag n with
  | Some _ => true
  | None => false
  end.

(** [flag_ok n]: wherever [BracketIfNeeded] reads the flag of an operand
    (the operands of a binary, a comparison and a store, the address of a
    load), the layout cannot change that flag. *)
Definition operand_flags_known (n : Node) : bool :=
  match ntype n with
  | NodeType.Expr =>
      match etype n with
      | ExprType.Binary | ExprType.Compare | ExprType.Store =>
          forallb flag_known (children n)
      | ExprType.Load =>
          match children n with
          | c :: _ => flag_known c
          | [] => true
          end
      | _ => true
      end
  | _ => true
  end.

Fixpoint flag_ok (n : Node) : bool :=
  operand_flags_known n
  && match n with
     | mkNode _ _ _ cs _ =>
         (fix all (cs : list Node) : bool :=
            match cs with
            | [] => true
            | c :: cs' => flag_ok c && all cs'
            end) cs
     end.

(** The node [c] rendered with two settings of the tunables, into fragments
    with the same text and without empty lines. *)
Definition rendered_alike (tn1 tn2 : Tunables) (env : Collaborators)
    (cur_func : option Func) (lst : LoadStoreTracking)
    (c : Node) (a1 a2 : Value) : Prop :=
  DecompileExpr tn1 env cur_func lst c = Some a1
  /\ DecompileExpr tn2 env cur_func lst c = Some a2
  /\ same_text a1 a2
  /\ lines_not_empty a1 /\ lines_not_empty a2.

(** Three lists of the same length whose elements are related in order. *)
Fixpoint all3 {A B C : Type} (P : A -> B -> C -> Prop)
    (la : list A) (lb : list B) (lc : list C) : Prop :=
  match la, lb, lc with
  | [], [], [] => True
  | a :: la', b :: lb', c :: lc' => P a b c /\ all3 P la' lb' lc'
  | _, _, _ => False
  end.

(** *** The trees the builder hands to the renderer *)

(** Whether [cur_func] is set, which the [Decl] and [DeclInit] cases read. *)
Definition in_function (f : option Func) : bool :=
  match f with
  | Some _ => true
  | None => false
  end.

(** A tree the renderer can take: well formed, without a leaf of empty text,
    and with the flag of every operand fixed by the kind of the operand. *)
Definition ast_ok (env : Collaborators) (f : option Func) (root : Node) : bool :=
  well_formed env (in_function f) root && no_empty_atom env root && flag_ok root.

(** Every tree the AST builder returns can be taken by the renderer. *)
Definition builder_ok (env : Collaborators) : Prop :=
  forall f el n b root,
    nth_error (AST_Construct env f el n b) 0 = Some root ->
    ast_ok env f root = true.

(** Two texts that differ in whitespace only. *)
Definition same_stripped (s1 s2 : string) : Prop :=
  strip_whitespace s1 = strip_whitespace s2.

(** What the loop over the functions carries: the output, the tracker and
    the index; two states with the same output up to whitespace. *)
Definition same_state (st1 st2 : string * LoadStoreTracking * Z) : Prop :=
  same_stripped (fst (fst st1)) (fst (fst st2))
  /\ snd (fst st1) = snd (fst st2) /\ snd st1 = snd st2.

(** *** Characters of a text *)

(** Whether the character [c] occurs in [s]. *)
Fixpoint occurs (c : ascii) (s : string) : bool :=
  match s with
  | EmptyString => false
  | String c' s' => Ascii.eqb c' c || occurs c s'
  end.

(** Whether every character of [s] satisfies [p]. *)
Fixpoint all_chars (p : ascii -> bool) (s : string) : bool :=
  match s with
  | EmptyString => true
  | String c s' => p c && all_chars p s'
  end.

(** The printable ASCII characters, [' '] to ['~']. *)
Definition printable_char (c : ascii) : bool :=
  let n := N_of_ascii c in (N.leb 32 n && N.leb n 126)%bool.

(** *** Temporaries, data and signatures *)

(** The names a [FlushToVars] node declares, in order. *)
Definition decl_names (var_start var_count : Z) : list string :=
  map (fun i => TempVarName ((var_start + Z.of_nat i) mod 2 ^ 32))
      (seq 0 (Z.to_nat var_count)).

(** No byte of the data is the backslash. *)
Definition no_backslash (in_ : list Byte.byte) : bool :=
  forallb (fun c => negb (Byte.eqb c Byte.x5c)) in_.

(** One character for a printable byte, three for any other. *)
Definition escaped_length (in_ : list Byte.byte) : nat :=
  fold_right (fun c acc => (if printable c then 1 else 3) + acc) 0 in_.

(** The declarations of the parameters of [f], in order. *)
Definition param_decls (env : Collaborators) (lst : LoadStoreTracking)
    (f : Func) : list string :=
  map (fun it : nat * Type_.t =>
         LocalDecl env lst (IndexToAlphaName env (Z.of_nat (fst it))) (snd it))
      (combine (seq 0 (length (Func_param_types f))) (Func_param_types f)).

(** The result part of a signature: nothing, [:t] or [:(t0, t1, ...)]. *)
Definition results_text (env : Collaborators) (f : Func) : string :=
  match Func_result_types f with
  | [] => ""
  | [t] => (":" ++ GetDecompTypeName env t)%string
  | ts =>
      (":(" ++ String.concat ", " (map (GetDecompTypeName env) ts) ++ ")")%string
  end.

(** What [CheckImportExport] writes in front of a declaration. *)
Definition export_import (m : Module_) (kind : ExternalKind.t) (index : Z)
    (name : string) : string :=
  ((match GetExport m name with
    | Some xport =>
        if ExternalKind.eqb (Export_kind xport) kind then "export " else ""
    | None => ""
    end)
   ++ (if IsImport m kind index then "import " else ""))%string.

(** [function name(params)results] *)
Definition signature (env : Collaborators) (lst : LoadStoreTracking)
    (f : Func) : string :=
  ("function " ++ Func_name f ++ "("
     ++ String.concat ", " (param_decls env lst f) ++ ")"
     ++ results_text env f)%string.

(** *** More concrete inputs *)

Module Sample.

(** [if (a < b) x else y] as a statement, then [(1 * 2) + c]. *)
Definition body : Node :=
  Demo.statements
    [Demo.if_else
       (Demo.compare (Demo.opcode "i32.lt_s") (Demo.local_get "a")
          (Demo.local_get "b"))
       (Demo.local_get "xxxxxxxxxxxxxxx") (Demo.local_get "yyyyyyyyyyyyyyy");
     Demo.binary (Demo.opcode "i32.add")
       (Demo.binary (Demo.opcode "i32.mul") (Demo.i32_const 1)
          (Demo.i32_const 2))
       (Demo.local_get "c")].

(** A narrow page: lines of 20 characters. *)
Definition narrow : Tunables := mkTunables 2 20.

(** The AST builder gives [body] for every function. *)
Definition env : Collaborators := Demo.env (fun _ => [body]).

Definition func : Func :=
  mkFunc "f" [OtherExpr] [Type_.I32; Type_.I64] [Type_.I32]
    (fun _ => Type_.I32).

(** One memory and one function that is neither imported nor exported. *)
Definition module : Module_ :=
  mkModule [mkMemory "m" (mkLimits 1%Z 2%Z)] [] [] [] [func]
    (fun _ _ => false) (fun _ => None).

(** The same function, imported and exported under its name. *)
Definition import_module : Module_ :=
  mkModule [] [] [] [] [func]
    (fun kind _ => ExternalKind.eqb kind ExternalKind.Func)
    (fun _ => Some (mkExport ExternalKind.Func)).

(** A data segment without an offset expression. *)
Definition passive : DataSegment := mkDataSegment "d" [] [Byte.x48].

Definition passive_module : Module_ :=
  mkModule [] [] [] [passive] [] (fun _ _ => false) (fun _ => None).

(** A fragment of two lines that asks for brackets. *)
Definition sum : Value := mkValue ["a +"; "  b"] true.

(** A load from the address [p + 4], which needs brackets. *)
Definition load_of_sum : Node :=
  mkNode NodeType.Expr ExprType.Load
    (Some (LoadExpr (Demo.opcode "i32.load") 4%Z 8%Z))
    [Demo.binary (Demo.opcode "i32.add") (Demo.local_get "p")
       (Demo.i32_const 4)]
    U_unset.

Definition block (c : Node) : Node :=
  mkNode NodeType.Expr ExprType.Block (Some (BlockExpr "L" [])) [c] U_unset.

End Sample.

(** ** Induction over nodes *)

Section NodeInduction.

Variable P : Node -> Prop.
Hypothesis step :
  forall nt et x cs w, Forall P cs -> P (mkNode nt et x cs w).

Fixpoint Node_nested_ind (n : Node) : P n :=
  match n with
  | mkNode nt et x cs w =>
      step nt et x cs w
        ((fix all (cs : list Node) : Forall P cs :=
            match cs with
            | [] => Forall_nil P
            | c :: cs' => Forall_cons c (Node_nested_ind c) (all cs')
            end) cs)
  end.

End NodeInduction.

(** * Properties *)

(** ** Strings and vectors *)

Module StrFacts.

Lemma append_nil_r (s : string) : (s ++ "")%string = s.
Proof. induction s as [|c s IH]; simpl; [reflexivity | now rewrite IH]. Qed.

Lemma append_assoc (a b c : string) :
  ((a ++ b) ++ c)%string = (a ++ (b ++ c))%string.
Proof. induction a as [|x a IH]; simpl; [reflexivity | now rewrite IH]. Qed.

Lemma length_append (a b : string) :
  String.length (a ++ b) = String.length a + String.length b.
Proof. induction a as [|x a IH]; simpl; [reflexivity | now rewrite IH]. Qed.

Lemma append_eq_nil (a b : string) :
  (a ++ b)%string = "" -> a = "" /\ b = "".
Proof. destruct a; simpl; [auto | discriminate]. Qed.

Lemma append_not_nil_l (a b : string) : a <> "" -> (a ++ b)%string <> "".
Proof. intros Ha H; apply append_eq_nil in H; tauto. Qed.

Lemma append_not_nil_r (a b : string) : b <> "" -> (a ++ b)%string <> "".
Proof. intros Hb H; apply append_eq_nil in H; tauto. Qed.

Lemma empty_true (s : string) : Str.empty s = true <-> s = "".
Proof. destruct s; simpl; split; congruence. Qed.

Lemma empty_false (s : string) : Str.empty s = false <-> s <> "".
Proof. destruct s; simpl; split; congruence. Qed.

Lemma back_snoc (s : string) (c : ascii) :
  Str.back (s ++ String c "") = Some c.
Proof.
  induction s as [|x s IH]; simpl; [reflexivity|].
  destruct (s ++ String c "")%string eqn:E; [|exact IH].
  destruct s; discriminate.
Qed.

Lemma pop_back_snoc (s : string) (c : ascii) :
  Str.pop_back (s ++ String c "") = s.
Proof.
  induction s as [|x s IH]; simpl; [reflexivity|].
  destruct (s ++ String c "")%string eqn:E.
  - destruct s; discriminate.
  - now rewrite IH.
Qed.

(** A string is empty or ends with some character. *)
Lemma snoc_cases (s : string) :
  s = "" \/ exists s' c, s = (s' ++ String c "")%string.
Proof.
  induction s as [|x s IH]; [now left | right].
  destruct IH as [-> | (s' & c & ->)].
  - now exists "", x.
  - now exists (String x s'), c.
Qed.

Lemma back_some (s : string) : s <> "" -> exists c, Str.back s = Some c.
Proof.
  intros Hs. destruct (snoc_cases s) as [-> | (s' & c & ->)]; [easy|].
  exists c. apply back_snoc.
Qed.

Lemma back_none (s : string) : Str.back s = None -> s = "".
Proof.
  destruct (snoc_cases s) as [-> | (s' & c & ->)]; [easy|].
  now rewrite back_snoc.
Qed.

Lemma back_append (a b : string) :
  b <> "" -> Str.back (a ++ b) = Str.back b.
Proof.
  intros Hb. destruct (snoc_cases b) as [-> | (b' & c & ->)]; [easy|].
  now rewrite <- append_assoc, !back_snoc.
Qed.

Lemma get_before_last (s : string) (x y : ascii) :
  String.get (String.length (s ++ String x (String y "")) - 2)
             (s ++ String x (String y "")) = Some x.
Proof.
  rewrite length_append. simpl String.length.
  replace (String.length s + 2 - 2) with (String.length s) by lia.
  induction s as [|c s IH]; simpl; [reflexivity | exact IH].
Qed.

Lemma make_snoc (k : nat) (c : ascii) :
  (Str.make k c ++ String c "")%string = Str.make (S k) c.
Proof. induction k as [|k IH]; simpl; [reflexivity | now rewrite IH]. Qed.

Lemma of_Z_not_nil (z : Z) : Str.of_Z z <> "".
Proof.
  unfold Str.of_Z, NilZero.string_of_int.
  destruct (Z.to_int z) as [d|d]; [|discriminate].
  unfold NilZero.string_of_uint. destruct d; discriminate.
Qed.

Lemma strip_append (a b : string) :
  strip_whitespace (a ++ b) = (strip_whitespace a ++ strip_whitespace b)%string.
Proof.
  induction a as [|c a IH]; simpl; [reflexivity|].
  destruct (is_whitespace c); simpl; now rewrite IH.
Qed.

End StrFacts.

Module VecFacts.

Lemma vec_back_snoc {A : Type} (l : list A) (a : A) : Vec.back (l ++ [a]) = Some a.
Proof. unfold Vec.back. now rewrite rev_app_distr. Qed.

Lemma vec_back_none {A : Type} (l : list A) : Vec.back l = None <-> l = [].
Proof.
  destruct l as [|a l] using rev_ind; [easy|].
  rewrite vec_back_snoc. split; [discriminate|].
  intros H. now destruct l.
Qed.

Lemma vec_back_some {A : Type} (l : list A) (a : A) :
  Vec.back l = Some a <-> exists init, l = init ++ [a].
Proof.
  split.
  - destruct l as [|b l _] using rev_ind; [discriminate|].
    rewrite vec_back_snoc. intros [= ->]. now exists l.
  - intros (init & ->). apply vec_back_snoc.
Qed.

Lemma update_back_snoc {A : Type} (f : A -> A) (l : list A) (a : A) :
  Vec.update_back f (l ++ [a]) = Some (l ++ [f a]).
Proof.
  induction l as [|b l IH]; simpl; [reflexivity|].
  rewrite IH. destruct (l ++ [a]) eqn:E; [|reflexivity].
  now destruct l.
Qed.

Lemma update_back_none {A : Type} (f : A -> A) (l : list A) :
  Vec.update_back f l = None <-> l = [].
Proof.
  destruct l as [|a l _] using rev_ind; [easy|].
  rewrite update_back_snoc. split; [discriminate|].
  intros H. now destruct l.
Qed.

(** [update_back] succeeds exactly on a non-empty vector, and changes only
    its last element. *)
Lemma update_back_some {A : Type} (f : A -> A) (l w : list A) :
  Vec.update_back f l = Some w ->
  exists init a, l = init ++ [a] /\ w = init ++ [f a].
Proof.
  destruct l as [|a l _] using rev_ind; [discriminate|].
  rewrite update_back_snoc. intros [= <-]. now exists l, a.
Qed.

End VecFacts.

(** ** [BinaryToString] *)

Lemma cat_app (a b : list string) :
  Str.cat (a ++ b) = (Str.cat a ++ Str.cat b)%string.
Proof.
  induction a as [|x a IH]; simpl; [reflexivity|].
  now rewrite IH, StrFacts.append_assoc.
Qed.

(** The table lookup with shift and mask yields the two hexadecimal digits
    of the byte. *)
Lemma hexdigits_lookup (c : Byte.byte) :
  String.get (N.to_nat (N.shiftr (Byte.to_N c) 4)) s_hexdigits
    = Some (lower_hex_digit (Byte.to_N c / 16))
  /\ String.get (N.to_nat (N.land (Byte.to_N c) 15)) s_hexdigits
    = Some (lower_hex_digit (Byte.to_N c mod 16))
  /\ is_lower_hex (lower_hex_digit (Byte.to_N c / 16)) = true
  /\ is_lower_hex (lower_hex_digit (Byte.to_N c mod 16)) = true.
Proof. destruct c; vm_compute; repeat split. Qed.

Lemma BinaryToString_step_text (s : string) (c : Byte.byte) :
  BinaryToString_step s c = Some (s ++ byte_text c)%string.
Proof.
  unfold BinaryToString_step, byte_text, printable.
  destruct (N.leb 32 (Byte.to_N c) && N.leb (Byte.to_N c) 126)%bool;
    [reflexivity|].
  destruct (hexdigits_lookup c) as (Hhi & Hlo & _).
  rewrite Hhi, Hlo. simpl Partial.bind.
  now rewrite !StrFacts.append_assoc.
Qed.

Lemma BinaryToString_loop_text (in_ : list Byte.byte) (s : string) :
  BinaryToString_loop s in_ = Some (s ++ Str.cat (map byte_text in_))%string.
Proof.
  revert s. induction in_ as [|c in_ IH]; intros s; simpl.
  - now rewrite StrFacts.append_nil_r.
  - rewrite BinaryToString_step_text. simpl Partial.bind.
    now rewrite IH, StrFacts.append_assoc.
Qed.

Lemma BinaryToString_text (in_ : list Byte.byte) :
  BinaryToString in_ = Some (quoted (Str.cat (map byte_text in_))).
Proof.
  unfold BinaryToString. rewrite BinaryToString_loop_text. reflexivity.
Qed.

Lemma printable_range (c : Byte.byte) :
  printable c = true <-> (32 <= Byte.to_N c <= 126)%N.
Proof.
  unfold printable. rewrite andb_true_iff, !N.leb_le. tauto.
Qed.

Lemma printable_out_of_range (c : Byte.byte) :
  printable c = false <-> (Byte.to_N c < 32 \/ 126 < Byte.to_N c)%N.
Proof.
  unfold printable. rewrite andb_false_iff, !N.leb_gt. tauto.
Qed.

(** The initialiser expression [i32.const 0] renders as ["0"]. *)
Lemma InitExp_i32_const_0 (tn : Tunables) (env : Collaborators)
    (cur_func : option Func) (lst : LoadStoreTracking) (el : ExprList) :
  el <> [] ->
  AST_Construct env None el 1 false = [Demo.i32_const 0] ->
  InitExp tn env cur_func lst el = Some "0".
Proof.
  intros Hel Hast. unfold InitExp. rewrite Hast.
  destruct el; [congruence | reflexivity].
Qed.

(** C6: [BinaryToString] returns its input between double quotes, a byte in
    0x20..0x7E as the character itself and any other byte as a backslash and
    two lowercase hexadecimal digits; the data segment [d] with bytes
    0x48 0x69 0x00 and offset expression [0] is written as the line
    [data d(offset: 0) = "Hi\00";]. *)
Theorem C6_BinaryToString_escapes
    (in_ : list Byte.byte) (tn : Tunables) (env : Collaborators)
    (cur_func : option Func) (lst : LoadStoreTracking) (s : string)
    (offset : ExprList)
    (Hoffset : offset <> [])
    (Hast : AST_Construct env None offset 1 false = [Demo.i32_const 0]) :
  BinaryToString in_ = Some (quoted (Str.cat (map byte_text in_)))
  /\ (forall c : Byte.byte,
        (32 <= Byte.to_N c <= 126)%N ->
        byte_text c = Str.of_char (ascii_of_byte c))
  /\ (forall c : Byte.byte,
        (Byte.to_N c < 32 \/ 126 < Byte.to_N c)%N ->
        exists hi lo,
          byte_text c = String Str.backslash (String hi (String lo ""))
          /\ is_lower_hex hi = true /\ is_lower_hex lo = true
          /\ hi = lower_hex_digit (Byte.to_N c / 16)
          /\ lo = lower_hex_digit (Byte.to_N c mod 16))
  /\ BinaryToString [Byte.x48; Byte.x69; Byte.x00] = Some (quoted "Hi\00")
  /\ DecompileData tn env cur_func lst s
       (mkDataSegment "d" offset [Byte.x48; Byte.x69; Byte.x00])
     = Some (s ++ "data d(offset: 0) = " ++ quoted "Hi\00" ++ ";" ++ newline)%string.
Proof.
  split; [apply BinaryToString_text|].
  split.
  { intros c Hc. apply printable_range in Hc.
    unfold byte_text. now rewrite Hc. }
  split.
  { intros c Hc. apply printable_out_of_range in Hc.
    destruct (hexdigits_lookup c) as (_ & _ & Hhi & Hlo).
    unfold byte_text. rewrite Hc. eauto 8. }
  split; [reflexivity|].
  unfold DecompileData. simpl DataSegment_offset.
  rewrite (InitExp_i32_const_0 tn env cur_func lst offset Hoffset Hast).
  reflexivity.
Qed.

Lemma C6_BinaryToString_escapes_witness :
  BinaryToString [Byte.x7e; Byte.x7f]
    = Some (quoted (Str.cat (map byte_text [Byte.x7e; Byte.x7f])))
  /\ DecompileData default_tunables
       (Demo.env (fun _ => [Demo.i32_const 0])) None Demo.lst ""
       (mkDataSegment "d" [ConstExpr (mkConst Type_.I32 0)]
          [Byte.x48; Byte.x69; Byte.x00])
     = Some ("data d(offset: 0) = " ++ quoted "Hi\00" ++ ";" ++ newline)%string.
Proof.
  pose proof
    (C6_BinaryToString_escapes [Byte.x7e; Byte.x7f] default_tunables
       (Demo.env (fun _ => [Demo.i32_const 0])) None Demo.lst ""
       [ConstExpr (mkConst Type_.I32 0)]
       ltac:(discriminate) eq_refl) as (H1 & _ & _ & _ & H5).
  split; [exact H1 | exact H5].
Defined.

(** C10: [BinaryToString] is not injective: the byte 0x00 and the three
    bytes 0x5C 0x30 0x30 have the same text; 0x22 and 0x5C are written as
    they are, without an escape. *)
Theorem C10_BinaryToString_not_injective :
  [Byte.x00] <> [Byte.x5c; Byte.x30; Byte.x30]
  /\ BinaryToString [Byte.x00] = BinaryToString [Byte.x5c; Byte.x30; Byte.x30]
  /\ BinaryToString [Byte.x00] = Some (quoted "\00")
  /\ BinaryToString [Byte.x22] = Some (quoted (Str.of_char Str.dquote))
  /\ BinaryToString [Byte.x5c] = Some (quoted (Str.of_char Str.backslash))
  /\ ~ (forall a b : list Byte.byte,
          BinaryToString a = BinaryToString b -> a = b).
Proof.
  repeat split; try reflexivity; try discriminate.
  intros Hinj.
  specialize (Hinj [Byte.x00] [Byte.x5c; Byte.x30; Byte.x30] eq_refl).
  discriminate.
Qed.

(** ** [to_string]: trimming of trailing zeros *)

(** The loop pops a character only when it is a ['0']. *)
Lemma trim_cond_snoc (s : string) (c : ascii) :
  trim_cond (s ++ String c "") = true -> c = "0"%char.
Proof.
  unfold trim_cond. rewrite StrFacts.back_snoc.
  rewrite !andb_true_iff. intros [[_ H] _].
  now apply Ascii.eqb_eq in H.
Qed.

Lemma trim_cond_nil : trim_cond "" = false.
Proof. reflexivity. Qed.

(** With enough fuel the loop ends because its condition is false, and what
    it removed is a run of ['0']. *)
Lemma trim_loop_exit (fuel : nat) (s : string) :
  String.length s <= fuel ->
  trim_cond (trim_loop fuel s) = false
  /\ exists k, s = (trim_loop fuel s ++ Str.make k "0")%string.
Proof.
  revert s. induction fuel as [|fuel IH]; intros s Hlen.
  - destruct s; [|simpl in Hlen; lia].
    split; [reflexivity | now exists 0].
  - simpl. destruct (trim_cond s) eqn:Hc.
    + destruct (StrFacts.snoc_cases s) as [-> | (s' & c & ->)];
        [discriminate|].
      pose proof (trim_cond_snoc _ _ Hc) as ->.
      rewrite StrFacts.pop_back_snoc.
      rewrite StrFacts.length_append in Hlen. simpl in Hlen.
      destruct (IH s' ltac:(lia)) as (Hexit & k & Hk).
      split; [exact Hexit|].
      exists (S k). rewrite Hk at 1.
      rewrite StrFacts.append_assoc. f_equal. apply StrFacts.make_snoc.
    + split; [exact Hc | exists 0; now rewrite StrFacts.append_nil_r].
Qed.

(** The character that follows a ['.'] is never removed. *)
Lemma trim_loop_keeps_fraction (fuel : nat) (pre : string) (c : ascii)
    (frac : string) :
  exists frac' k,
    trim_loop fuel (pre ++ String "." (String c frac))
      = (pre ++ String "." (String c frac'))%string
    /\ frac = (frac' ++ Str.make k "0")%string.
Proof.
  revert frac. induction fuel as [|fuel IH]; intros frac.
  - exists frac, 0. now rewrite StrFacts.append_nil_r.
  - simpl. destruct (trim_cond _) eqn:Hc.
    + destruct (StrFacts.snoc_cases frac) as [-> | (f' & y & ->)].
      * (* the last two characters are [.] and [c] *)
        exfalso. revert Hc. unfold trim_cond.
        rewrite (StrFacts.get_before_last pre "." c). simpl.
        rewrite andb_false_r. discriminate.
      * replace (pre ++ String "." (String c (f' ++ String y "")))%string
          with ((pre ++ String "." (String c f')) ++ String y "")%string in *
          by (now rewrite StrFacts.append_assoc).
        pose proof (trim_cond_snoc _ _ Hc) as ->.
        rewrite StrFacts.pop_back_snoc.
        destruct (IH f') as (frac' & k & Heq & Hk).
        exists frac', (S k). split; [exact Heq|].
        rewrite Hk at 1. rewrite StrFacts.append_assoc. f_equal.
        apply StrFacts.make_snoc.
    + exists frac, 0. now rewrite StrFacts.append_nil_r.
Qed.

Lemma all_digits_app (a b : string) :
  all_digits (a ++ b) = all_digits a && all_digits b.
Proof.
  induction a as [|c a IH]; simpl; [reflexivity|].
  now rewrite IH, andb_assoc.
Qed.

(** What [digits_then_dot] accepts. *)
Lemma digits_then_dot_some (s int frac : string) :
  digits_then_dot s = Some (int, frac) ->
  s = (int ++ String "." frac)%string /\ int <> "" /\ all_digits int = true.
Proof.
  revert int frac. induction s as [|c s IH]; intros int frac; [discriminate|].
  simpl. destruct (is_digit c) eqn:Hd; [|discriminate].
  assert (Hrec :
    match digits_then_dot s with
    | Some (int0, frac0) => Some (String c int0, frac0)
    | None => None
    end = Some (int, frac) ->
    String c s = (int ++ String "." frac)%string /\ int <> ""
    /\ all_digits int = true).
  { destruct (digits_then_dot s) as [[i f]|]; [|discriminate].
    intros [= <- <-]. destruct (IH i f eq_refl) as (-> & _ & Hi).
    simpl. rewrite Hd, Hi. repeat split; discriminate. }
  destruct s as [|d s']; [exact Hrec|].
  destruct (Ascii.eqb d ".") eqn:Hdot.
  - apply Ascii.eqb_eq in Hdot. subst d.
    intros [= <- <-]. simpl. rewrite Hd. repeat split; discriminate.
  - assert (d <> "."%char) by (now apply Ascii.eqb_neq).
    destruct d as [[] [] [] [] [] [] [] []]; try exact Hrec; congruence.
Qed.

(** A string in fixed notation, taken apart. *)
Lemma fixed_notation_parts (s : string) :
  fixed_notation s = true ->
  exists int c frac,
    s = (sign_of s ++ int ++ String "." (String c frac))%string
    /\ int <> "" /\ all_digits int = true
    /\ is_digit c = true /\ all_digits frac = true.
Proof.
  unfold fixed_notation. intros H.
  set (body := match s with String "-" r => r | _ => s end) in *.
  assert (Hs : s = (sign_of s ++ body)%string).
  { subst body. unfold sign_of. destruct s as [|c r]; [reflexivity|].
    destruct c as [[] [] [] [] [] [] [] []]; reflexivity. }
  destruct (digits_then_dot body) as [[int frac]|] eqn:Hd; [|discriminate].
  apply andb_true_iff in H. destruct H as [Hfrac Hlen].
  apply Nat.eqb_eq in Hlen.
  destruct (digits_then_dot_some _ _ _ Hd) as (Hbody & Hint & Hdig).
  destruct frac as [|c frac]; [discriminate|].
  simpl in Hfrac. apply andb_true_iff in Hfrac. destruct Hfrac as [Hc Hf].
  exists int, c, frac. rewrite Hs at 1. rewrite Hbody. auto.
Qed.

(** C7: for the text [std::to_string] gives for a finite number, the
    trimmed literal keeps at least one digit after the ['.'] and does not end
    with ['0'] unless the character before it is ['.']; only trailing zeros
    were removed. *)
Theorem C7_to_string_trims_zeros (s : string)
    (Hfixed : fixed_notation s = true) :
  (exists int c frac,
     to_string s = (sign_of s ++ int ++ String "." (String c frac))%string
     /\ int <> "" /\ all_digits int = true
     /\ is_digit c = true /\ all_digits frac = true)
  /\ (Str.back (to_string s) = Some "0"%char ->
      String.get (String.length (to_string s) - 2) (to_string s)
        = Some "."%char)
  /\ (exists k, s = (to_string s ++ Str.make k "0")%string).
Proof.
  destruct (fixed_notation_parts s Hfixed)
    as (int & c & frac & Hs & Hint & Hdig & Hc & Hfrac).
  destruct (trim_loop_exit (String.length s) s (le_n _)) as (Hexit & Hzeros).
  fold (to_string s) in Hexit, Hzeros.
  assert (Hkeep : exists frac' k,
             to_string s
               = (sign_of s ++ int ++ String "." (String c frac'))%string
             /\ frac = (frac' ++ Str.make k "0")%string).
  { unfold to_string. generalize (String.length s) as fuel. intros fuel.
    remember (sign_of s) as sg eqn:Hsg. clear Hexit Hzeros. rewrite Hs.
    rewrite <- StrFacts.append_assoc.
    destruct (trim_loop_keeps_fraction fuel (sg ++ int) c frac)
      as (frac' & k & Heq & Hk).
    exists frac', k. now rewrite Heq, StrFacts.append_assoc. }
  destruct Hkeep as (frac' & k & Hto & Hk).
  split.
  { exists int, c, frac'. repeat split; try assumption.
    rewrite Hk, all_digits_app in Hfrac.
    now apply andb_true_iff in Hfrac. }
  split; [|exact Hzeros].
  intros Hback. revert Hexit. unfold trim_cond. rewrite Hback. simpl.
  assert (Hlen : 2 < String.length (to_string s)).
  { rewrite Hto, !StrFacts.length_append. simpl.
    destruct int; [congruence | simpl; lia]. }
  apply Nat.ltb_lt in Hlen. rewrite Hlen. simpl.
  destruct (String.get _ _) as [d|] eqn:Hget.
  - destruct (Ascii.eqb d ".") eqn:Hd; [|discriminate].
    apply Ascii.eqb_eq in Hd. now subst d.
  - exfalso.
    destruct (StrFacts.snoc_cases (String c frac')) as [E | (f1 & y & E)];
      [discriminate|].
    rewrite Hto, E in Hget.
    destruct (StrFacts.snoc_cases (sign_of s ++ int ++ String "." f1))
      as [E1 | (p & x & E1)].
    + apply StrFacts.append_eq_nil in E1. destruct E1 as [_ E1].
      apply StrFacts.append_eq_nil in E1. destruct E1; discriminate.
    + assert (E2 : (sign_of s ++ int ++ String "." (f1 ++ String y ""))%string
                   = (p ++ String x (String y ""))%string).
      { change (String x (String y "")) with (String x "" ++ String y "")%string.
        rewrite <- (StrFacts.append_assoc p), <- E1.
        now rewrite !StrFacts.append_assoc. }
      rewrite E2, StrFacts.get_before_last in Hget. discriminate.
Qed.

Lemma C7_to_string_trims_zeros_witness :
  fixed_notation "-12.500000" = true
  /\ (exists k,
        "-12.500000" = (to_string "-12.500000" ++ Str.make k "0")%string).
Proof.
  split; [reflexivity|].
  exact (proj2 (proj2 (C7_to_string_trims_zeros "-12.500000" eq_refl))).
Defined.

(** ** [LoadStore] *)

Section LoadStoreFrame.

Variable tn : Tunables.
Variable env : Collaborators.
Variable lst : LoadStoreTracking.

(** The suffix is a field access, or the offset and the type with an
    optional alignment. *)
Lemma LoadStore_suffix_shape (addr_exp : Node) (offset : Z) (opc : Opcode)
    (align : Z) (op_type : Type_.t) :
  let suffix := LoadStore_suffix env lst addr_exp offset opc align op_type in
  let access := GenAccess lst offset addr_exp in
  let indexed :=
    ("[" ++ Str.of_Z offset ++ "]:"
       ++ GetDecompTypeName env (GetMemoryType env op_type opc))%string in
  (access <> "" /\ suffix = ("." ++ access)%string)
  \/ (access = "" /\ IsNaturallyAligned opc align = true /\ suffix = indexed)
  \/ (access = "" /\ IsNaturallyAligned opc align = false
      /\ suffix = (indexed ++ "@" ++ Str.of_Z align)%string).
Proof.
  cbv zeta. unfold LoadStore_suffix.
  destruct (Str.empty (GenAccess lst offset addr_exp)) eqn:He; simpl negb; cbv iota.
  - apply StrFacts.empty_true in He. right.
    destruct (IsNaturallyAligned opc align); simpl negb; cbv iota.
    + left. repeat split; try assumption.
      simpl Str.cat. now rewrite !StrFacts.append_nil_r.
    + right. repeat split; try assumption.
      simpl Str.cat. rewrite !StrFacts.append_nil_r.
      now rewrite !StrFacts.append_assoc.
  - apply StrFacts.empty_false in He. left. now split.
Qed.

(** C9: on an address that needs no bracketing, [LoadStore] only appends
    its suffix to the last line; the other lines, their number and the flag
    stay as they were. *)
Theorem C9_LoadStore_appends_to_last_line
    (val : Value) (addr_exp : Node) (offset : Z) (opc : Opcode) (align : Z)
    (op_type : Type_.t) (init : list string) (last : string)
    (Hflag : needs_bracketing val = false)
    (Hlines : v val = init ++ [last]) :
  let suffix := LoadStore_suffix env lst addr_exp offset opc align op_type in
  let access := GenAccess lst offset addr_exp in
  let indexed :=
    ("[" ++ Str.of_Z offset ++ "]:"
       ++ GetDecompTypeName env (GetMemoryType env op_type opc))%string in
  LoadStore tn env lst val addr_exp offset opc align op_type
    = Some (mkValue (init ++ [(last ++ suffix)%string]) false)
  /\ length (init ++ [(last ++ suffix)%string]) = length (v val)
  /\ ((access <> "" /\ suffix = ("." ++ access)%string)
      \/ (access = "" /\ IsNaturallyAligned opc align = true
          /\ suffix = indexed)
      \/ (access = "" /\ IsNaturallyAligned opc align = false
          /\ suffix = (indexed ++ "@" ++ Str.of_Z align)%string)).
Proof.
  cbv zeta. split; [|split].
  - unfold LoadStore, BracketIfNeeded. rewrite Hflag. simpl.
    rewrite Hlines, VecFacts.update_back_snoc. simpl. now rewrite Hflag.
  - rewrite Hlines, !length_app. reflexivity.
  - apply LoadStore_suffix_shape.
Qed.

End LoadStoreFrame.

Lemma C9_LoadStore_appends_to_last_line_witness :
  LoadStore default_tunables (Demo.env (fun _ => [])) Demo.lst
    (mkValue ["a +"; "  b"] false) (Demo.local_get "p") 8
    (Demo.opcode "i32.load") 4 Type_.I32
  = Some (mkValue ["a +"; "  b[8]:int"] false).
Proof.
  exact (proj1 (C9_LoadStore_appends_to_last_line default_tunables
                  (Demo.env (fun _ => [])) Demo.lst
                  (mkValue ["a +"; "  b"] false) (Demo.local_get "p") 8
                  (Demo.opcode "i32.load") 4 Type_.I32 ["a +"] "  b"
                  eq_refl eq_refl)).
Defined.

(** ** Inversion of the error monad *)

Lemma bind_some {A B : Type} (c : option A) (k : A -> option B) (b : B) :
  Partial.bind c k = Some b -> exists a, c = Some a /\ k a = Some b.
Proof. destruct c as [a|]; simpl; [eauto | discriminate]. Qed.

Lemma guard_some (b : bool) (x : unit) : Partial.guard b = Some x -> b = true.
Proof. destruct b; simpl; [reflexivity | discriminate]. Qed.

Ltac bind_inv H :=
  let a := fresh "a" in
  let Ha := fresh "Ha" in
  apply bind_some in H; destruct H as (a & Ha & H).

Ltac binds_inv H :=
  repeat (first
    [ progress (cbv beta in H)
    | match type of H with
      | Partial.bind _ _ = Some _ => bind_inv H
      end ]).

Lemma mapM_length {A B : Type} (f : A -> option B) (l : list A) (r : list B) :
  Partial.mapM f l = Some r -> length r = length l.
Proof.
  revert r. induction l as [|a l IH]; intros r; simpl.
  - now intros [= <-].
  - destruct (f a); [|discriminate].
    destruct (Partial.mapM f l); [|discriminate].
    intros [= <-]. simpl. now rewrite (IH l0).
Qed.

(** ** [WrapBinary] and the nested addition *)

Lemma WrapBinary_needs_bracketing (tn : Tunables) (args : list Value)
    (infix : string) (indent_right : bool) (val : Value) :
  WrapBinary tn args infix indent_right = Some val ->
  needs_bracketing val = true.
Proof.
  unfold WrapBinary. intros H. binds_inv H.
  destruct (_ && _)%bool; binds_inv H; now inversion H.
Qed.

(** C3: [1 + (2 + 3)] with the opcode [i32.add] renders as the line
    [1 i32_add (2 i32_add 3)]: the inner addition comes out with
    [needs_bracketing = true] and [BracketIfNeeded] parenthesises it, the
    constants come out with the flag cleared and stay as they are. *)
Theorem C3_nested_add_is_bracketed
    (tn : Tunables) (env : Collaborators) (cur_func : option Func)
    (lst : LoadStoreTracking) (opc : Opcode)
    (Hdecomp : GetDecomp opc = "i32.add")
    (Hwidth : 23 < target_exp_width tn) :
  DecompileExpr tn env cur_func lst (Demo.nested_add opc)
    = Some (mkValue ["1 i32_add (2 i32_add 3)"] true)
  /\ DecompileExpr tn env cur_func lst
       (Demo.binary opc (Demo.i32_const 2) (Demo.i32_const 3))
     = Some (mkValue ["2 i32_add 3"] true)
  /\ BracketIfNeeded tn (mkValue ["2 i32_add 3"] true)
     = Some (mkValue ["(2 i32_add 3)"] false)
  /\ DecompileExpr tn env cur_func lst (Demo.i32_const 1)
     = Some (mkValue ["1"] false)
  /\ BracketIfNeeded tn (mkValue ["1"] false) = Some (mkValue ["1"] false)
  /\ (forall args infix indent_right val,
        WrapBinary tn args infix indent_right = Some val ->
        needs_bracketing val = true).
Proof.
  destruct tn as [ia T]. simpl in Hwidth.
  destruct (Nat.le_exists_sub 24 T Hwidth) as (k & -> & _).
  rewrite (Nat.add_comm k 24).
  assert (Htoken : OpcodeToToken opc = "i32_add")
    by (unfold OpcodeToToken; now rewrite Hdecomp).
  repeat split.
  - unfold Demo.nested_add, Demo.binary, Demo.i32_const. simpl.
    unfold DecompileNode, DecompileExprType. simpl. rewrite Htoken. reflexivity.
  - unfold Demo.binary, Demo.i32_const. simpl.
    unfold DecompileNode, DecompileExprType. simpl. rewrite Htoken. reflexivity.
  - intros args infix indent_right val.
    apply WrapBinary_needs_bracketing.
Qed.

Lemma C3_nested_add_is_bracketed_witness :
  DecompileExpr default_tunables (Demo.env (fun _ => [])) None Demo.lst
    (Demo.nested_add (Demo.opcode "i32.add"))
  = Some (mkValue ["1 i32_add (2 i32_add 3)"] true).
Proof.
  exact (proj1 (C3_nested_add_is_bracketed default_tunables
                  (Demo.env (fun _ => [])) None Demo.lst
                  (Demo.opcode "i32.add") eq_refl
                  ltac:(vm_compute; lia))).
Defined.

(** ** [WrapNAry] *)

Section NAryFacts.

Variable tn : Tunables.

Lemma nary_measure_fold (args : list Value) (t m : nat) (b : bool) :
  fold_left
    (fun (acc : nat * nat * bool) (child : Value) =>
       let '(total_width, max_width, multiline) := acc in
       let w := width child in
       (total_width + w, Nat.max max_width w,
        multiline || (1 <? length (v child))))
    args (t, m, b)
  = (t + sum_of_widths args, Nat.max m (max_of_widths args),
     b || negb (no_arg_multiline args)).
Proof.
  revert t m b. induction args as [|a args IH]; intros t m b; simpl.
  - now rewrite Nat.add_0_r, Nat.max_0_r, orb_false_r.
  - rewrite IH. f_equal; [f_equal; lia|].
    rewrite Nat.ltb_antisym, negb_andb. now rewrite orb_assoc.
Qed.

Lemma nary_measure_eq (args : list Value) :
  nary_measure args
  = (sum_of_widths args, max_of_widths args, negb (no_arg_multiline args)).
Proof. unfold nary_measure. now rewrite nary_measure_fold. Qed.

Lemma concat_cons (sep x : string) (xs : list string) :
  String.concat sep (x :: xs)
  = (x ++ Str.cat (map (fun y => sep ++ y) xs))%string.
Proof.
  revert x. induction xs as [|y xs IH]; intros x.
  - simpl. now rewrite StrFacts.append_nil_r.
  - change (String.concat sep (x :: y :: xs))
      with (x ++ sep ++ String.concat sep (y :: xs))%string.
    rewrite IH. simpl. now rewrite StrFacts.append_assoc.
Qed.

Lemma first_line_nth (a : Value) :
  v a <> [] -> nth_error (v a) 0 = Some (first_line a).
Proof. unfold first_line. destruct (v a); [congruence | reflexivity]. Qed.

Lemma nary_single_loop_rest (args : list Value) (s : string) :
  Forall (fun a => v a <> []) args ->
  nary_single_loop false s args
  = Some (s ++ Str.cat (map (fun y => ", " ++ y) (map first_line args)))%string.
Proof.
  intros Hargs. revert s.
  induction Hargs as [|a args Ha _ IH]; intros s;
    cbn [nary_single_loop map Str.cat fold_right].
  - now rewrite StrFacts.append_nil_r.
  - rewrite (first_line_nth a Ha). cbn [Partial.bind]. rewrite IH.
    now rewrite !StrFacts.append_assoc.
Qed.

Lemma nary_single_loop_all (args : list Value) (s : string) :
  Forall (fun a => v a <> []) args ->
  nary_single_loop true s args
  = Some (s ++ String.concat ", " (map first_line args))%string.
Proof.
  intros Hargs. destruct Hargs as [|a args Ha Hrest];
    cbn [nary_single_loop map].
  - simpl. now rewrite StrFacts.append_nil_r.
  - rewrite (first_line_nth a Ha). cbn [Partial.bind].
    rewrite (nary_single_loop_rest args _ Hrest).
    rewrite concat_cons. now rewrite StrFacts.append_assoc.
Qed.

Lemma IndentValue_length (val : Value) (amount : nat) (first : string) :
  length (v (IndentValue val amount first)) = length (v val).
Proof.
  unfold IndentValue. destruct (v val) eqn:E; [now rewrite E|].
  simpl. now rewrite length_map.
Qed.

Lemma IndentValue_nil (val : Value) (amount : nat) (first : string) :
  v (IndentValue val amount first) = [] <-> v val = [].
Proof.
  unfold IndentValue. destruct (v val) eqn:E; [now rewrite E|].
  simpl. split; discriminate.
Qed.

Lemma update_back_length {A : Type} (f : A -> A) (l w : list A) :
  Vec.update_back f l = Some w -> length w = length l.
Proof.
  intros H. apply VecFacts.update_back_some in H.
  destruct H as (init & a & -> & ->). now rewrite !length_app.
Qed.

Lemma update_back_defined {A : Type} (f : A -> A) (l : list A) :
  l <> [] -> exists w, Vec.update_back f l = Some w.
Proof.
  intros Hl. destruct (Vec.update_back f l) eqn:E; [eauto|].
  now apply VecFacts.update_back_none in E.
Qed.

(** The multi-line loop moves every line of every argument. *)
Lemma nary_multi_loop_lines (size : nat) (ident : bool) (prefix : string)
    (args : list Value) (i : nat) (ml : list string) :
  Forall (fun a => v a <> []) args ->
  exists lines,
    nary_multi_loop tn size ident prefix i ml args = Some lines
    /\ length lines = length ml + total_lines args.
Proof.
  intros Hargs. revert i ml.
  induction Hargs as [|a args Ha _ IH]; intros i ml; simpl.
  - exists ml. split; [reflexivity | lia].
  - set (child1 := IndentValue a _ _).
    assert (Hc : v child1 <> []) by (subst child1; now rewrite IndentValue_nil).
    assert (Hlen : length (v child1) = length (v a))
      by (subst child1; apply IndentValue_length).
    assert (Hlines : exists lines,
               (if i <? size - 1
                then Vec.update_back (fun s => (s ++ ",")%string) (v child1)
                else Some (v child1)) = Some lines
               /\ length lines = length (v a)).
    { destruct (i <? size - 1).
      - destruct (update_back_defined (fun s => (s ++ ",")%string) _ Hc)
          as (w & Hw).
        exists w. split; [exact Hw|].
        now rewrite (update_back_length _ _ _ Hw).
      - now exists (v child1). }
    destruct Hlines as (lines & -> & Hl). simpl.
    destruct (IH (S i) (ml ++ lines)) as (r & Hr & Hrlen).
    exists r. split; [exact Hr|].
    rewrite Hrlen, length_app. lia.
Qed.

Lemma total_lines_ge (args : list Value) :
  Forall (fun a => v a <> []) args -> length args <= total_lines args.
Proof.
  induction 1 as [|a args Ha _ IH]; simpl; [lia|].
  destruct (v a); [congruence | simpl; lia].
Qed.

Lemma single_line_cond_branch (args : list Value) (prefix postfix : string) :
  (negb (negb (no_arg_multiline args))
   && ((sum_of_widths args + String.length prefix + String.length postfix
          <? target_exp_width tn)
       || (length args =? 0)))%bool
  = single_line_cond tn args prefix postfix.
Proof.
  unfold single_line_cond. rewrite negb_involutive.
  replace (sum_of_widths args + String.length prefix + String.length postfix)
    with (String.length prefix + sum_of_widths args + String.length postfix)
    by lia.
  destruct args as [|a args].
  - simpl. now rewrite orb_true_r.
  - simpl length. simpl (_ =? _). now rewrite orb_false_r.
Qed.

(** The single-line branch. *)
Lemma WrapNAry_single_form (args : list Value) (prefix postfix : string) :
  Forall (fun a => v a <> []) args ->
  single_line_cond tn args prefix postfix = true ->
  WrapNAry tn args prefix postfix
  = Some (mkValue [single_line_form args prefix postfix] false).
Proof.
  intros Hargs Hc. unfold WrapNAry. rewrite nary_measure_eq. cbv beta iota.
  rewrite single_line_cond_branch, Hc.
  rewrite (nary_single_loop_all args prefix Hargs). simpl Partial.bind.
  unfold single_line_form. now rewrite StrFacts.append_assoc.
Qed.

(** The multi-line branch: every line of every argument, after the prefix
    line when the prefix is not put on the first argument's line. *)
Lemma WrapNAry_multi_form (args : list Value) (prefix postfix : string) :
  Forall (fun a => v a <> []) args ->
  single_line_cond tn args prefix postfix = false ->
  exists lines,
    WrapNAry tn args prefix postfix = Some (mkValue lines false)
    /\ length lines
       = total_lines args
         + (if max_of_widths args + String.length prefix
                 <? target_exp_width tn
            then 0 else 1).
Proof.
  intros Hargs Hc. unfold WrapNAry. rewrite nary_measure_eq. cbv beta iota.
  rewrite single_line_cond_branch, Hc.
  assert (Hne : args <> []) by (intros ->; discriminate).
  destruct (nary_multi_loop_lines (length args)
              (max_of_widths args + String.length prefix
                 <? target_exp_width tn) prefix args 0 [] Hargs)
    as (ml & Hml & Hlen).
  rewrite Hml. simpl Partial.bind. simpl length in Hlen.
  pose proof (total_lines_ge args Hargs) as Hge.
  assert (Hargs_pos : 0 < length args)
    by (destruct args; simpl; [congruence | lia]).
  destruct (max_of_widths args + String.length prefix <? target_exp_width tn);
    simpl negb; cbv iota.
  - destruct (update_back_defined (fun s => (s ++ postfix)%string) ml)
      as (w & Hw); [destruct ml; simpl in *; [lia | discriminate]|].
    rewrite Hw. exists w. split; [reflexivity|].
    rewrite (update_back_length _ _ _ Hw). lia.
  - destruct (update_back_defined (fun s => (s ++ postfix)%string)
                (prefix :: ml)) as (w & Hw); [discriminate|].
    rewrite Hw. exists w. split; [reflexivity|].
    rewrite (update_back_length _ _ _ Hw). simpl. lia.
Qed.

(** [WrapNAry] is defined on arguments that all have a line. *)
Lemma WrapNAry_defined (args : list Value) (prefix postfix : string) :
  Forall (fun a => v a <> []) args ->
  exists val, WrapNAry tn args prefix postfix = Some val.
Proof.
  intros Hargs.
  destruct (single_line_cond tn args prefix postfix) eqn:Hc.
  - rewrite (WrapNAry_single_form args prefix postfix Hargs Hc). eauto.
  - destruct (WrapNAry_multi_form args prefix postfix Hargs Hc)
      as (lines & -> & _). eauto.
Qed.

End NAryFacts.

(** With one argument of one line the multi-line branch writes the line of
    the single-line branch when the prefix fits on the argument's line. *)
Lemma WrapNAry_lone_form (tn : Tunables) (args : list Value)
    (prefix postfix : string) :
  lone_argument_fits tn args prefix = true ->
  WrapNAry tn args prefix postfix
  = Some (mkValue [single_line_form args prefix postfix] false).
Proof.
  intros Hfit.
  destruct (single_line_cond tn args prefix postfix) eqn:Hc.
  - apply WrapNAry_single_form; [|exact Hc].
    destruct args as [|a [|b rest]]; try discriminate Hfit.
    simpl in Hfit. apply andb_true_iff in Hfit. destruct Hfit as [Hlen _].
    constructor; [|constructor]. intros E. now rewrite E in Hlen.
  - destruct args as [|a [|b rest]]; try discriminate Hfit.
    simpl in Hfit. apply andb_true_iff in Hfit. destruct Hfit as [Hlen Hw].
    unfold WrapNAry. rewrite nary_measure_eq. cbv beta iota.
    rewrite single_line_cond_branch, Hc.
    assert (Hmax : max_of_widths [a] = width a) by (simpl; lia).
    rewrite Hmax, Hw.
    destruct (v a) as [|l [|? ?]] eqn:Ha; try discriminate Hlen.
    unfold single_line_form, first_line. simpl map. rewrite Ha.
    cbn [nary_multi_loop length Nat.sub Nat.ltb Nat.leb Nat.eqb andb
         Partial.bind app negb].
    unfold IndentValue. rewrite Ha. cbn [v map Vec.update_back].
    cbn [Partial.bind String.concat].
    assert (Hp : (if Str.empty prefix then Indent (String.length prefix)
                  else prefix) = prefix) by (now destruct prefix).
    now rewrite Hp, StrFacts.append_assoc.
Qed.

Lemma total_lines_one (args : list Value) :
  Forall (fun a => v a <> []) args -> args <> [] -> total_lines args = 1 ->
  exists a, args = [a] /\ length (v a) = 1.
Proof.
  intros Hargs Hne Ht. pose proof (total_lines_ge args Hargs) as Hge.
  destruct args as [|a [|b rest]]; [congruence | |].
  - exists a. split; [reflexivity|]. unfold total_lines in Ht.
    simpl in Ht. lia.
  - exfalso. simpl length in Hge. lia.
Qed.

Lemma WrapNAry_one_line_iff (tn : Tunables) (args : list Value)
    (prefix postfix : string) :
  Forall (fun a => v a <> []) args ->
  (one_line_cond tn args prefix postfix = true
   <-> exists l, WrapNAry tn args prefix postfix = Some (mkValue [l] false)).
Proof.
  intros Hargs. unfold one_line_cond. split.
  - intros H. apply orb_true_iff in H. destruct H as [Hc | Hfit].
    + eexists. now apply WrapNAry_single_form.
    + eexists. now apply WrapNAry_lone_form.
  - intros (l & Hl).
    destruct (single_line_cond tn args prefix postfix) eqn:Hc; [reflexivity|].
    destruct (WrapNAry_multi_form tn args prefix postfix Hargs Hc)
      as (lines & Hlines & Hcount).
    rewrite Hl in Hlines. injection Hlines as <-. simpl in Hcount.
    assert (Hne : args <> []) by (intros ->; discriminate Hc).
    pose proof (total_lines_ge args Hargs) as Hge.
    assert (0 < length args) by (destruct args; simpl; [congruence | lia]).
    destruct (max_of_widths args + String.length prefix <? target_exp_width tn)
      eqn:Hident; [|lia].
    destruct (total_lines_one args Hargs Hne ltac:(lia)) as (a & -> & Hlen).
    simpl. rewrite Hlen. simpl in Hident.
    rewrite Nat.max_0_r in Hident. now rewrite Hident.
Qed.

(** C1, as amended: for arguments that each have a line, the result of
    [WrapNAry] is the one line [prefix ++ a0 ++ ", " ++ a1 ++ ... ++ postfix]
    exactly when the argument list is empty, or no argument is multi-line
    and [prefix.len + sum of the widths + postfix.len < target_exp_width],
    the separators not being counted (the test of the single-line branch),
    or the only argument has one line and [prefix.len + its width <
    target_exp_width] (the multi-line branch then writes the same line).
    In every other case the result has two lines or more: every line of
    every argument, after the prefix line if the prefix is not put on the
    first argument's line. *)
Theorem C1_WrapNAry_single_line
    (tn : Tunables) (args : list Value) (prefix postfix : string)
    (Hargs : Forall (fun a => v a <> []) args) :
  (single_line_cond tn args prefix postfix = true ->
   WrapNAry tn args prefix postfix
   = Some (mkValue [single_line_form args prefix postfix] false))
  /\ (single_line_cond tn args prefix postfix = false ->
      exists lines,
        WrapNAry tn args prefix postfix = Some (mkValue lines false)
        /\ length lines
           = total_lines args
             + (if max_of_widths args + String.length prefix
                     <? target_exp_width tn
                then 0 else 1))
  /\ (one_line_cond tn args prefix postfix = true
      <-> WrapNAry tn args prefix postfix
          = Some (mkValue [single_line_form args prefix postfix] false))
  /\ (one_line_cond tn args prefix postfix = true
      <-> exists l, WrapNAry tn args prefix postfix = Some (mkValue [l] false))
  /\ (one_line_cond tn args prefix postfix = false ->
      exists lines,
        WrapNAry tn args prefix postfix = Some (mkValue lines false)
        /\ 2 <= length lines).
Proof.
  split; [apply WrapNAry_single_form, Hargs|].
  split; [apply WrapNAry_multi_form, Hargs|].
  pose proof (WrapNAry_one_line_iff tn args prefix postfix Hargs) as Hiff.
  assert (Hform : one_line_cond tn args prefix postfix = true ->
                  WrapNAry tn args prefix postfix
                  = Some (mkValue [single_line_form args prefix postfix] false)).
  { unfold one_line_cond. intros H. apply orb_true_iff in H.
    destruct H as [Hc | Hfit].
    - now apply WrapNAry_single_form.
    - now apply WrapNAry_lone_form. }
  split; [|split; [exact Hiff|]].
  - split; [exact Hform|]. intros H. apply Hiff. eauto.
  - intros Hone.
    assert (Hc : single_line_cond tn args prefix postfix = false).
    { unfold one_line_cond in Hone. now apply orb_false_iff in Hone. }
    destruct (WrapNAry_multi_form tn args prefix postfix Hargs Hc)
      as (lines & Hlines & Hcount).
    exists lines. split; [exact Hlines|].
    destruct lines as [|l [|l' rest]]; [| |simpl; lia].
    + exfalso. assert (args <> []) by (intros ->; discriminate Hc).
      pose proof (total_lines_ge args Hargs).
      destruct args; [congruence | simpl in *; lia].
    + exfalso. rewrite (proj2 Hiff) in Hone; [discriminate | eauto].
Qed.

Lemma C1_WrapNAry_single_line_witness :
  WrapNAry default_tunables [Demo.line "x"; Demo.line "y"] "f(" ")"
  = Some (mkValue ["f(x, y)"] false)
  /\ single_line_cond default_tunables [Demo.line (Str.make 67 "a")] "f(" ")"
     = false
  /\ WrapNAry default_tunables [Demo.line (Str.make 67 "a")] "f(" ")"
     = Some (mkValue [("f(" ++ Str.make 67 "a" ++ ")")%string] false).
Proof.
  split; [|split; [reflexivity|]].
  - refine (proj1 (C1_WrapNAry_single_line default_tunables
                     [Demo.line "x"; Demo.line "y"] "f(" ")" _) eq_refl).
    repeat constructor; discriminate.
  - refine (proj1 (proj1 (proj2 (proj2
              (C1_WrapNAry_single_line default_tunables
                 [Demo.line (Str.make 67 "a")] "f(" ")" _)))) eq_refl).
    repeat constructor; discriminate.
Defined.

(** C1 with the separators counted fails: for two arguments of width 34 with an empty
    prefix and postfix and the width 70, the widths with the separator add up
    to 70, which is not below 70, and [WrapNAry] still produces the one line,
    which is 70 characters long. *)
Lemma C1_separators_not_counted :
  Forall (fun a => length (v a) = 1) Demo.two_wide_args
  /\ single_line_cond_with_separators default_tunables Demo.two_wide_args "" ""
     = false
  /\ WrapNAry default_tunables Demo.two_wide_args "" ""
     = Some (mkValue [single_line_form Demo.two_wide_args "" ""] false)
  /\ String.length (single_line_form Demo.two_wide_args "" "") = 70.
Proof.
  split; [repeat constructor|].
  repeat split.
Qed.

(** ** The renderer: unfolding and induction over nodes *)

Section RendererFacts.

Variable tn : Tunables.
Variable env : Collaborators.
Variable cur_func : option Func.
Variable lst : LoadStoreTracking.

Local Notation "'render'" := (DecompileExpr tn env cur_func lst).

Lemma DecompileExpr_unfold (n : Node) :
  render n
  = (args <- render_children tn env cur_func lst (children n) ;;
     DecompileNode tn env cur_func lst n args).
Proof.
  destruct n as [nt et x cs w]. simpl. unfold render_children.
  match goal with
  | |- Partial.bind ?a _ = Partial.bind ?b _ => replace a with b; [reflexivity|]
  end.
  induction cs as [|c cs IH]; simpl; [reflexivity|].
  destruct (render c); [|reflexivity]. now rewrite IH.
Qed.

Lemma render_children_cons (c : Node) (cs : list Node) (args : list Value) :
  render_children tn env cur_func lst (c :: cs) = Some args ->
  exists a rest,
    args = a :: rest /\ render c = Some a
    /\ render_children tn env cur_func lst cs = Some rest.
Proof.
  unfold render_children. simpl.
  destruct (render c) as [a|]; [|discriminate].
  destruct (Partial.mapM _ cs) as [rest|]; [|discriminate].
  intros [= <-]. now exists a, rest.
Qed.

Lemma render_children_nil (args : list Value) :
  render_children tn env cur_func lst [] = Some args -> args = [].
Proof. unfold render_children. simpl. now intros [= <-]. Qed.

(** *** Which fragments have no line *)

Lemma WrapChild_not_nil (child : Value) (prefix postfix : string) (val : Value) :
  WrapChild tn child prefix postfix = Some val -> v val <> [].
Proof.
  unfold WrapChild. intros H.
  destruct (_ || _)%bool.
  - destruct (length (v child) =? 1).
    + destruct (v child); [discriminate|]. now inversion H.
    + bind_inv H. inversion H; subst; simpl.
      apply VecFacts.update_back_some in Ha.
      destruct Ha as (init & x & _ & ->). now destruct init.
  - bind_inv H. inversion H; subst; simpl.
    apply VecFacts.update_back_some in Ha.
    destruct Ha as (init & x & _ & ->). now destruct init.
Qed.

Lemma update_back_not_nil {A : Type} (f : A -> A) (l w : list A) :
  Vec.update_back f l = Some w -> w <> [].
Proof.
  intros H. apply VecFacts.update_back_some in H.
  destruct H as (init & x & _ & ->). now destruct init.
Qed.

Lemma WrapBinary_not_nil (args : list Value) (infix : string)
    (indent_right : bool) (val : Value) :
  WrapBinary tn args infix indent_right = Some val -> v val <> [].
Proof.
  unfold WrapBinary. intros H. binds_inv H.
  destruct (_ && _)%bool; binds_inv H; inversion H; subst; simpl.
  - discriminate.
  - apply update_back_not_nil in Ha4. now destruct a4.
Qed.

Lemma WrapNAry_not_nil (args : list Value) (prefix postfix : string)
    (val : Value) :
  WrapNAry tn args prefix postfix = Some val -> v val <> [].
Proof.
  unfold WrapNAry. destruct (nary_measure args) as [[t m] b].
  intros H. destruct (_ && _)%bool; binds_inv H; inversion H; subst; simpl.
  - discriminate.
  - now apply update_back_not_nil in Ha0.
Qed.

Lemma LoadStore_not_nil (val : Value) (addr_exp : Node) (offset : Z)
    (opc : Opcode) (align : Z) (op_type : Type_.t) (val' : Value) :
  LoadStore tn env lst val addr_exp offset opc align op_type = Some val' ->
  v val' <> [].
Proof.
  unfold LoadStore. intros H. binds_inv H. inversion H; subst; simpl.
  now apply update_back_not_nil in Ha0.
Qed.

Lemma DecompileIf_not_nil (false_ : ExprList) (args : list Value) (val : Value) :
  DecompileIf tn false_ args = Some val -> v val <> [].
Proof.
  unfold DecompileIf. intros H. binds_inv H.
  destruct a as [els|]; cbv beta iota zeta in H;
    destruct (_ || _)%bool; binds_inv H;
    inversion H; subst; simpl; try discriminate;
    intros E; apply app_eq_nil in E; destruct E; discriminate.
Qed.

Lemma terminate_statement_not_nil (arg : Value) (lines : list string) :
  terminate_statement arg = Some lines -> lines <> [].
Proof.
  unfold terminate_statement. intros H. binds_inv H.
  destruct (negb _).
  - now apply update_back_not_nil in H.
  - inversion H; subst. intros Hv. rewrite Hv in Ha. discriminate.
Qed.

Lemma statements_loop_nil (args : list Value) (stats lines : list string) :
  statements_loop stats args = Some lines ->
  (lines = [] <-> stats = [] /\ args = []).
Proof.
  revert stats. induction args as [|a args IH]; intros stats; simpl.
  - intros [= <-]. tauto.
  - intros H. bind_inv H. apply terminate_statement_not_nil in Ha.
    rewrite (IH _ H). split; [|intros [_ ?]; discriminate].
    intros [Happ _]. apply app_eq_nil in Happ. tauto.
Qed.

Ltac solve_not_nil H :=
  first
    [ discriminate H
    | (inversion H; subst; simpl; discriminate)
    | (eapply WrapChild_not_nil; exact H)
    | (eapply WrapBinary_not_nil; exact H)
    | (eapply WrapNAry_not_nil; exact H)
    | (eapply LoadStore_not_nil; exact H)
    | (eapply DecompileIf_not_nil; exact H) ].

Lemma DecompileConst_not_nil (c : Const) (val : Value) :
  DecompileConst env c = Some val -> v val <> [].
Proof.
  unfold DecompileConst. intros H.
  destruct (const_type c); solve_not_nil H.
Qed.

Lemma DecompileExprType_not_nil (n : Node) (args : list Value) (val : Value) :
  etype n <> ExprType.Drop ->
  DecompileExprType tn env lst n args = Some val -> v val <> [].
Proof.
  unfold DecompileExprType, Set_. intros Hdrop H.
  destruct (etype n); try congruence; binds_inv H;
    try solve [solve_not_nil H | eapply DecompileConst_not_nil; exact H].
  - (* LocalTee *) destruct args; solve_not_nil H.
  - (* Load *) destruct a as [[opc al] off]. binds_inv H. solve_not_nil H.
  - (* Store *) destruct a as [[opc al] off]. binds_inv H. solve_not_nil H.
Qed.

Lemma DecompileNode_not_nil (n : Node) (args : list Value) (val : Value) :
  ntype n <> NodeType.Statements ->
  (ntype n = NodeType.Expr -> etype n <> ExprType.Drop) ->
  DecompileNode tn env cur_func lst n args = Some val -> v val <> [].
Proof.
  unfold DecompileNode. intros Hst Hdrop H.
  destruct (ntype n); try congruence; binds_inv H;
    try solve [solve_not_nil H].
  eapply DecompileExprType_not_nil; [apply Hdrop; reflexivity | exact H].
Qed.

(** A fragment has no line exactly when its node is an empty [Statements],
    possibly below [Drop]s. *)
Lemma DecompileExpr_nil_iff (n : Node) :
  forall val, render n = Some val -> (v val = [] <-> renders_empty n = true).
Proof.
  induction n as [nt et x cs w IH] using Node_nested_ind.
  intros val H. rewrite DecompileExpr_unfold in H. simpl children in H.
  bind_inv H. rename a into args, Ha into Hargs.
  assert (Hother :
    nt <> NodeType.Statements ->
    (nt = NodeType.Expr -> et <> ExprType.Drop) ->
    v val <> []).
  { intros H1 H2.
    exact (DecompileNode_not_nil (mkNode nt et x cs w) args val H1 H2 H). }
  destruct nt; simpl renders_empty;
    try (split; [intros Hv; exfalso; revert Hv; apply Hother; discriminate
                | discriminate]).
  - (* Statements *)
    unfold DecompileNode in H. simpl ntype in H. bind_inv H.
    inversion H; subst; simpl.
    rewrite (statements_loop_nil _ _ _ Ha).
    apply mapM_length in Hargs.
    destruct cs, args; simpl in Hargs; try discriminate; split;
      try tauto; try discriminate.
    intros [_ ?]; discriminate.
  - (* Expr *)
    destruct et;
      try (split; [intros Hv; exfalso; revert Hv; apply Hother; discriminate
                  | discriminate]).
    (* Drop *)
    unfold DecompileNode, DecompileExprType in H. simpl ntype in H.
    simpl etype in H.
    destruct cs as [|c cs].
    + apply render_children_nil in Hargs. subst. discriminate.
    + apply render_children_cons in Hargs.
      destruct Hargs as (a & rest & -> & Hc & _).
      simpl in H. injection H as <-.
      inversion IH; subst. now apply H1.
Qed.

End RendererFacts.

(** ** The [Statements] case *)

Lemma terminate_statement_defined (arg : Value) (lines : list string) :
  terminate_statement arg = Some lines -> has_last_character arg.
Proof.
  unfold terminate_statement. intros H. binds_inv H.
  now exists a, a0.
Qed.

Lemma terminate_statement_text (arg : Value) :
  has_last_character arg ->
  terminate_statement arg = Some (terminated_lines arg).
Proof.
  intros (s & c & Hs & Hc). unfold terminate_statement, terminated_lines.
  unfold last_line in *. rewrite Hs. simpl. rewrite Hc. simpl.
  apply VecFacts.vec_back_some in Hs. destruct Hs as (init & Hv).
  rewrite Hv, removelast_last, VecFacts.update_back_snoc.
  unfold ends_with. rewrite Hc.
  destruct (Ascii.eqb c "}"); simpl; reflexivity.
Qed.

Lemma statements_loop_text (args : list Value) (stats : list string) :
  Forall has_last_character args ->
  statements_loop stats args
  = Some (stats ++ concat (map terminated_lines args)).
Proof.
  intros Hargs. revert stats.
  induction Hargs as [|a args Ha _ IH]; intros stats; simpl.
  - now rewrite app_nil_r.
  - rewrite (terminate_statement_text a Ha). simpl.
    now rewrite IH, app_assoc.
Qed.

Lemma statements_loop_defined (args : list Value) (stats lines : list string) :
  statements_loop stats args = Some lines -> Forall has_last_character args.
Proof.
  revert stats. induction args as [|a args IH]; intros stats; simpl.
  - constructor.
  - intros H. bind_inv H. constructor.
    + eapply terminate_statement_defined; eassumption.
    + eapply IH; eassumption.
Qed.

(** The last line of a terminated statement. *)
Lemma terminated_lines_end (arg : Value) :
  has_last_character arg ->
  exists init s s',
    v arg = init ++ [s]
    /\ s' = (if ends_with "}" s then s else (s ++ ";")%string)
    /\ terminated_lines arg = init ++ [s']
    /\ (ends_with ";" s' = true \/ ends_with "}" s' = true).
Proof.
  intros (s & c & Hs & Hc). unfold terminated_lines. rewrite Hs.
  apply VecFacts.vec_back_some in Hs. destruct Hs as (init & Hv).
  exists init, s, (if ends_with "}" s then s else (s ++ ";")%string).
  rewrite Hv, removelast_last. repeat split.
  destruct (ends_with "}" s) eqn:He; [now right | left].
  unfold ends_with. now rewrite StrFacts.back_snoc.
Qed.

(** ** No line of a fragment is empty *)

Lemma trim_loop_not_nil (fuel : nat) (s : string) :
  s <> "" -> trim_loop fuel s <> "".
Proof.
  revert s. induction fuel as [|fuel IH]; intros s Hs; simpl; [exact Hs|].
  destruct (trim_cond s) eqn:Hc; [|exact Hs].
  apply IH.
  destruct (StrFacts.snoc_cases s) as [-> | (s' & c & ->)]; [discriminate|].
  rewrite StrFacts.pop_back_snoc.
  unfold trim_cond in Hc. rewrite !andb_true_iff in Hc.
  destruct Hc as [[Hlen _] _]. apply Nat.ltb_lt in Hlen.
  rewrite StrFacts.length_append in Hlen. simpl in Hlen.
  destruct s'; [simpl in Hlen; lia | discriminate].
Qed.

Lemma to_string_not_nil (s : string) : s <> "" -> to_string s <> "".
Proof. apply trim_loop_not_nil. Qed.

Section LinesNotEmpty.

Variable tn : Tunables.
Variable env : Collaborators.
Variable cur_func : option Func.
Variable lst : LoadStoreTracking.

Local Notation "'render'" := (DecompileExpr tn env cur_func lst).

Lemma IndentValue_lines (val : Value) (amount : nat) (first : string) :
  lines_not_empty val -> lines_not_empty (IndentValue val amount first).
Proof.
  unfold lines_not_empty, IndentValue. intros H.
  destruct (v val) as [|l rest] eqn:E; [now rewrite E|].
  simpl. inversion H; subst. constructor.
  - now apply StrFacts.append_not_nil_r.
  - apply Forall_map. eapply Forall_impl; [|eassumption].
    intros s Hs. now apply StrFacts.append_not_nil_r.
Qed.

Lemma update_back_lines (f : string -> string) (l w : list string) :
  (forall s, s <> "" -> f s <> "") ->
  Forall (fun s => s <> "") l ->
  Vec.update_back f l = Some w ->
  Forall (fun s => s <> "") w.
Proof.
  intros Hf Hl H. apply VecFacts.update_back_some in H.
  destruct H as (init & a & -> & ->).
  apply Forall_app in Hl. destruct Hl as [Hinit Ha].
  apply Forall_app. split; [exact Hinit|].
  inversion Ha; subst. constructor; [now apply Hf | constructor].
Qed.

Lemma append_keeps_not_nil (q : string) :
  forall s : string, s <> "" -> (s ++ q)%string <> "".
Proof. intros s Hs. now apply StrFacts.append_not_nil_l. Qed.

Lemma WrapChild_lines (child : Value) (prefix postfix : string) (val : Value) :
  prefix <> "" ->
  lines_not_empty child ->
  WrapChild tn child prefix postfix = Some val ->
  lines_not_empty val.
Proof.
  unfold WrapChild. intros Hp Hc H.
  destruct (_ || _)%bool.
  - destruct (length (v child) =? 1).
    + unfold lines_not_empty in *.
      destruct (v child) as [|l rest]; [discriminate|].
      inversion H; subst; simpl. inversion Hc; subst.
      constructor; [now apply StrFacts.append_not_nil_l | assumption].
    + bind_inv H. inversion H; subst. unfold lines_not_empty. simpl.
      eapply update_back_lines; [apply append_keeps_not_nil | | exact Ha].
      now apply IndentValue_lines.
  - bind_inv H. inversion H; subst. unfold lines_not_empty. simpl.
    eapply update_back_lines; [apply append_keeps_not_nil | | exact Ha].
    constructor; [exact Hp | now apply IndentValue_lines].
Qed.

Lemma BracketIfNeeded_lines (val val' : Value) :
  lines_not_empty val ->
  BracketIfNeeded tn val = Some val' ->
  lines_not_empty val'.
Proof.
  unfold BracketIfNeeded. intros Hv H.
  destruct (needs_bracketing val); simpl in H.
  - bind_inv H. inversion H; subst. unfold lines_not_empty. simpl.
    eapply WrapChild_lines; [| exact Hv | exact Ha]. discriminate.
  - now inversion H; subst.
Qed.

Lemma nth_error_lines {A : Type} (P : A -> Prop) (l : list A) (i : nat) (a : A) :
  Forall P l -> nth_error l i = Some a -> P a.
Proof.
  intros Hl Hn. apply nth_error_In in Hn.
  rewrite Forall_forall in Hl. now apply Hl.
Qed.

Lemma WrapBinary_lines (args : list Value) (infix : string)
    (indent_right : bool) (val : Value) :
  Forall lines_not_empty args ->
  WrapBinary tn args infix indent_right = Some val ->
  lines_not_empty val.
Proof.
  unfold WrapBinary. intros Hargs H. binds_inv H.
  pose proof (nth_error_lines _ _ _ _ Hargs Ha0) as Hl0.
  pose proof (nth_error_lines _ _ _ _ Hargs Ha1) as Hr0.
  pose proof (BracketIfNeeded_lines _ _ Hl0 Ha2) as Hl.
  pose proof (BracketIfNeeded_lines _ _ Hr0 Ha3) as Hr.
  destruct (_ && _)%bool; binds_inv H; inversion H; subst;
    unfold lines_not_empty; simpl.
  - constructor; [|constructor].
    apply StrFacts.append_not_nil_l.
    exact (nth_error_lines _ _ _ _ Hl Ha4).
  - apply Forall_app. split.
    + eapply update_back_lines; [apply append_keeps_not_nil | exact Hl | exact Ha4].
    + destruct indent_right; [now apply IndentValue_lines | exact Hr].
Qed.

Lemma nary_multi_loop_lines_not_empty (size : nat) (ident : bool)
    (prefix : string) (args : list Value) (i : nat) (ml lines : list string) :
  Forall lines_not_empty args ->
  Forall (fun s => s <> "") ml ->
  nary_multi_loop tn size ident prefix i ml args = Some lines ->
  Forall (fun s => s <> "") lines.
Proof.
  intros Hargs. revert i ml.
  induction Hargs as [|a args Ha _ IH]; intros i ml Hml H; simpl in H.
  - now inversion H; subst.
  - bind_inv H. refine (IH _ _ _ H). clear IH H.
    apply Forall_app. split; [exact Hml|].
    pose proof (IndentValue_lines a
                  (if ident then String.length prefix else indent_amount tn)
                  (if (i =? 0) && ident then prefix else "") Ha) as Hind.
    destruct (i <? size - 1).
    + eapply update_back_lines;
        [apply append_keeps_not_nil | exact Hind | exact Ha0].
    + now inversion Ha0; subst.
Qed.

Lemma WrapNAry_lines (args : list Value) (prefix postfix : string) (val : Value) :
  prefix <> "" ->
  Forall lines_not_empty args ->
  WrapNAry tn args prefix postfix = Some val ->
  lines_not_empty val.
Proof.
  unfold WrapNAry. intros Hp Hargs H.
  destruct (nary_measure args) as [[t m] b].
  destruct (_ && _)%bool; binds_inv H; inversion H; subst;
    unfold lines_not_empty; simpl.
  - constructor; [|constructor].
    apply StrFacts.append_not_nil_l.
    clear H. revert Ha. generalize true as first.
    assert (Hgen : forall args first s r,
               s <> "" -> nary_single_loop first s args = Some r -> r <> "").
    { clear. induction args as [|c args IH]; intros first s r Hs H; simpl in H.
      - now inversion H; subst.
      - bind_inv H. refine (IH _ _ _ _ H).
        apply StrFacts.append_not_nil_l.
        destruct first; [exact Hs | now apply StrFacts.append_not_nil_l]. }
    intros first Ha. exact (Hgen _ _ _ _ Hp Ha).
  - eapply update_back_lines; [apply append_keeps_not_nil | | exact Ha0].
    pose proof (nary_multi_loop_lines_not_empty _ _ _ _ _ _ _ Hargs
                  (Forall_nil _) Ha) as Hml.
    destruct (negb _); [constructor; assumption | exact Hml].
Qed.

Lemma LoadStore_lines (val : Value) (addr_exp : Node) (offset : Z)
    (opc : Opcode) (align : Z) (op_type : Type_.t) (val' : Value) :
  lines_not_empty val ->
  LoadStore tn env lst val addr_exp offset opc align op_type = Some val' ->
  lines_not_empty val'.
Proof.
  unfold LoadStore. intros Hv H. binds_inv H. inversion H; subst.
  unfold lines_not_empty. simpl.
  eapply update_back_lines; [apply append_keeps_not_nil | | exact Ha0].
  exact (BracketIfNeeded_lines _ _ Hv Ha).
Qed.

Lemma update_front_lines (f : string -> string) (l w : list string) :
  (forall s, s <> "" -> f s <> "") ->
  Forall (fun s => s <> "") l ->
  Vec.update_front f l = Some w ->
  Forall (fun s => s <> "") w.
Proof.
  intros Hf Hl H. destruct l as [|a l]; [discriminate|].
  inversion H; subst. inversion Hl; subst. constructor; auto.
Qed.

Lemma DecompileIf_lines (false_ : ExprList) (args : list Value) (val : Value) :
  Forall lines_not_empty args ->
  DecompileIf tn false_ args = Some val ->
  lines_not_empty val.
Proof.
  unfold DecompileIf. intros Hargs H. binds_inv H.
  pose proof (nth_error_lines _ _ _ _ Hargs Ha0) as Hthen.
  pose proof (nth_error_lines _ _ _ _ Hargs Ha1) as Hifs.
  assert (Hels : match a with Some els => lines_not_empty els | None => True end).
  { destruct (negb _); [|now inversion Ha; subst].
    bind_inv Ha. inversion Ha; subst.
    exact (nth_error_lines _ _ _ _ Hargs Ha2). }
  assert (Hmulti : forall w0 w1,
    Vec.update_front (fun s => ("if (" ++ s)%string) (v a1) = Some w0 ->
    Vec.update_back (fun s => (s ++ ") {")%string) w0 = Some w1 ->
    Forall (fun s => s <> "") w1).
  { intros w0 w1 H0 H1.
    eapply update_back_lines; [apply append_keeps_not_nil | | exact H1].
    eapply update_front_lines; [| exact Hifs | exact H0].
    intros s _. discriminate. }
  pose proof (IndentValue_lines a0 (indent_amount tn) "" Hthen) as Hthen'.
  destruct a as [els|]; cbv beta iota zeta in H;
    destruct (_ || _)%bool; binds_inv H; inversion H; subst;
    unfold lines_not_empty; simpl v;
    repeat match goal with
      | |- Forall _ (_ ++ _) => apply Forall_app; split
      | |- Forall _ (_ :: _) => constructor
      | |- Forall _ [] => constructor
      end;
    try (eapply Hmulti; eassumption);
    try exact Hthen';
    try (apply IndentValue_lines; exact Hels);
    try (simpl; discriminate).
Qed.

Lemma statements_loop_lines (args : list Value) (stats lines : list string) :
  Forall lines_not_empty args ->
  Forall (fun s => s <> "") stats ->
  statements_loop stats args = Some lines ->
  Forall (fun s => s <> "") lines.
Proof.
  intros Hargs. revert stats.
  induction Hargs as [|a args Ha _ IH]; intros stats Hstats H; simpl in H.
  - now inversion H; subst.
  - bind_inv H. refine (IH _ _ H). apply Forall_app. split; [exact Hstats|].
    unfold terminate_statement in Ha0. binds_inv Ha0.
    destruct (negb _).
    + eapply update_back_lines; [apply append_keeps_not_nil | exact Ha | exact Ha0].
    + now inversion Ha0; subst.
Qed.

End LinesNotEmpty.

Section RendererLines.

Variable tn : Tunables.
Variable env : Collaborators.
Variable cur_func : option Func.
Variable lst : LoadStoreTracking.

Local Notation "'render'" := (DecompileExpr tn env cur_func lst).

Lemma flush_decls_not_nil (var_start var_count : Z) :
  flush_decls var_start var_count <> "".
Proof. unfold flush_decls. now apply StrFacts.append_not_nil_r. Qed.

Lemma DecompileConst_lines (c : Const) (val : Value) :
  (const_type c = Type_.F64 -> std_to_string_f64 env (Const_u64 c) <> "") ->
  DecompileConst env c = Some val ->
  lines_not_empty val.
Proof.
  unfold DecompileConst, lines_not_empty. intros Hf H.
  destruct (const_type c); inversion H; subst; simpl;
    constructor; try constructor.
  - apply StrFacts.of_Z_not_nil.
  - now apply StrFacts.append_not_nil_r.
  - now apply StrFacts.append_not_nil_r.
  - apply to_string_not_nil. now apply Hf.
  - discriminate.
Qed.

Lemma Set_lines (child : Value) (var : Var) (val : Value) :
  lines_not_empty child ->
  Set_ tn child var = Some val ->
  lines_not_empty val.
Proof.
  unfold Set_. intros Hc H.
  eapply WrapChild_lines; [| | exact H]; [|exact Hc].
  now apply StrFacts.append_not_nil_r.
Qed.

Lemma DecompileExprType_lines (n : Node) (args : list Value) (val : Value) :
  ntype n = NodeType.Expr ->
  atom_not_empty env n = true ->
  length args = length (children n) ->
  Forall lines_not_empty args ->
  DecompileExprType tn env lst n args = Some val ->
  lines_not_empty val.
Proof.
  unfold DecompileExprType, atom_not_empty.
  intros Hnt Hatom Hlen Hargs H. rewrite Hnt in Hatom.
  destruct (etype n); binds_inv H.
  - (* Const *)
    unfold Cast.ConstExpr in Ha.
    destruct (e n) as [[]|]; try discriminate. inversion Ha; subst.
    eapply DecompileConst_lines; [|exact H].
    intros Ht. rewrite Ht in Hatom.
    now apply negb_true_iff, StrFacts.empty_false in Hatom.
  - (* LocalGet *)
    unfold Cast.LocalGetExpr in Ha.
    destruct (e n) as [[]|]; try discriminate. inversion Ha; subst.
    inversion H; subst. unfold lines_not_empty. simpl.
    apply negb_true_iff, StrFacts.empty_false in Hatom. now repeat constructor.
  - (* GlobalGet *)
    unfold Cast.GlobalGetExpr in Ha.
    destruct (e n) as [[]|]; try discriminate. inversion Ha; subst.
    inversion H; subst. unfold lines_not_empty. simpl.
    apply negb_true_iff, StrFacts.empty_false in Hatom. now repeat constructor.
  - (* LocalSet *)
    eapply Set_lines; [|exact H]. exact (nth_error_lines _ _ _ _ Hargs Ha).
  - (* GlobalSet *)
    eapply Set_lines; [|exact H]. exact (nth_error_lines _ _ _ _ Hargs Ha).
  - (* LocalTee *)
    unfold Cast.LocalTeeExpr in Ha.
    destruct (e n) as [[]|]; try discriminate. inversion Ha; subst.
    destruct args as [|a0 rest].
    + destruct (children n); [|discriminate].
      inversion H; subst. unfold lines_not_empty. simpl.
      apply negb_true_iff, StrFacts.empty_false in Hatom.
      now repeat constructor.
    + eapply Set_lines; [|exact H]. now inversion Hargs.
  - (* Binary *) eapply WrapBinary_lines; eassumption.
  - (* Compare *) eapply WrapBinary_lines; eassumption.
  - (* Unary *)
    eapply WrapChild_lines; [| |exact H].
    + now apply StrFacts.append_not_nil_r.
    + exact (nth_error_lines _ _ _ _ Hargs Ha0).
  - (* Load *)
    destruct a as [[opc al] off]. binds_inv H.
    eapply LoadStore_lines; [|exact H].
    exact (nth_error_lines _ _ _ _ Hargs Ha0).
  - (* Store *)
    destruct a as [[opc al] off]. binds_inv H.
    eapply WrapBinary_lines; [|exact H].
    constructor.
    + eapply LoadStore_lines; [|exact Ha2].
      exact (nth_error_lines _ _ _ _ Hargs Ha0).
    + destruct args; [constructor | now inversion Hargs].
  - (* If *) eapply DecompileIf_lines; eassumption.
  - (* Block *)
    inversion H; subst. unfold lines_not_empty, Block. simpl.
    pose proof (IndentValue_lines a (indent_amount tn) ""
                  (nth_error_lines _ _ _ _ Hargs Ha)) as Hind.
    constructor; [discriminate|].
    apply Forall_app. split; [exact Hind | repeat constructor; discriminate].
  - (* Loop *)
    inversion H; subst. unfold lines_not_empty, Block. simpl.
    pose proof (IndentValue_lines a (indent_amount tn) ""
                  (nth_error_lines _ _ _ _ Hargs Ha)) as Hind.
    constructor; [discriminate|].
    apply Forall_app. split; [exact Hind | repeat constructor; discriminate].
  - (* Br *)
    inversion H; subst. unfold lines_not_empty. simpl.
    constructor; [|constructor].
    apply StrFacts.append_not_nil_l. now destruct a0.
  - (* BrIf *)
    eapply WrapChild_lines; [| |exact H]; [discriminate|].
    exact (nth_error_lines _ _ _ _ Hargs Ha1).
  - (* Return *)
    eapply WrapNAry_lines; [|exact Hargs|exact H]. discriminate.
  - (* Drop *)
    exact (nth_error_lines _ _ _ _ Hargs H).
  - (* Call *)
    eapply WrapNAry_lines; [|exact Hargs|exact H].
    now apply StrFacts.append_not_nil_r.
  - (* Convert *)
    eapply WrapNAry_lines; [|exact Hargs|exact H].
    now apply StrFacts.append_not_nil_r.
  - (* Nop *)
    eapply WrapNAry_lines; [|exact Hargs|exact H].
    now apply StrFacts.append_not_nil_r.
  - (* Other *)
    eapply WrapNAry_lines; [|exact Hargs|exact H].
    now apply StrFacts.append_not_nil_r.
Qed.

Lemma DecompileNode_lines (n : Node) (args : list Value) (val : Value) :
  atom_not_empty env n = true ->
  length args = length (children n) ->
  Forall lines_not_empty args ->
  DecompileNode tn env cur_func lst n args = Some val ->
  lines_not_empty val.
Proof.
  unfold DecompileNode. intros Hatom Hlen Hargs H.
  destruct (ntype n) eqn:Hnt; binds_inv H.
  - discriminate.
  - (* FlushToVars *)
    eapply WrapNAry_lines; [|exact Hargs|exact H]. apply flush_decls_not_nil.
  - (* FlushedVar *)
    inversion H; subst. unfold lines_not_empty. simpl.
    repeat constructor. discriminate.
  - (* Statements *)
    inversion H; subst. unfold lines_not_empty. simpl.
    eapply statements_loop_lines; [exact Hargs | constructor | exact Ha].
  - (* EndReturn *)
    eapply WrapNAry_lines; [|exact Hargs|exact H]. discriminate.
  - (* Decl *)
    inversion H; subst. unfold lines_not_empty. simpl.
    repeat constructor. discriminate.
  - (* DeclInit *)
    eapply WrapChild_lines; [| |exact H]; [discriminate|].
    exact (nth_error_lines _ _ _ _ Hargs Ha).
  - (* Expr *)
    eapply DecompileExprType_lines; eassumption.
Qed.

Lemma no_empty_atom_children (nt : NodeType.t) (et : ExprType.t)
    (x : option Expr) (cs : list Node) (w : NodeU) :
  no_empty_atom env (mkNode nt et x cs w) = true ->
  atom_not_empty env (mkNode nt et x cs w) = true
  /\ Forall (fun c => no_empty_atom env c = true) cs.
Proof.
  simpl. intros H. apply andb_true_iff in H. destruct H as [Ha Hcs].
  split; [exact Ha|]. clear Ha.
  induction cs as [|c cs IH]; [constructor|].
  apply andb_true_iff in Hcs. destruct Hcs as [Hc Hcs].
  constructor; [exact Hc | exact (IH Hcs)].
Qed.

Lemma render_children_Forall2 (cs : list Node) (args : list Value) :
  render_children tn env cur_func lst cs = Some args ->
  Forall2 (fun c a => render c = Some a) cs args.
Proof.
  revert args. induction cs as [|c cs IH]; intros args H.
  - apply render_children_nil in H. subst. constructor.
  - apply render_children_cons in H.
    destruct H as (a & rest & -> & Hc & Hrest).
    constructor; [exact Hc | exact (IH _ Hrest)].
Qed.

(** When no leaf has an empty text, no line of the fragment is empty. *)
Lemma DecompileExpr_lines (n : Node) :
  forall val,
    no_empty_atom env n = true -> render n = Some val -> lines_not_empty val.
Proof.
  induction n as [nt et x cs w IH] using Node_nested_ind.
  intros val Hatoms H.
  apply no_empty_atom_children in Hatoms. destruct Hatoms as [Hatom Hcs].
  rewrite DecompileExpr_unfold in H. simpl children in H.
  bind_inv H. rename a into args, Ha into Hargs.
  eapply DecompileNode_lines; [exact Hatom | | | exact H].
  - simpl. exact (mapM_length _ _ _ Hargs).
  - apply render_children_Forall2 in Hargs.
    clear H Hatom. induction Hargs as [|c a cs args Hc _ IHargs];
      [constructor|].
    inversion IH; subst. inversion Hcs; subst.
    constructor; [now apply (H1 a) | now apply IHargs].
Qed.

(** A fragment with a line, none of them empty, has a last character. *)
Lemma lines_last_character (val : Value) :
  v val <> [] -> lines_not_empty val -> has_last_character val.
Proof.
  intros Hv Hl. unfold has_last_character, last_line.
  destruct (Vec.back (v val)) as [s|] eqn:Hs.
  - pose proof Hs as Hs'. apply VecFacts.vec_back_some in Hs'.
    destruct Hs' as (init & Hinit).
    unfold lines_not_empty in Hl. rewrite Hinit in Hl.
    apply Forall_app in Hl. destruct Hl as [_ Hl]. inversion Hl; subst.
    destruct (StrFacts.back_some s) as (c & Hc); [assumption|].
    now exists s, c.
  - now apply VecFacts.vec_back_none in Hs.
Qed.

End RendererLines.

(** ** The renderer is defined on well-formed nodes *)

Section Defined.

Variable tn : Tunables.
Variable env : Collaborators.
Variable cur_func : option Func.
Variable lst : LoadStoreTracking.

Local Notation "'render'" := (DecompileExpr tn env cur_func lst).

Lemma WrapChild_defined (child : Value) (prefix postfix : string) :
  v child <> [] -> exists val, WrapChild tn child prefix postfix = Some val.
Proof.
  intros Hv. unfold WrapChild.
  destruct (_ || _)%bool.
  - destruct (length (v child) =? 1).
    + destruct (v child); [congruence | eauto].
    + destruct (update_back_defined (fun s => (s ++ postfix)%string)
                  (v (IndentValue child (String.length prefix) prefix)))
        as (w & ->); [now rewrite IndentValue_nil | simpl; eauto].
  - destruct (update_back_defined (fun s => (s ++ postfix)%string)
                (prefix :: v (IndentValue child (indent_amount tn) "")))
      as (w & ->); [discriminate | simpl; eauto].
Qed.

Lemma BracketIfNeeded_defined (val : Value) :
  v val <> [] ->
  exists val', BracketIfNeeded tn val = Some val' /\ v val' <> [].
Proof.
  intros Hv. unfold BracketIfNeeded.
  destruct (needs_bracketing val); simpl; [|eauto].
  destruct (WrapChild_defined val "(" ")" Hv) as (w & Hw).
  rewrite Hw. simpl. eexists. split; [reflexivity|]. simpl.
  now apply (WrapChild_not_nil tn val "(" ")").
Qed.

Lemma WrapBinary_defined (l r : Value) (infix : string) (indent_right : bool) :
  v l <> [] -> v r <> [] ->
  exists val, WrapBinary tn [l; r] infix indent_right = Some val.
Proof.
  intros Hl Hr. unfold WrapBinary. simpl.
  destruct (BracketIfNeeded_defined l Hl) as (l' & -> & Hl').
  destruct (BracketIfNeeded_defined r Hr) as (r' & -> & Hr'). simpl.
  destruct (_ && _)%bool.
  - destruct (v l'); [congruence|]. destruct (v r'); [congruence|].
    simpl. eauto.
  - destruct (update_back_defined (fun s => (s ++ infix)%string) (v l') Hl')
      as (w & ->). simpl. eauto.
Qed.

Lemma LoadStore_defined (val : Value) (addr_exp : Node) (offset : Z)
    (opc : Opcode) (align : Z) (op_type : Type_.t) :
  v val <> [] ->
  exists val',
    LoadStore tn env lst val addr_exp offset opc align op_type = Some val'
    /\ v val' <> [].
Proof.
  intros Hv. unfold LoadStore.
  destruct (BracketIfNeeded_defined val Hv) as (val1 & -> & Hv1). simpl.
  destruct (update_back_defined
              (fun s => (s ++ LoadStore_suffix env lst addr_exp offset opc
                                 align op_type)%string) (v val1) Hv1)
    as (w & Hw).
  rewrite Hw. simpl. eexists. split; [reflexivity|]. simpl.
  now apply update_back_not_nil in Hw.
Qed.

Lemma DecompileIf_multiline_defined (ifs : Value) (rest : list string)
    (flag : bool) :
  v ifs <> [] ->
  exists val,
    (w0 <- Vec.update_front (fun s => ("if (" ++ s)%string) (v ifs) ;;
     w1 <- Vec.update_back (fun s => (s ++ ") {")%string) w0 ;;
     Some (mkValue ((w1 ++ rest) ++ ["}"]) flag)) = Some val.
Proof.
  intros Hv. destruct (v ifs) as [|c0 crest]; [congruence|].
  cbn [Vec.update_front Partial.bind].
  destruct (update_back_defined (fun s => (s ++ ") {")%string)
              (("if (" ++ c0)%string :: crest)) as (w & Hw); [discriminate|].
  rewrite Hw. cbn [Partial.bind]. eauto.
Qed.

Lemma DecompileIf_defined (false_ : ExprList) (args : list Value) :
  match false_, args with
  | [], c :: t :: _ => v c <> [] /\ v t <> []
  | _ :: _, c :: t :: el :: _ => v c <> [] /\ v t <> [] /\ v el <> []
  | _, _ => False
  end ->
  exists val, DecompileIf tn false_ args = Some val.
Proof.
  unfold DecompileIf. intros H.
  destruct false_ as [|f0 false_]; destruct args as [|c [|t rest]];
    try contradiction.
  - destruct H as [Hc Ht].
    cbn [length Nat.eqb negb nth_error Partial.bind].
    destruct (_ || _)%bool.
    + destruct (DecompileIf_multiline_defined c
                  (v (IndentValue t (indent_amount tn) ""))
                  (needs_bracketing c) Hc) as (val & Hval).
      exists val. rewrite <- Hval. reflexivity.
    + destruct (v c); [congruence|]. destruct (v t); [congruence|].
      cbn [nth_error Partial.bind]. eauto.
  - destruct rest as [|el rest]; [contradiction|].
    destruct H as (Hc & Ht & He).
    cbn [length Nat.eqb negb nth_error Partial.bind].
    destruct (_ || _)%bool.
    + destruct (DecompileIf_multiline_defined c
                  ((v (IndentValue t (indent_amount tn) "") ++ ["} else {"])
                     ++ v (IndentValue el (indent_amount tn) ""))
                  (needs_bracketing c) Hc) as (val & Hval).
      exists val. rewrite <- Hval.
      destruct (Vec.update_front _ (v c)) as [w0|]; [|reflexivity].
      cbn [Partial.bind].
      destruct (Vec.update_back _ w0) as [w1|]; [|reflexivity].
      cbn [Partial.bind]. now rewrite !app_assoc.
    + destruct (v c); [congruence|]. destruct (v t); [congruence|].
      destruct (v el); [congruence|].
      cbn [nth_error Partial.bind]. eauto.
Qed.

Lemma well_formed_children (has_func : bool) (nt : NodeType.t)
    (et : ExprType.t) (x : option Expr) (cs : list Node) (w : NodeU) :
  well_formed env has_func (mkNode nt et x cs w) = true ->
  node_ok env has_func (mkNode nt et x cs w) = true
  /\ Forall (fun c => well_formed env has_func c = true) cs.
Proof.
  simpl. intros H. apply andb_true_iff in H. destruct H as [Hn Hcs].
  split; [exact Hn|]. clear Hn.
  induction cs as [|c cs IH]; [constructor|].
  apply andb_true_iff in Hcs. destruct Hcs as [Hc Hcs].
  constructor; [exact Hc | exact (IH Hcs)].
Qed.

Lemma render_children_defined (cs : list Node) :
  Forall (fun c => exists val, render c = Some val) cs ->
  exists args, render_children tn env cur_func lst cs = Some args.
Proof.
  unfold render_children.
  induction 1 as [|c cs (a & Ha) _ (args & IH)]; simpl; [eauto|].
  rewrite Ha, IH. eauto.
Qed.

(** The operands that have lines render to fragments with lines. *)
Lemma has_lines_rendered (c : Node) (a : Value) :
  render c = Some a -> has_lines c = true -> v a <> [].
Proof.
  intros Hc Hl Hv. unfold has_lines in Hl.
  apply (DecompileExpr_nil_iff tn env cur_func lst c a Hc) in Hv.
  rewrite Hv in Hl. discriminate.
Qed.

Lemma forallb_has_lines_rendered (cs : list Node) (args : list Value) :
  Forall2 (fun c a => render c = Some a) cs args ->
  forallb has_lines cs = true ->
  Forall (fun a => v a <> []) args.
Proof.
  induction 1 as [|c a cs args Hc _ IH]; simpl; [constructor|].
  intros H. apply andb_true_iff in H. destruct H as [Hl Hcs].
  constructor; [exact (has_lines_rendered c a Hc Hl) | exact (IH Hcs)].
Qed.

Lemma statements_rendered (cs : list Node) (args : list Value) :
  Forall2 (fun c a => render c = Some a) cs args ->
  forallb (fun c => has_lines c && no_empty_atom env c) cs = true ->
  Forall has_last_character args.
Proof.
  induction 1 as [|c a cs args Hc _ IH]; simpl; [constructor|].
  intros H. apply andb_true_iff in H. destruct H as [Hl Hcs].
  apply andb_true_iff in Hl. destruct Hl as [Hl Hatoms].
  constructor; [|exact (IH Hcs)].
  apply lines_last_character.
  - exact (has_lines_rendered c a Hc Hl).
  - exact (DecompileExpr_lines tn env cur_func lst c a Hatoms Hc).
Qed.

Lemma first_operand_rendered (cs : list Node) (args : list Value) :
  Forall2 (fun c a => render c = Some a) cs args ->
  first_has_lines cs = true ->
  exists a0, nth_error args 0 = Some a0 /\ v a0 <> []
             /\ exists c0, nth_error cs 0 = Some c0.
Proof.
  intros [|c a cs' args' Hc _]; simpl; [discriminate|].
  intros Hl. exists a. split; [reflexivity|].
  split; [exact (has_lines_rendered c a Hc Hl) | eauto].
Qed.

Lemma two_operands_rendered (cs : list Node) (args : list Value) :
  Forall2 (fun c a => render c = Some a) cs args ->
  match cs with
  | [a; b] => has_lines a && has_lines b
  | _ => false
  end = true ->
  exists c0 c1 a0 a1,
    cs = [c0; c1] /\ args = [a0; a1] /\ v a0 <> [] /\ v a1 <> [].
Proof.
  intros [|c0 a0 cs0 args0 Hc0 [|c1 a1 cs1 args1 Hc1 [|]]]; try discriminate.
  intros H. apply andb_true_iff in H. destruct H as [H0 H1].
  exists c0, c1, a0, a1. repeat split; eapply has_lines_rendered; eassumption.
Qed.

Lemma DecompileExprType_defined (n : Node) (args : list Value) :
  ntype n = NodeType.Expr ->
  node_ok env (match cur_func with Some _ => true | None => false end) n
    = true ->
  Forall2 (fun c a => render c = Some a) (children n) args ->
  exists val, DecompileExprType tn env lst n args = Some val.
Proof.
  unfold node_ok, DecompileExprType, Set_. intros Hnt Hok Hkids.
  rewrite Hnt in Hok. rewrite !andb_true_iff in Hok.
  destruct Hok as (Hu & Hx & Hop).
  pose proof (forallb_has_lines_rendered (children n) args Hkids) as Hall.
  pose proof (first_operand_rendered (children n) args Hkids) as Hfirst.
  pose proof (two_operands_rendered (children n) args Hkids) as Htwo.
  destruct (etype n); destruct (e n) as [[]|]; try discriminate Hx;
    simpl in Hx, Hop; cbv beta iota delta
      [Cast.ConstExpr Cast.LocalGetExpr Cast.GlobalGetExpr Cast.LocalSetExpr
       Cast.GlobalSetExpr Cast.LocalTeeExpr Cast.BinaryExpr Cast.CompareExpr
       Cast.UnaryExpr Cast.ConvertExpr Cast.LoadExpr Cast.StoreExpr
       Cast.IfExpr Cast.BlockExpr Cast.LoopExpr Cast.BrExpr Cast.BrIfExpr
       Cast.CallExpr Partial.bind];
    try (apply WrapNAry_defined; exact (Hall Hop));
    try (match goal with
         | |- exists val, nth_error args 0 = Some val =>
             (* Drop, whatever the record *)
             destruct Hkids as [|c0 a0 cs0 args0 Hc0 Hrest];
             [discriminate Hop | simpl; eauto]
         end);
    try (destruct (Htwo Hop) as (c0 & c1 & a0 & a1 & Hcs & -> & Ha0 & Ha1));
    try (destruct (Hfirst Hop) as (a0 & -> & Ha0 & c0 & Hc0)).
  - (* Const *)
    unfold DecompileConst.
    destruct (const_type const_); try discriminate Hx; eauto.
  - (* LocalGet *) eauto.
  - (* GlobalGet *) eauto.
  - (* LocalSet *) now apply WrapChild_defined.
  - (* GlobalSet *) now apply WrapChild_defined.
  - (* LocalTee *)
    destruct Hkids as [|c0 a0 cs0 args0 Hc0 Hrest]; [eauto|].
    apply WrapChild_defined. simpl. exact (has_lines_rendered c0 a0 Hc0 Hop).
  - (* Binary *) now apply WrapBinary_defined.
  - (* Compare *) now apply WrapBinary_defined.
  - (* Unary *) now apply WrapChild_defined.
  - (* Load *)
    rewrite Hc0.
    destruct (LoadStore_defined a0 c0 offset opcode align
                (GetResultType opcode) Ha0) as (val & Hval & _).
    eauto.
  - (* Store *)
    rewrite Hcs. cbn [nth_error Partial.bind tl].
    destruct (LoadStore_defined a0 c0 offset opcode align
                (GetParamType2 opcode) Ha0) as (val & -> & Hval).
    cbn [Partial.bind]. now apply WrapBinary_defined.
  - (* If *)
    apply DecompileIf_defined.
    destruct false_ as [|f0 false_].
    + destruct Hkids as [|c0 a0 cs0 args0 Hc0 Hrest]; [discriminate Hop|].
      destruct Hrest as [|c1 a1 cs1 args1 Hc1 Hrest]; [discriminate Hop|].
      apply andb_true_iff in Hop. destruct Hop as [H0 H1].
      split; eapply has_lines_rendered; eassumption.
    + destruct Hkids as [|c0 a0 cs0 args0 Hc0 Hrest]; [discriminate Hop|].
      destruct Hrest as [|c1 a1 cs1 args1 Hc1 Hrest]; [discriminate Hop|].
      destruct Hrest as [|c2 a2 cs2 args2 Hc2 Hrest]; [discriminate Hop|].
      rewrite !andb_true_iff in Hop. destruct Hop as [[H0 H1] H2].
      repeat split; eapply has_lines_rendered; eassumption.
  - (* Block *)
    destruct Hkids as [|c0 a0 cs0 args0 Hc0 Hrest]; [discriminate Hop|].
    simpl. eauto.
  - (* Loop *)
    destruct Hkids as [|c0 a0 cs0 args0 Hc0 Hrest]; [discriminate Hop|].
    simpl. eauto.
  - (* Br *)
    unfold u_lt. destruct (u n); try discriminate Hu. simpl. eauto.
  - (* BrIf *)
    unfold u_lt. destruct (u n); try discriminate Hu.
    cbn [Partial.bind]. now apply WrapChild_defined.
Qed.

Lemma DecompileNode_defined (n : Node) (args : list Value) :
  node_ok env (match cur_func with Some _ => true | None => false end) n
    = true ->
  Forall2 (fun c a => render c = Some a) (children n) args ->
  exists val, DecompileNode tn env cur_func lst n args = Some val.
Proof.
  intros Hok Hkids. unfold DecompileNode.
  destruct (ntype n) eqn:Hnt.
  - (* Uninitialized *)
    unfold node_ok in Hok. rewrite Hnt in Hok.
    now rewrite andb_false_r in Hok.
  - (* FlushToVars *)
    unfold node_ok in Hok. rewrite Hnt in Hok.
    apply andb_true_iff in Hok. destruct Hok as [Hu Hop].
    unfold u_var_start, u_var_count.
    destruct (u n); try discriminate Hu. cbn [Partial.bind].
    apply WrapNAry_defined.
    exact (forallb_has_lines_rendered _ _ Hkids Hop).
  - (* FlushedVar *)
    unfold node_ok in Hok. rewrite Hnt in Hok.
    apply andb_true_iff in Hok. destruct Hok as [Hu _].
    unfold u_var_start. destruct (u n); try discriminate Hu. simpl. eauto.
  - (* Statements *)
    unfold node_ok in Hok. rewrite Hnt in Hok.
    apply andb_true_iff in Hok. destruct Hok as [_ Hop].
    rewrite (statements_loop_text args []
               (statements_rendered _ _ Hkids Hop)).
    simpl. eauto.
  - (* EndReturn *)
    unfold node_ok in Hok. rewrite Hnt in Hok.
    apply andb_true_iff in Hok. destruct Hok as [_ Hop].
    apply WrapNAry_defined.
    exact (forallb_has_lines_rendered _ _ Hkids Hop).
  - (* Decl *)
    unfold node_ok in Hok. rewrite Hnt in Hok.
    apply andb_true_iff in Hok. destruct Hok as [Hu Hf].
    unfold u_var. destruct (u n); try discriminate Hu.
    destruct cur_func; [|discriminate Hf]. simpl. eauto.
  - (* DeclInit *)
    unfold node_ok in Hok. rewrite Hnt in Hok.
    rewrite !andb_true_iff in Hok. destruct Hok as (Hu & Hf & Hop).
    destruct (first_operand_rendered _ _ Hkids Hop) as (a0 & -> & Ha0 & _).
    unfold u_var. destruct (u n); try discriminate Hu.
    destruct cur_func; [|discriminate Hf]. cbn [Partial.bind].
    now apply WrapChild_defined.
  - (* Expr *)
    now apply DecompileExprType_defined.
Qed.

(** On a well-formed node the renderer returns a fragment. *)
Lemma DecompileExpr_defined (n : Node) :
  well_formed env (match cur_func with Some _ => true | None => false end) n
    = true ->
  exists val, render n = Some val.
Proof.
  induction n as [nt et x cs w IH] using Node_nested_ind.
  intros Hwf. apply well_formed_children in Hwf. destruct Hwf as [Hok Hcs].
  assert (Hkids : Forall (fun c => exists val, render c = Some val) cs).
  { clear Hok. induction IH as [|c cs Hc _ IHcs]; [constructor|].
    inversion Hcs; subst. constructor; [now apply Hc | now apply IHcs]. }
  destruct (render_children_defined cs Hkids) as (args & Hargs).
  rewrite DecompileExpr_unfold. simpl children. rewrite Hargs.
  cbn [Partial.bind].
  apply DecompileNode_defined; [exact Hok|].
  now apply render_children_Forall2.
Qed.

End Defined.

(** ** Fragments without lines, statements and their last characters *)

(** The nodes used as examples are well formed. *)
Example well_formed_examples :
  forallb (well_formed (Demo.env (fun _ => [])) false)
    [Demo.nested_add (Demo.opcode "i32.add"); Demo.if_operand;
     Demo.statements [];
     Demo.statements [Demo.local_get "x"; Demo.local_get "y}"]]
  = true
  /\ well_formed (Demo.env (fun _ => [])) false
       (Demo.statements [Demo.statements []]) = false
  /\ well_formed (Demo.env (fun _ => [])) false
       (Demo.statements [Demo.local_get ""]) = false.
Proof. repeat split. Qed.

(** A function without instructions, whose body the AST builder gives as a
    [Statements] node without children, is written with nothing between
    the braces. *)
Example empty_function_body :
  Decompile default_tunables (Demo.env (fun _ => [Demo.statements []]))
    Demo.empty_func_module
  = Some (Str.cat ["function f() {"; newline; "}"; newline; newline]).
Proof. reflexivity. Qed.

(** C2, as amended: on a well-formed node [DecompileExpr] returns a
    fragment, and the fragment it returns has at least one line unless the
    node is a [Statements] node without children, or a [Drop] of a node
    whose fragment has no line; a [Statements] node without children renders
    to a fragment without lines. *)
Theorem C2_DecompileExpr_lines
    (tn : Tunables) (env : Collaborators) (cur_func : option Func)
    (lst : LoadStoreTracking) (n : Node) (val : Value)
    (Hrender : DecompileExpr tn env cur_func lst n = Some val) :
  (v val = [] <-> renders_empty n = true)
  /\ (ntype n <> NodeType.Statements ->
      (ntype n = NodeType.Expr -> etype n <> ExprType.Drop) ->
      1 <= length (v val))
  /\ (forall n',
        well_formed env (match cur_func with Some _ => true | None => false end)
          n' = true ->
        exists val',
          DecompileExpr tn env cur_func lst n' = Some val'
          /\ (v val' = [] <-> renders_empty n' = true)).
Proof.
  split; [|split].
  - now apply (DecompileExpr_nil_iff tn env cur_func lst).
  - intros Hst Hdrop.
    rewrite DecompileExpr_unfold in Hrender. bind_inv Hrender.
    pose proof (DecompileNode_not_nil tn env cur_func lst n a val Hst Hdrop
                  Hrender) as Hne.
    destruct (v val); [congruence | simpl; lia].
  - intros n' Hwf.
    destruct (DecompileExpr_defined tn env cur_func lst n' Hwf) as (val' & H').
    exists val'. split; [exact H'|].
    now apply (DecompileExpr_nil_iff tn env cur_func lst).
Qed.

Lemma C2_DecompileExpr_lines_witness :
  (v (mkValue ["1 i32_add (2 i32_add 3)"] true) = []
   <-> renders_empty (Demo.nested_add (Demo.opcode "i32.add")) = true).
Proof.
  exact (proj1 (C2_DecompileExpr_lines default_tunables
                  (Demo.env (fun _ => [])) None Demo.lst
                  (Demo.nested_add (Demo.opcode "i32.add"))
                  (mkValue ["1 i32_add (2 i32_add 3)"] true) eq_refl)).
Defined.

(** C2 for every node fails: a [Statements] node with zero children
    renders to a fragment whose vector of lines is empty. *)
Lemma C2_empty_Statements_has_no_line :
  DecompileExpr default_tunables (Demo.env (fun _ => [])) None Demo.lst
    (Demo.statements [])
  = Some (mkValue [] false)
  /\ ~ (forall n val,
          DecompileExpr default_tunables (Demo.env (fun _ => [])) None
            Demo.lst n = Some val ->
          v val <> []).
Proof.
  split; [reflexivity|].
  intros Hall.
  exact (Hall (Demo.statements []) (mkValue [] false) eq_refl eq_refl).
Qed.

(** C4: a [Statements] node renders to the lines of its children in order,
    a [';'] added to each child's last line unless that line ends in ['}'];
    every statement's last line in the result ends with [';'] or ['}'].  The
    result is defined exactly when every child has a last character, which
    is so when the node is well formed. *)
Theorem C4_Statements_concatenates
    (tn : Tunables) (env : Collaborators) (cur_func : option Func)
    (lst : LoadStoreTracking) (n : Node) (args : list Value)
    (Hst : ntype n = NodeType.Statements)
    (Hargs : render_children tn env cur_func lst (children n) = Some args) :
  (Forall has_last_character args ->
   DecompileExpr tn env cur_func lst n
   = Some (mkValue (concat (map terminated_lines args)) false))
  /\ (forall val,
        DecompileExpr tn env cur_func lst n = Some val ->
        val = mkValue (concat (map terminated_lines args)) false
        /\ Forall
             (fun a =>
                exists init s s',
                  v a = init ++ [s]
                  /\ s' = (if ends_with "}" s then s else (s ++ ";")%string)
                  /\ terminated_lines a = init ++ [s']
                  /\ (ends_with ";" s' = true \/ ends_with "}" s' = true))
             args)
  /\ (well_formed env (match cur_func with Some _ => true | None => false end)
        n = true ->
      Forall has_last_character args).
Proof.
  split; [|split].
  - rewrite DecompileExpr_unfold, Hargs. simpl Partial.bind.
    unfold DecompileNode. rewrite Hst.
    intros Hlast. now rewrite (statements_loop_text args [] Hlast).
  - rewrite DecompileExpr_unfold, Hargs. simpl Partial.bind.
    unfold DecompileNode. rewrite Hst.
    intros val H. bind_inv H. injection H as <-.
    pose proof (statements_loop_defined _ _ _ Ha) as Hlast.
    rewrite (statements_loop_text args [] Hlast) in Ha.
    injection Ha as <-. split; [reflexivity|].
    eapply Forall_impl; [|exact Hlast].
    intros a0. apply terminated_lines_end.
  - intros Hwf. destruct n as [nt et x cs w]. simpl in Hst. subst nt.
    apply well_formed_children in Hwf. destruct Hwf as [Hok _].
    unfold node_ok in Hok. simpl in Hok.
    apply (statements_rendered tn env cur_func lst cs args);
      [now apply render_children_Forall2 | exact Hok].
Qed.

Lemma C4_Statements_concatenates_witness :
  DecompileExpr default_tunables (Demo.env (fun _ => [])) None Demo.lst
    (Demo.statements [Demo.local_get "x"; Demo.local_get "y}"])
  = Some (mkValue ["x;"; "y}"] false).
Proof.
  refine (proj1 (C4_Statements_concatenates default_tunables
                   (Demo.env (fun _ => [])) None Demo.lst
                   (Demo.statements [Demo.local_get "x"; Demo.local_get "y}"])
                   [mkValue ["x"] false; mkValue ["y}"] false]
                   eq_refl eq_refl) _).
  repeat constructor.
  - now exists "x", "x"%char.
  - now exists "y}", "}"%char.
Defined.

(** C8, as amended: in a [Statements] node in which no leaf has an empty
    text (the names of the variables read and the texts of the
    floating-point constants are not empty) and no child is an empty
    [Statements] (possibly below [Drop]s), every child that renders has a
    last line with a last character: both [.back()] accesses are in bounds
    and the node renders.  The children of a well-formed [Statements] node
    all render, and to such fragments. *)
Theorem C8_Statements_back_in_bounds
    (tn : Tunables) (env : Collaborators) (cur_func : option Func)
    (lst : LoadStoreTracking) (n : Node)
    (Hst : ntype n = NodeType.Statements) :
  (forall args,
     no_empty_atom env n = true ->
     Forall (fun c => renders_empty c = false) (children n) ->
     render_children tn env cur_func lst (children n) = Some args ->
     Forall has_last_character args
     /\ Forall (fun a => terminate_statement a = Some (terminated_lines a)) args
     /\ exists val, DecompileExpr tn env cur_func lst n = Some val)
  /\ (well_formed env (match cur_func with Some _ => true | None => false end)
        n = true ->
      exists args,
        render_children tn env cur_func lst (children n) = Some args
        /\ Forall has_last_character args
        /\ exists val, DecompileExpr tn env cur_func lst n = Some val).
Proof.
  split.
  - intros args Hatoms Hkids Hargs.
    assert (Hlast : Forall has_last_character args).
    { destruct n as [nt et x cs w]. simpl children in *.
      apply no_empty_atom_children in Hatoms. destruct Hatoms as [_ Hcs].
      apply render_children_Forall2 in Hargs.
      induction Hargs as [|c a cs args Hc _ IH]; [constructor|].
      inversion Hcs; subst. inversion Hkids; subst.
      constructor; [|now apply IH].
      apply lines_last_character.
      - intros Hv.
        apply (DecompileExpr_nil_iff tn env cur_func lst c a Hc) in Hv.
        congruence.
      - now apply (DecompileExpr_lines tn env cur_func lst c a). }
    split; [exact Hlast|]. split.
    + eapply Forall_impl; [|exact Hlast].
      intros a. apply terminate_statement_text.
    + rewrite DecompileExpr_unfold, Hargs. simpl Partial.bind.
      unfold DecompileNode. rewrite Hst.
      rewrite (statements_loop_text args [] Hlast). simpl. eauto.
  - intros Hwf.
    destruct (DecompileExpr_defined tn env cur_func lst n Hwf) as (val & Hval).
    pose proof Hval as Hargs. rewrite DecompileExpr_unfold in Hargs.
    bind_inv Hargs. exists a. split; [exact Ha|]. split; [|eauto].
    destruct n as [nt et x cs w]. simpl in Hst. subst nt.
    apply well_formed_children in Hwf. destruct Hwf as [Hok _].
    unfold node_ok in Hok. simpl in Hok.
    apply (statements_rendered tn env cur_func lst cs a);
      [now apply render_children_Forall2 | exact Hok].
Qed.

Lemma C8_Statements_back_in_bounds_witness :
  exists args,
    render_children default_tunables (Demo.env (fun _ => [])) None Demo.lst
      [Demo.local_get "x"; Demo.local_get "y}"] = Some args
    /\ Forall has_last_character args
    /\ exists val,
         DecompileExpr default_tunables (Demo.env (fun _ => [])) None Demo.lst
           (Demo.statements [Demo.local_get "x"; Demo.local_get "y}"])
         = Some val.
Proof.
  exact (proj2 (C8_Statements_back_in_bounds default_tunables
                  (Demo.env (fun _ => [])) None Demo.lst
                  (Demo.statements [Demo.local_get "x"; Demo.local_get "y}"])
                  eq_refl) eq_refl).
Defined.

(** C8 for every [Statements] node fails: the child [Statements] without children
    renders to a fragment without a last line, and the child that reads a
    variable with the empty name renders to a last line without a last
    character; in both cases the access of the enclosing [Statements] is out
    of range. *)
Lemma C8_child_without_last_character :
  (DecompileExpr default_tunables (Demo.env (fun _ => [])) None Demo.lst
     (Demo.statements [])
   = Some (mkValue [] false)
   /\ last_line (mkValue [] false) = None
   /\ DecompileExpr default_tunables (Demo.env (fun _ => [])) None Demo.lst
        (Demo.statements [Demo.statements []])
      = None)
  /\ (DecompileExpr default_tunables (Demo.env (fun _ => [])) None Demo.lst
        (Demo.local_get "")
      = Some (mkValue [""] false)
      /\ last_line (mkValue [""] false) = Some ""
      /\ Str.back "" = None
      /\ DecompileExpr default_tunables (Demo.env (fun _ => [])) None Demo.lst
           (Demo.statements [Demo.local_get ""])
         = None)
  /\ ~ (forall n args,
          ntype n = NodeType.Statements ->
          render_children default_tunables (Demo.env (fun _ => [])) None
            Demo.lst (children n) = Some args ->
          Forall has_last_character args).
Proof.
  split; [repeat split|]. split; [repeat split|].
  intros Hall.
  specialize (Hall (Demo.statements [Demo.statements []])
                [mkValue [] false] eq_refl eq_refl).
  inversion Hall as [|a l Ha _]; subst.
  destruct Ha as (s & c & Hs & _). discriminate.
Qed.

(** ** The width of the line and the tokens of the output *)

(** The two branches of the [If] case disagree on the flag: the single-line
    branch returns one line with the flag cleared, the multi-line branch
    returns at least two lines with the flag of the condition. *)
Lemma DecompileIf_flag (tn : Tunables) (false_ : ExprList) (args : list Value)
    (ifs val : Value) :
  nth_error args 0 = Some ifs ->
  DecompileIf tn false_ args = Some val ->
  (length (v val) = 1 /\ needs_bracketing val = false)
  \/ (2 <= length (v val) /\ needs_bracketing val = needs_bracketing ifs).
Proof.
  unfold DecompileIf. intros Hifs H. binds_inv H.
  rewrite Hifs in Ha1. injection Ha1 as <-.
  destruct a as [els|]; cbv beta iota zeta in H;
    destruct (_ || _)%bool; binds_inv H; inversion H; subst; simpl;
    try (left; split; reflexivity);
    right; (split; [|reflexivity]);
    apply update_back_not_nil in Ha2;
    rewrite !length_app; simpl;
    (destruct a1; [congruence | simpl; lia]).
Qed.

(** C5 fails on the code: the function whose value is
    [(if (a i32_lt_s b) x else y) i32_add 1] is written with the [if] in
    parentheses when the target width is 40 and without them when it is 200,
    so the two outputs differ also after every whitespace character is
    deleted.  The multi-line branch of the [If] case returns the condition's
    fragment with the condition's [needs_bracketing], which a comparison
    sets; the single-line branch returns a fragment with the flag cleared. *)
Theorem C5_If_bracketing_depends_on_width :
  Decompile (mkTunables 2 40) Demo.if_operand_env Demo.if_operand_module
  = Some (Str.cat
            ["function f():int {"; newline;
             "  return (if (a i32_lt_s b) {"; newline;
             "            xxxxxxxxxxxxxxx"; newline;
             "          } else {"; newline;
             "            yyyyyyyyyyyyyyy"; newline;
             "          }) i32_add "; newline;
             "         1"; newline;
             "}"; newline; newline])
  /\ Decompile (mkTunables 2 200) Demo.if_operand_env Demo.if_operand_module
     = Some (Str.cat
               ["function f():int {"; newline;
                "  return if (a i32_lt_s b) { xxxxxxxxxxxxxxx } else { yyyyyyyyyyyyyyy } i32_add 1";
                newline;
                "}"; newline; newline])
  /\ option_map strip_whitespace
       (Decompile (mkTunables 2 40) Demo.if_operand_env Demo.if_operand_module)
     = Some "functionf():int{return(if(ai32_lt_sb){xxxxxxxxxxxxxxx}else{yyyyyyyyyyyyyyy})i32_add1}"
  /\ option_map strip_whitespace
       (Decompile (mkTunables 2 200) Demo.if_operand_env Demo.if_operand_module)
     = Some "functionf():int{returnif(ai32_lt_sb){xxxxxxxxxxxxxxx}else{yyyyyyyyyyyyyyy}i32_add1}"
  /\ option_map strip_whitespace
       (Decompile (mkTunables 2 40) Demo.if_operand_env Demo.if_operand_module)
     <> option_map strip_whitespace
          (Decompile (mkTunables 2 200) Demo.if_operand_env
             Demo.if_operand_module).
Proof.
  split; [reflexivity|]. split; [reflexivity|].
  split; [reflexivity|]. split; [reflexivity|].
  vm_compute. discriminate.
Qed.

(** * Further properties of the layout and of the renderer *)

(** ** The text of the lines *)

Lemma strip_Indent (k : nat) : strip_whitespace (Indent k) = "".
Proof. induction k as [|k IH]; simpl; [reflexivity | exact IH]. Qed.

Lemma text_of_lines_app (a b : list string) :
  text_of_lines (a ++ b) = (text_of_lines a ++ text_of_lines b)%string.
Proof. unfold text_of_lines. now rewrite cat_app, StrFacts.strip_append. Qed.

Lemma text_of_lines_cons (s : string) (l : list string) :
  text_of_lines (s :: l) = (strip_whitespace s ++ text_of_lines l)%string.
Proof. unfold text_of_lines. simpl. now rewrite StrFacts.strip_append. Qed.

Lemma text_of_lines_one (s : string) :
  text_of_lines [s] = strip_whitespace s.
Proof.
  rewrite text_of_lines_cons. unfold text_of_lines. simpl.
  now rewrite StrFacts.append_nil_r.
Qed.

Lemma text_of_lines_indented (k : nat) (l : list string) :
  text_of_lines (map (fun s => (Indent k ++ s)%string) l) = text_of_lines l.
Proof.
  induction l as [|s l IH]; [reflexivity|].
  simpl map. rewrite !text_of_lines_cons, IH.
  now rewrite StrFacts.strip_append, strip_Indent.
Qed.

Lemma ends_with_append (c : ascii) (a b : string) :
  b <> "" -> ends_with c (a ++ b) = ends_with c b.
Proof. intros Hb. unfold ends_with. now rewrite StrFacts.back_append. Qed.

Lemma brace_snoc (l : list string) (s : string) (flag : bool) :
  brace (mkValue (l ++ [s]) flag) = ends_with "}" s.
Proof.
  unfold brace, last_line. simpl. now rewrite VecFacts.vec_back_snoc.
Qed.

Lemma brace_one (s : string) (flag : bool) :
  brace (mkValue [s] flag) = ends_with "}" s.
Proof. reflexivity. Qed.

Lemma brace_flag (l : list string) (flag flag' : bool) :
  brace (mkValue l flag) = brace (mkValue l flag').
Proof. reflexivity. Qed.

Lemma lines_snoc_cases {A : Type} (l : list A) :
  l = [] \/ exists init a, l = init ++ [a].
Proof.
  destruct l as [|a l _] using rev_ind; [now left | right; eauto].
Qed.

(** Appending to the last line. *)
Lemma update_back_text (q : string) (l w : list string) :
  Vec.update_back (fun s => (s ++ q)%string) l = Some w ->
  text_of_lines w = (text_of_lines l ++ strip_whitespace q)%string
  /\ forall flag,
       brace (mkValue w flag)
       = if Str.empty q then brace (mkValue l flag) else ends_with "}" q.
Proof.
  intros H. apply VecFacts.update_back_some in H.
  destruct H as (init & a & -> & ->). split.
  - rewrite !text_of_lines_app, !text_of_lines_one, StrFacts.strip_append.
    now rewrite StrFacts.append_assoc.
  - intros flag. rewrite !brace_snoc.
    destruct q as [|c q]; simpl Str.empty; cbv iota.
    + now rewrite StrFacts.append_nil_r.
    + now apply ends_with_append.
Qed.

(** Prepending to the first line. *)
Lemma update_front_text (p : string) (l w : list string) :
  Vec.update_front (fun s => (p ++ s)%string) l = Some w ->
  text_of_lines w = (strip_whitespace p ++ text_of_lines l)%string
  /\ (Forall (fun s => s <> "") l ->
      forall flag, brace (mkValue w flag) = brace (mkValue l flag)).
Proof.
  destruct l as [|a l]; [discriminate|]. simpl. intros [= <-]. split.
  - rewrite !text_of_lines_cons, StrFacts.strip_append.
    now rewrite StrFacts.append_assoc.
  - intros Hl flag. inversion Hl; subst.
    destruct (lines_snoc_cases l) as [-> | (init & b & ->)].
    + rewrite (brace_snoc [] (p ++ a)), (brace_snoc [] a).
      now apply ends_with_append.
    + rewrite !app_comm_cons, !brace_snoc. reflexivity.
Qed.

Lemma IndentValue_text (val : Value) (k : nat) (first : string) :
  v val <> [] ->
  text (IndentValue val k first) = (strip_whitespace first ++ text val)%string.
Proof.
  unfold text, IndentValue. intros Hv.
  destruct (v val) as [|l rest]; [congruence|]. simpl v.
  rewrite !text_of_lines_cons, text_of_lines_indented, StrFacts.strip_append.
  rewrite StrFacts.append_assoc. f_equal.
  destruct first; simpl Str.empty; cbv iota; [apply strip_Indent | reflexivity].
Qed.

Lemma IndentValue_text_plain (val : Value) (k : nat) :
  text (IndentValue val k "") = text val.
Proof.
  destruct (v val) as [|l rest] eqn:Hv.
  - unfold IndentValue. now rewrite Hv.
  - rewrite IndentValue_text by congruence. reflexivity.
Qed.

Lemma brace_eq_lines (val : Value) (l : list string) :
  v val = l -> brace val = brace (mkValue l false).
Proof. intros <-. reflexivity. Qed.

Lemma IndentValue_brace (val : Value) (k : nat) (first : string) :
  lines_not_empty val ->
  brace (IndentValue val k first) = brace val.
Proof.
  unfold lines_not_empty, IndentValue. intros Hl.
  destruct (v val) as [|l rest] eqn:Hv; [reflexivity|].
  rewrite (brace_eq_lines val _ Hv).
  rewrite (brace_flag _ (needs_bracketing val) false).
  inversion Hl; subst.
  destruct (lines_snoc_cases rest) as [-> | (init & b & ->)].
  - simpl map. rewrite !brace_one. now apply ends_with_append.
  - rewrite map_app. simpl map. rewrite !app_comm_cons, !brace_snoc.
    apply ends_with_append.
    apply Forall_app in H2. destruct H2 as [_ Hb]. now inversion Hb.
Qed.

Lemma IndentValue_usable (val : Value) (k : nat) (first : string) :
  usable val -> usable (IndentValue val k first).
Proof.
  intros [Hv Hl]. split.
  - now rewrite IndentValue_nil.
  - now apply IndentValue_lines.
Qed.

Lemma brace_app (l1 l2 : list string) (flag flag' : bool) :
  l2 <> [] -> brace (mkValue (l1 ++ l2) flag) = brace (mkValue l2 flag').
Proof.
  intros Hl. destruct (lines_snoc_cases l2) as [-> | (init & b & ->)];
    [congruence|].
  now rewrite app_assoc, !brace_snoc.
Qed.

Lemma brace_cons (s : string) (l : list string) (flag flag' : bool) :
  l <> [] -> brace (mkValue (s :: l) flag) = brace (mkValue l flag').
Proof. intros Hl. now apply (brace_app [s] l). Qed.

Lemma text_eq_lines (val : Value) (l : list string) :
  v val = l -> text val = text_of_lines l.
Proof. intros <-. reflexivity. Qed.

Lemma length_one_lines {A : Type} (l : list A) :
  (length l =? 1) = true -> exists a, l = [a].
Proof.
  destruct l as [|a [|b l]]; try discriminate. eauto.
Qed.

(** ** The text of what the layout primitives build *)

Section LayoutText.

Variable tn : Tunables.

Lemma WrapChild_summary (child : Value) (prefix postfix : string) (val : Value) :
  usable child ->
  WrapChild tn child prefix postfix = Some val ->
  text val
  = (strip_whitespace prefix ++ text child ++ strip_whitespace postfix)%string
  /\ brace val
     = (if Str.empty postfix then brace child else ends_with "}" postfix)
  /\ needs_bracketing val = needs_bracketing child.
Proof.
  intros [Hv Hl] H. unfold WrapChild in H.
  destruct (_ || _)%bool.
  - destruct (length (v child) =? 1) eqn:Hone.
    + apply length_one_lines in Hone. destruct Hone as (l & Hone).
      rewrite Hone in H. injection H as <-.
      rewrite (text_eq_lines child _ Hone), (brace_eq_lines child _ Hone).
      unfold text. simpl v. rewrite !text_of_lines_one, brace_one.
      rewrite !StrFacts.strip_append. repeat split.
      unfold lines_not_empty in Hl. rewrite Hone in Hl. inversion Hl; subst.
      rewrite (brace_one l false).
      destruct postfix as [|c q]; simpl Str.empty; cbv iota.
      * rewrite StrFacts.append_nil_r. now apply ends_with_append.
      * rewrite <- StrFacts.append_assoc. now apply ends_with_append.
    + bind_inv H. injection H as <-.
      destruct (update_back_text _ _ _ Ha) as [Ht Hb].
      unfold text. simpl v. rewrite Ht.
      fold (text (IndentValue child (String.length prefix) prefix)).
      rewrite IndentValue_text by exact Hv.
      rewrite StrFacts.append_assoc. split; [reflexivity|].
      split; [|unfold IndentValue; now destruct (v child)].
      rewrite Hb.
      destruct (Str.empty postfix); [|reflexivity].
      rewrite <- (IndentValue_brace child (String.length prefix) prefix Hl).
      reflexivity.
  - bind_inv H. injection H as <-.
    destruct (update_back_text _ _ _ Ha) as [Ht Hb].
    unfold text. simpl v. rewrite Ht, text_of_lines_cons.
    fold (text (IndentValue child (indent_amount tn) "")).
    rewrite IndentValue_text_plain.
    rewrite StrFacts.append_assoc. split; [reflexivity|].
    split; [|unfold IndentValue; now destruct (v child)].
    rewrite Hb.
    destruct (Str.empty postfix); [|reflexivity].
    rewrite (brace_cons _ _ _ (needs_bracketing
                                 (IndentValue child (indent_amount tn) "")))
      by (now rewrite IndentValue_nil).
    rewrite <- (IndentValue_brace child (indent_amount tn) "" Hl).
    reflexivity.
Qed.

Lemma WrapChild_usable (child : Value) (prefix postfix : string) (val : Value) :
  prefix <> "" ->
  usable child ->
  WrapChild tn child prefix postfix = Some val ->
  usable val.
Proof.
  intros Hp [Hv Hl] H. split.
  - exact (WrapChild_not_nil tn _ _ _ _ H).
  - exact (WrapChild_lines tn _ _ _ _ Hp Hl H).
Qed.

Lemma BracketIfNeeded_summary (val val' : Value) :
  usable val ->
  BracketIfNeeded tn val = Some val' ->
  text val' = bracketed_text val
  /\ brace val' = (if needs_bracketing val then false else brace val)
  /\ needs_bracketing val' = false
  /\ usable val'.
Proof.
  intros Hu H. unfold BracketIfNeeded, bracketed_text in *.
  destruct (needs_bracketing val) eqn:Hflag; simpl negb in H; cbv iota in H.
  - bind_inv H. injection H as <-.
    destruct (WrapChild_summary _ _ _ _ Hu Ha) as (Ht & Hb & _).
    assert (Hu' : usable a)
      by (apply (WrapChild_usable val "(" ")" a); [discriminate | exact Hu | exact Ha]).
    repeat split; try assumption; apply Hu'.
  - injection H as <-. now repeat split; try apply Hu.
Qed.

Lemma WrapBinary_summary (l r : Value) (infix : string) (indent_right : bool)
    (val : Value) :
  usable l -> usable r ->
  WrapBinary tn [l; r] infix indent_right = Some val ->
  text val
  = (bracketed_text l ++ strip_whitespace infix ++ bracketed_text r)%string
  /\ brace val = (if needs_bracketing r then false else brace r)
  /\ needs_bracketing val = true.
Proof.
  intros Hl Hr H. unfold WrapBinary in H. simpl in H.
  bind_inv H. rename a into l', Ha into Hl'.
  bind_inv H. rename a into r', Ha into Hr'.
  destruct (BracketIfNeeded_summary _ _ Hl Hl') as (Htl & _ & _ & Hul).
  destruct (BracketIfNeeded_summary _ _ Hr Hr') as (Htr & Hbr & _ & Hur).
  rewrite <- Htl, <- Htr, <- Hbr.
  destruct (_ && _)%bool eqn:Hc.
  - rewrite !andb_true_iff in Hc. destruct Hc as [[_ H1] H2].
    apply length_one_lines in H1. destruct H1 as (l0 & Hl0).
    apply length_one_lines in H2. destruct H2 as (r0 & Hr0).
    rewrite Hl0, Hr0 in H. simpl in H. injection H as <-.
    rewrite (text_eq_lines l' _ Hl0), (text_eq_lines r' _ Hr0),
      (brace_eq_lines r' _ Hr0).
    unfold text. simpl v. rewrite !text_of_lines_one, !brace_one.
    rewrite !StrFacts.strip_append. repeat split.
    rewrite <- StrFacts.append_assoc. apply ends_with_append.
    destruct Hur as [_ Hur]. unfold lines_not_empty in Hur.
    rewrite Hr0 in Hur. now inversion Hur.
  - bind_inv H. injection H as <-.
    destruct (update_back_text _ _ _ Ha) as [Ht _].
    set (right' := if indent_right
                   then IndentValue r' (indent_amount tn) "" else r').
    assert (Hright : text right' = text r' /\ brace right' = brace r'
                     /\ v right' <> []).
    { subst right'. destruct indent_right.
      - rewrite IndentValue_text_plain, IndentValue_brace, IndentValue_nil;
          [repeat split|]; apply Hur.
      - repeat split. apply Hur. }
    destruct Hright as (Ht' & Hb' & Hv').
    unfold text at 1. simpl v.
    rewrite text_of_lines_app, Ht. fold (text l'). fold (text right').
    rewrite Ht', StrFacts.append_assoc. repeat split.
    rewrite (brace_app _ _ _ (needs_bracketing right') Hv').
    rewrite <- Hb'. now destruct right'.
Qed.

End LayoutText.

(** ** The text of an argument list *)

Lemma concat_two (sep x y : string) (l : list string) :
  String.concat sep (x :: y :: l)
  = (x ++ sep ++ String.concat sep (y :: l))%string.
Proof. reflexivity. Qed.

Lemma strip_concat_comma (xs : list string) :
  strip_whitespace (String.concat ", " xs)
  = String.concat "," (map strip_whitespace xs).
Proof.
  induction xs as [|x [|y l] IH]; [reflexivity | reflexivity |].
  rewrite concat_two, !StrFacts.strip_append, IH. reflexivity.
Qed.

Lemma vec_back_cons {A : Type} (a : A) (l : list A) :
  l <> [] -> Vec.back (a :: l) = Vec.back l.
Proof.
  intros Hl. destruct (lines_snoc_cases l) as [-> | (init & b & ->)];
    [congruence|].
  now rewrite app_comm_cons, !VecFacts.vec_back_snoc.
Qed.

Lemma concat_not_nil (sep : string) (xs : list string) (y : string) :
  Vec.back xs = Some y -> y <> "" -> String.concat sep xs <> "".
Proof.
  intros Hback Hy. induction xs as [|x [|x' l] IH]; [discriminate | |].
  - injection Hback as ->. exact Hy.
  - rewrite vec_back_cons in Hback by discriminate.
    rewrite concat_two.
    now apply StrFacts.append_not_nil_r, StrFacts.append_not_nil_r, IH.
Qed.

Lemma ends_with_concat (c : ascii) (sep : string) (xs : list string) (y : string) :
  Vec.back xs = Some y -> y <> "" ->
  ends_with c (String.concat sep xs) = ends_with c y.
Proof.
  intros Hback Hy. induction xs as [|x [|x' l] IH]; [discriminate | |].
  - injection Hback as ->. reflexivity.
  - rewrite vec_back_cons in Hback by discriminate.
    rewrite concat_two, <- StrFacts.append_assoc.
    rewrite ends_with_append; [now apply IH|].
    now apply (concat_not_nil sep _ y).
Qed.

Section NAryText.

Variable tn : Tunables.

Lemma single_line_text (a : Value) :
  v a <> [] -> (length (v a) <=? 1) = true ->
  text a = strip_whitespace (first_line a)
  /\ brace a = ends_with "}" (first_line a).
Proof.
  intros Hv Hlen. unfold first_line.
  destruct (v a) as [|l [|l' rest]] eqn:Ha; try congruence; try discriminate.
  rewrite (text_eq_lines a _ Ha), (brace_eq_lines a _ Ha).
  now rewrite text_of_lines_one, brace_one.
Qed.

Lemma WrapNAry_single_summary (args : list Value) (prefix postfix : string) :
  Forall usable args ->
  no_arg_multiline args = true ->
  let line := single_line_form args prefix postfix in
  strip_whitespace line
  = (strip_whitespace prefix ++ String.concat "," (map text args)
       ++ strip_whitespace postfix)%string
  /\ ends_with "}" line = nary_brace args prefix postfix.
Proof.
  intros Hargs Hsingle. cbv zeta. unfold single_line_form.
  assert (Hmap : map strip_whitespace (map first_line args) = map text args).
  { clear prefix postfix. induction Hargs as [|a args [Ha _] _ IH]; [reflexivity|].
    simpl in Hsingle. apply andb_true_iff in Hsingle.
    destruct Hsingle as [H1 H2]. simpl.
    rewrite (IH H2). now destruct (single_line_text a Ha H1) as [-> _]. }
  split.
  - rewrite !StrFacts.strip_append, strip_concat_comma, Hmap. reflexivity.
  - unfold nary_brace.
    destruct postfix as [|c q]; simpl Str.empty; cbv iota.
    + rewrite StrFacts.append_nil_r.
      destruct (Vec.back args) as [a|] eqn:Hback.
      * apply VecFacts.vec_back_some in Hback. destruct Hback as (init & ->).
        apply Forall_app in Hargs. destruct Hargs as [_ Ha].
        inversion Ha as [|? ? [Hv Hl] _]; subst.
        unfold no_arg_multiline in Hsingle. rewrite forallb_app in Hsingle.
        apply andb_true_iff in Hsingle. destruct Hsingle as [_ H1].
        simpl in H1. rewrite andb_true_r in H1.
        destruct (single_line_text a Hv H1) as [_ ->].
        assert (Hne : first_line a <> "").
        { unfold first_line. unfold lines_not_empty in Hl.
          destruct (v a); [congruence | now inversion Hl]. }
        assert (Hlast : Vec.back (map first_line (init ++ [a]))
                        = Some (first_line a))
          by (rewrite map_app; simpl; apply VecFacts.vec_back_snoc).
        rewrite ends_with_append.
        -- now apply ends_with_concat.
        -- now apply (concat_not_nil ", " _ (first_line a)).
      * apply VecFacts.vec_back_none in Hback. subst. simpl.
        now rewrite StrFacts.append_nil_r.
    + rewrite <- StrFacts.append_assoc. now apply ends_with_append.
Qed.

End NAryText.

Section NAryMultiText.

Variable tn : Tunables.

Lemma nary_multi_loop_text (size : nat) (ident : bool) (prefix : string)
    (args : list Value) :
  Forall usable args ->
  forall (i : nat) (ml lines : list string),
    i + length args = size ->
    nary_multi_loop tn size ident prefix i ml args = Some lines ->
    text_of_lines lines
    = (text_of_lines ml
         ++ (if ((i =? 0)%nat && ident)%bool
             then match args with
                  | [] => ""
                  | _ :: _ => strip_whitespace prefix
                  end
             else "")
         ++ String.concat "," (map text args))%string
    /\ forall flag,
         brace (mkValue lines flag)
         = match Vec.back args with
           | Some a => brace a
           | None => brace (mkValue ml flag)
           end.
Proof.
  induction 1 as [|a rest Ha Hrest IH]; intros i ml lines Hsize H.
  - simpl in H. injection H as <-. split.
    + simpl. destruct ((i =? 0) && ident); now rewrite !StrFacts.append_nil_r.
    + reflexivity.
  - cbn [nary_multi_loop] in H.
    set (first := if (i =? 0) && ident then prefix else "") in H.
    set (k := if ident then String.length prefix else indent_amount tn) in H.
    pose proof (IndentValue_usable a k first Ha) as Hchild.
    assert (Htext1 : text (IndentValue a k first)
                     = (strip_whitespace first ++ text a)%string)
      by (apply IndentValue_text, Ha).
    assert (Hbrace1 : brace (IndentValue a k first) = brace a)
      by (apply IndentValue_brace, Ha).
    assert (Hfirst : strip_whitespace first
                     = if (i =? 0) && ident then strip_whitespace prefix else "")
      by (subst first; now destruct ((i =? 0) && ident)).
    destruct rest as [|b rest'].
    + (* the last argument gets no comma *)
      simpl length in Hsize.
      replace (i <? size - 1) with false in H
        by (symmetry; apply Nat.ltb_ge; lia).
      simpl in H. injection H as <-. split.
      * rewrite text_of_lines_app. fold (text (IndentValue a k first)).
        rewrite Htext1, Hfirst. simpl map.
        destruct ((i =? 0) && ident); reflexivity.
      * intros flag. change (Vec.back [a]) with (Some a). cbv iota.
        rewrite (brace_app _ _ _ (needs_bracketing (IndentValue a k first)))
          by apply Hchild.
        rewrite <- Hbrace1. now destruct (IndentValue a k first).
    + simpl length in Hsize.
      replace (i <? size - 1) with true in H
        by (symmetry; apply Nat.ltb_lt; lia).
      bind_inv H. rename a0 into w, Ha0 into Hw.
      destruct (update_back_text _ _ _ Hw) as [Htw _].
      destruct (IH (S i) (ml ++ w) lines ltac:(simpl; lia) H) as [Ht Hb].
      split.
      * rewrite Ht, text_of_lines_app, Htw.
        fold (text (IndentValue a k first)). rewrite Htext1, Hfirst.
        simpl (S i =? 0). cbv iota. simpl andb. cbv iota.
        change (map text (a :: b :: rest'))
          with (text a :: text b :: map text rest').
        rewrite concat_two. change (map text (b :: rest'))
          with (text b :: map text rest').
        simpl strip_whitespace.
        destruct ((i =? 0) && ident); simpl;
          now rewrite !StrFacts.append_assoc.
      * intros flag. rewrite Hb.
        rewrite (vec_back_cons a (b :: rest')) by discriminate.
        destruct (Vec.back (b :: rest')) eqn:E; [reflexivity|].
        now apply VecFacts.vec_back_none in E.
Qed.

(** Both layouts of [WrapNAry] hold the same text. *)
Lemma WrapNAry_summary (args : list Value) (prefix postfix : string)
    (val : Value) :
  Forall usable args ->
  WrapNAry tn args prefix postfix = Some val ->
  text val
  = (strip_whitespace prefix ++ String.concat "," (map text args)
       ++ strip_whitespace postfix)%string
  /\ brace val = nary_brace args prefix postfix
  /\ needs_bracketing val = false.
Proof.
  intros Hargs H.
  assert (Hne : Forall (fun a => v a <> []) args)
    by (eapply Forall_impl; [|exact Hargs]; now intros a [Ha _]).
  destruct (single_line_cond tn args prefix postfix) eqn:Hc.
  - rewrite (WrapNAry_single_form tn args prefix postfix Hne Hc) in H.
    injection H as <-.
    assert (Hsingle : no_arg_multiline args = true).
    { unfold single_line_cond in Hc. apply orb_true_iff in Hc.
      destruct Hc as [Hc | Hc].
      - destruct args; [reflexivity | discriminate].
      - now apply andb_true_iff in Hc. }
    destruct (WrapNAry_single_summary args prefix postfix Hargs Hsingle)
      as [Ht Hb].
    unfold text. simpl v. rewrite text_of_lines_one, brace_one.
    now repeat split.
  - unfold WrapNAry in H. rewrite nary_measure_eq in H. cbv beta iota in H.
    rewrite single_line_cond_branch, Hc in H.
    assert (Hargs_ne : args <> []) by (intros ->; discriminate).
    bind_inv H. rename a into ml, Ha into Hml.
    bind_inv H. rename a into w, Ha into Hw. injection H as <-.
    destruct (nary_multi_loop_text _ _ _ _ Hargs 0 [] ml eq_refl Hml)
      as [Ht Hb].
    destruct (update_back_text _ _ _ Hw) as [Htw Hbw].
    assert (Hback : exists a, Vec.back args = Some a).
    { destruct (Vec.back args) eqn:E; [eauto|].
      now apply VecFacts.vec_back_none in E. }
    destruct Hback as (alast & Hlast).
    assert (Hml_ne : ml <> []).
    { pose proof (nary_multi_loop_lines tn (length args)
                    (max_of_widths args + String.length prefix
                       <? target_exp_width tn) prefix args 0 [] Hne)
        as (ml' & Hml' & Hlen).
      rewrite Hml in Hml'. injection Hml' as <-.
      pose proof (total_lines_ge args Hne).
      destruct args; [congruence|]. destruct ml; simpl in *; [lia | discriminate]. }
    unfold text. simpl v. rewrite Htw. repeat split.
    + destruct (max_of_widths args + String.length prefix <? target_exp_width tn);
        simpl negb; cbv iota.
      * rewrite Ht. simpl andb. cbv iota.
        destruct args; [congruence|].
        unfold text_of_lines at 1. simpl.
        now rewrite !StrFacts.append_assoc.
      * rewrite text_of_lines_cons, Ht. simpl andb. cbv iota.
        unfold text_of_lines at 1. simpl.
        now rewrite !StrFacts.append_assoc.
    + rewrite Hbw. unfold nary_brace. rewrite Hlast.
      destruct (Str.empty postfix); [|reflexivity].
      destruct (negb _).
      * rewrite (brace_cons _ _ _ false Hml_ne), Hb, Hlast. reflexivity.
      * rewrite Hb, Hlast. reflexivity.
Qed.

End NAryMultiText.

(** ** The text of loads, blocks, conditionals and statements *)

Section RendererText.

Variable tn : Tunables.
Variable env : Collaborators.
Variable lst : LoadStoreTracking.

Lemma LoadStore_suffix_not_nil (addr_exp : Node) (offset : Z) (opc : Opcode)
    (align : Z) (op_type : Type_.t) :
  LoadStore_suffix env lst addr_exp offset opc align op_type <> "".
Proof.
  unfold LoadStore_suffix. destruct (negb _); discriminate.
Qed.

Lemma LoadStore_summary (val : Value) (addr_exp : Node) (offset : Z)
    (opc : Opcode) (align : Z) (op_type : Type_.t) (val' : Value) :
  usable val ->
  LoadStore tn env lst val addr_exp offset opc align op_type = Some val' ->
  text val'
  = (bracketed_text val
       ++ strip_whitespace
            (LoadStore_suffix env lst addr_exp offset opc align op_type))%string
  /\ brace val'
     = ends_with "}" (LoadStore_suffix env lst addr_exp offset opc align op_type)
  /\ needs_bracketing val' = false
  /\ usable val'.
Proof.
  intros Hu H.
  assert (Hu' : usable val').
  { split; [exact (LoadStore_not_nil tn env lst _ _ _ _ _ _ _ H)|].
    exact (LoadStore_lines tn env lst _ _ _ _ _ _ _ (proj2 Hu) H). }
  unfold LoadStore in H. bind_inv H. rename a into val1.
  bind_inv H. injection H as <-.
  destruct (BracketIfNeeded_summary tn _ _ Hu Ha) as (Ht & _ & Hflag & _).
  destruct (update_back_text _ _ _ Ha0) as [Htw Hbw].
  unfold text at 1. simpl v. rewrite Htw. fold (text val1). rewrite Ht.
  repeat split; try apply Hu'; [|exact Hflag].
  rewrite Hbw.
  pose proof (LoadStore_suffix_not_nil addr_exp offset opc align op_type) as Hs.
  apply StrFacts.empty_false in Hs. now rewrite Hs.
Qed.

Lemma Block_summary (val : Value) (label name : string) :
  text (Block tn val label name)
  = (strip_whitespace (Str.cat [name; " "; label; " {"]) ++ text val ++ "}")%string
  /\ brace (Block tn val label name) = true
  /\ needs_bracketing (Block tn val label name) = needs_bracketing val.
Proof.
  unfold Block. repeat split.
  - unfold text at 1. simpl v.
    rewrite text_of_lines_cons, text_of_lines_app, text_of_lines_one.
    fold (text (IndentValue val (indent_amount tn) "")).
    now rewrite IndentValue_text_plain.
  - simpl needs_bracketing. rewrite app_comm_cons. apply brace_snoc.
  - simpl. unfold IndentValue. now destruct (v val).
Qed.

Lemma single_line_of (a : Value) :
  v a <> [] -> (1 <? length (v a)) = false -> exists l, v a = [l].
Proof.
  intros Hv Hlen. apply Nat.ltb_ge in Hlen.
  destruct (v a) as [|l [|l' rest]]; [congruence | eauto | simpl in Hlen; lia].
Qed.

Lemma DecompileIf_multiline_text (c t : Value) (rest w0 w1 : list string)
    (flag : bool) :
  Vec.update_front (fun s => ("if (" ++ s)%string) (v c) = Some w0 ->
  Vec.update_back (fun s => (s ++ ") {")%string) w0 = Some w1 ->
  text (mkValue
          ((w1 ++ v (IndentValue t (indent_amount tn) "")) ++ rest ++ ["}"])
          flag)
  = ("if(" ++ text c ++ "){" ++ text t ++ text_of_lines rest ++ "}")%string
  /\ brace (mkValue
              ((w1 ++ v (IndentValue t (indent_amount tn) "")) ++ rest ++ ["}"])
              flag) = true.
Proof.
  intros H0 H1.
  destruct (update_front_text _ _ _ H0) as [Ht0 _].
  destruct (update_back_text _ _ _ H1) as [Ht1 _].
  split.
  - unfold text at 1. simpl v.
    rewrite !text_of_lines_app, text_of_lines_one, Ht1, Ht0.
    fold (text (IndentValue t (indent_amount tn) "")). fold (text c).
    rewrite IndentValue_text_plain.
    change (strip_whitespace "if (") with "if(".
    change (strip_whitespace ") {") with "){".
    change (strip_whitespace "}") with "}".
    now rewrite !StrFacts.append_assoc.
  - rewrite app_assoc. apply brace_snoc.
Qed.

Lemma if_line_text (i0 t0 : string) :
  strip_whitespace (Str.cat ["if ("; i0; ") { "; t0; " }"])
  = ("if(" ++ strip_whitespace i0 ++ "){" ++ strip_whitespace t0 ++ "}")%string
  /\ ends_with "}" (Str.cat ["if ("; i0; ") { "; t0; " }"]) = true.
Proof.
  unfold Str.cat. cbn [fold_right]. rewrite StrFacts.append_nil_r. split.
  - now rewrite !StrFacts.strip_append.
  - rewrite <- !StrFacts.append_assoc. now rewrite ends_with_append.
Qed.

Lemma if_else_line_text (i0 t0 e0 : string) :
  strip_whitespace
    (Str.cat ["if ("; i0; ") { "; t0; " }"] ++ Str.cat [" else { "; e0; " }"])
  = ("if(" ++ strip_whitespace i0 ++ "){" ++ strip_whitespace t0 ++ "}"
       ++ "else{" ++ strip_whitespace e0 ++ "}")%string
  /\ ends_with "}"
       (Str.cat ["if ("; i0; ") { "; t0; " }"]
          ++ Str.cat [" else { "; e0; " }"]) = true.
Proof.
  unfold Str.cat. cbn [fold_right]. rewrite !StrFacts.append_nil_r. split.
  - rewrite !StrFacts.strip_append.
    change (strip_whitespace "if (") with "if(".
    change (strip_whitespace ") { ") with "){".
    change (strip_whitespace " }") with "}".
    change (strip_whitespace " else { ") with "else{".
    now rewrite !StrFacts.append_assoc.
  - rewrite <- !StrFacts.append_assoc. now rewrite ends_with_append.
Qed.

Lemma DecompileIf_summary (false_ : ExprList) (args : list Value) (val : Value) :
  (forall a, nth_error args 0 = Some a -> usable a) ->
  (forall a, nth_error args 1 = Some a -> usable a) ->
  (negb (length false_ =? 0) = true ->
   forall a, nth_error args 2 = Some a -> usable a) ->
  DecompileIf tn false_ args = Some val ->
  exists c t els,
    nth_error args 0 = Some c /\ nth_error args 1 = Some t
    /\ els = (if negb (length false_ =? 0)
              then nth_error args 2 else None)
    /\ text val = if_text c t els
    /\ brace val = true.
Proof.
  unfold DecompileIf. intros Hargs0 Hargs1 Hargs2 H.
  bind_inv H. rename a into els, Ha into Hels.
  bind_inv H. rename a into t, Ha into Ht.
  bind_inv H. rename a into c, Ha into Hc.
  exists c, t, els. split; [exact Hc|]. split; [exact Ht|].
  pose proof (Hargs0 _ Hc) as Huc.
  pose proof (Hargs1 _ Ht) as Hut.
  assert (Hels' : els = (if negb (length false_ =? 0)
                         then nth_error args 2 else None)
                  /\ match els with Some el => usable el | None => True end).
  { destruct (negb _).
    - bind_inv Hels. injection Hels as <-. split; [now rewrite Ha|].
      exact (Hargs2 eq_refl _ Ha).
    - injection Hels as <-. now split. }
  destruct Hels' as [Heq Hue]. split; [exact Heq|].
  unfold if_text.
  destruct els as [el|]; cbv beta iota zeta in H.
  - destruct ((_ || _) || _)%bool eqn:Hm.
    + bind_inv H. rename a into w0, Ha into H0.
      bind_inv H. rename a into w1, Ha into H1. injection H as <-.
      destruct (DecompileIf_multiline_text c t
                  (["} else {"] ++ v (IndentValue el (indent_amount tn) ""))
                  w0 w1 (needs_bracketing c) H0 H1) as [Htext Hbrace].
      replace ((((w1 ++ v (IndentValue t (indent_amount tn) ""))
                   ++ ["} else {"])
                  ++ v (IndentValue el (indent_amount tn) "")) ++ ["}"])
        with ((w1 ++ v (IndentValue t (indent_amount tn) ""))
                ++ (["} else {"] ++ v (IndentValue el (indent_amount tn) ""))
                ++ ["}"])
        by (now rewrite <- !app_assoc).
      rewrite Htext, Hbrace. split; [|reflexivity].
      simpl app. rewrite text_of_lines_cons.
      fold (text (IndentValue el (indent_amount tn) "")).
      rewrite IndentValue_text_plain.
      change (strip_whitespace "} else {") with "}else{".
      now rewrite !StrFacts.append_assoc.
    + rewrite !orb_false_iff in Hm. destruct Hm as [[[Hm1 Hm2] Hm3] _].
      destruct (single_line_of c (proj1 Huc) Hm1) as (i0 & Hi0).
      destruct (single_line_of t (proj1 Hut) Hm2) as (t0 & Ht0).
      destruct (single_line_of el (proj1 Hue) Hm3) as (e0 & He0).
      rewrite Hi0, Ht0, He0 in H. cbn [nth_error Partial.bind] in H.
      injection H as <-.
      rewrite (text_eq_lines c _ Hi0), (text_eq_lines t _ Ht0),
        (text_eq_lines el _ He0).
      unfold text. cbn [v]. rewrite !text_of_lines_one, brace_one.
      exact (if_else_line_text i0 t0 e0).
  - destruct (_ || _)%bool eqn:Hm.
    + bind_inv H. rename a into w0, Ha into H0.
      bind_inv H. rename a into w1, Ha into H1. injection H as <-.
      destruct (DecompileIf_multiline_text c t [] w0 w1
                  (needs_bracketing c) H0 H1) as [Htext Hbrace].
      simpl app in Htext, Hbrace.
      rewrite Htext, Hbrace. split; [|reflexivity].
      now rewrite !StrFacts.append_nil_r.
    + rewrite !orb_false_iff in Hm. destruct Hm as [[Hm1 Hm2] _].
      destruct (single_line_of c (proj1 Huc) Hm1) as (i0 & Hi0).
      destruct (single_line_of t (proj1 Hut) Hm2) as (t0 & Ht0).
      rewrite Hi0, Ht0 in H. cbn [nth_error Partial.bind] in H.
      injection H as <-.
      rewrite (text_eq_lines c _ Hi0), (text_eq_lines t _ Ht0).
      unfold text. cbn [v]. rewrite !text_of_lines_one, brace_one.
      rewrite StrFacts.append_nil_r.
      exact (if_line_text i0 t0).
Qed.

End RendererText.

(** ** The text of a sequence of statements *)

Lemma text_of_lines_concat (ls : list (list string)) :
  text_of_lines (concat ls) = Str.cat (map text_of_lines ls).
Proof.
  induction ls as [|l ls IH]; [reflexivity|].
  simpl. now rewrite text_of_lines_app, IH.
Qed.

Lemma terminated_lines_summary (a : Value) :
  has_last_character a ->
  text_of_lines (terminated_lines a) = statement_text a
  /\ terminated_lines a <> []
  /\ forall flag, brace (mkValue (terminated_lines a) flag) = brace a.
Proof.
  intros Ha.
  destruct (terminated_lines_end a Ha) as (init & s & s' & Hv & Hs' & Ht & _).
  rewrite Ht. unfold statement_text.
  rewrite (text_eq_lines a _ Hv), (brace_eq_lines a _ Hv).
  rewrite !text_of_lines_app, !text_of_lines_one, !brace_snoc.
  split; [|split].
  - subst s'. destruct (ends_with "}" s).
    + now rewrite StrFacts.append_nil_r.
    + now rewrite StrFacts.strip_append, StrFacts.append_assoc.
  - now destruct init.
  - intros flag. rewrite brace_snoc. subst s'.
    destruct (ends_with "}" s) eqn:He; [exact He|].
    now rewrite ends_with_append.
Qed.

Lemma Statements_summary (args : list Value) :
  Forall has_last_character args ->
  text (mkValue (concat (map terminated_lines args)) false)
  = Str.cat (map statement_text args)
  /\ brace (mkValue (concat (map terminated_lines args)) false)
     = match Vec.back args with
       | Some a => brace a
       | None => false
       end.
Proof.
  intros Hargs. split.
  - unfold text. simpl v. rewrite text_of_lines_concat, map_map. f_equal.
    induction Hargs as [|a args Ha _ IH]; [reflexivity|].
    simpl. rewrite IH. f_equal.
    now destruct (terminated_lines_summary a Ha) as [-> _].
  - induction Hargs as [|a args Ha Hrest IH]; [reflexivity|].
    destruct (terminated_lines_summary a Ha) as (_ & Hne & Hb).
    simpl map. simpl concat.
    destruct args as [|b args'].
    + simpl. rewrite app_nil_r. apply Hb.
    + rewrite (vec_back_cons a (b :: args')) by discriminate.
      rewrite <- IH. apply brace_app.
      inversion Hrest as [|? ? Hb' _]; subst.
      destruct (terminated_lines_summary b Hb') as (_ & Hne' & _).
      simpl. intros E. apply app_eq_nil in E. tauto.
Qed.

(** ** The flag of a fragment that no layout can change *)

Section StaticFlag.

Variable tn : Tunables.
Variable env : Collaborators.
Variable cur_func : option Func.
Variable lst : LoadStoreTracking.

Local Notation "'render'" := (DecompileExpr tn env cur_func lst).

Lemma WrapChild_flag (child : Value) (prefix postfix : string) (val : Value) :
  WrapChild tn child prefix postfix = Some val ->
  needs_bracketing val = needs_bracketing child.
Proof.
  unfold WrapChild, IndentValue. intros H.
  destruct (_ || _)%bool; [destruct (length (v child) =? 1)|];
    destruct (v child); binds_inv H; try discriminate;
    now inversion H.
Qed.

Lemma WrapNAry_flag (args : list Value) (prefix postfix : string) (val : Value) :
  WrapNAry tn args prefix postfix = Some val -> needs_bracketing val = false.
Proof.
  unfold WrapNAry. destruct (nary_measure args) as [[t m] b]. intros H.
  destruct (_ && _)%bool; binds_inv H; now inversion H.
Qed.

Lemma LoadStore_flag (val : Value) (addr_exp : Node) (offset : Z)
    (opc : Opcode) (align : Z) (op_type : Type_.t) (val' : Value) :
  LoadStore tn env lst val addr_exp offset opc align op_type = Some val' ->
  needs_bracketing val' = false.
Proof.
  unfold LoadStore, BracketIfNeeded. intros H. bind_inv H.
  bind_inv H. injection H as <-. simpl.
  destruct (needs_bracketing val) eqn:E; simpl in Ha.
  - bind_inv Ha. now inversion Ha.
  - now inversion Ha; subst.
Qed.

Lemma DecompileConst_flag (c : Const) (val : Value) :
  DecompileConst env c = Some val -> needs_bracketing val = false.
Proof.
  unfold DecompileConst. destruct (const_type c); intros H;
    try discriminate; now inversion H.
Qed.

Lemma DecompileExpr_flag (n : Node) :
  forall val b,
    render n = Some val -> static_flag n = Some b ->
    needs_bracketing val = b.
Proof.
  induction n as [nt et x cs w IH] using Node_nested_ind.
  intros val b H Hs. rewrite DecompileExpr_unfold in H. simpl children in H.
  bind_inv H. rename a into args, Ha into Hargs.
  assert (Hfirst : forall a0,
             nth_error args 0 = Some a0 ->
             forall b0,
               match cs with c :: _ => static_flag c | [] => None end
               = Some b0 ->
               needs_bracketing a0 = b0).
  { intros a0 Ha0 b0 Hb0. destruct cs as [|c cs']; [discriminate|].
    apply render_children_cons in Hargs.
    destruct Hargs as (a & rest & -> & Hc & _).
    simpl in Ha0. injection Ha0 as <-.
    exact (Forall_inv IH a b0 Hc Hb0). }
  unfold DecompileNode in H. simpl ntype in H. simpl static_flag in Hs.
  destruct nt; binds_inv H; try discriminate H;
    try (injection Hs as <-);
    try (now inversion H);
    try (exact (WrapNAry_flag _ _ _ _ H)).
  - (* DeclInit *)
    rewrite (WrapChild_flag _ _ _ _ H). now apply Hfirst.
  - (* Expr *)
    unfold DecompileExprType, Set_ in H. simpl etype in H.
    destruct et; binds_inv H; try discriminate H;
      try (injection Hs as <-);
      try (now inversion H);
      try (exact (WrapNAry_flag _ _ _ _ H));
      try (exact (WrapBinary_needs_bracketing _ _ _ _ _ H));
      try (exact (DecompileConst_flag _ _ H));
      try (rewrite (WrapChild_flag _ _ _ _ H); reflexivity).
    + (* LocalTee *)
      destruct args as [|a0 rest].
      * destruct cs; [|apply mapM_length in Hargs; discriminate].
        injection Hs as <-. now inversion H.
      * destruct cs; [apply mapM_length in Hargs; discriminate|].
        injection Hs as <-.
        now rewrite (WrapChild_flag _ _ _ _ H).
    + (* Unary *)
      rewrite (WrapChild_flag _ _ _ _ H). now apply Hfirst.
    + (* Load *)
      destruct a as [[opc al] off]. binds_inv H.
      exact (LoadStore_flag _ _ _ _ _ _ _ H).
    + (* Store *)
      destruct a as [[opc al] off]. binds_inv H.
      exact (WrapBinary_needs_bracketing _ _ _ _ _ H).
    + (* If *)
      destruct (match cs with c :: _ => static_flag c | [] => None end)
        as [[|]|] eqn:Hc; try discriminate Hs.
      injection Hs as <-.
      destruct args as [|ifs rest];
        [unfold DecompileIf in H; binds_inv H; discriminate|].
      destruct (DecompileIf_flag tn a (ifs :: rest) ifs val eq_refl H)
        as [[_ Hf] | [_ Hf]]; [exact Hf|].
      rewrite Hf. now apply Hfirst.
    + (* Block *)
      injection H as <-.
      destruct (Block_summary tn a a0 "block") as (_ & _ & ->).
      now apply Hfirst.
    + (* Loop *)
      injection H as <-.
      destruct (Block_summary tn a a0 "loop") as (_ & _ & ->).
      now apply Hfirst.
    + (* BrIf *)
      rewrite (WrapChild_flag _ _ _ _ H). now apply Hfirst.
    + (* Drop *)
      now apply Hfirst.
Qed.

End StaticFlag.

(** ** Two layouts of the same operands *)

Lemma all3_cons_inv {A B C : Type} (P : A -> B -> C -> Prop)
    (a : A) (la : list A) (lb : list B) (lc : list C) :
  all3 P (a :: la) lb lc ->
  exists b lb' c lc',
    lb = b :: lb' /\ lc = c :: lc' /\ P a b c /\ all3 P la lb' lc'.
Proof.
  destruct lb as [|b lb']; [contradiction|].
  destruct lc as [|c lc']; [contradiction|].
  intros [Hp Hrest]. now exists b, lb', c, lc'.
Qed.

Lemma all3_nil_inv {A B C : Type} (P : A -> B -> C -> Prop)
    (lb : list B) (lc : list C) :
  all3 P [] lb lc -> lb = [] /\ lc = [].
Proof. destruct lb, lc; simpl; tauto. Qed.

Lemma all3_Forall2 {A B C : Type} (P : A -> B -> C -> Prop)
    (Q : B -> C -> Prop) (la : list A) :
  (forall a b c, P a b c -> Q b c) ->
  forall lb lc, all3 P la lb lc -> Forall2 Q lb lc.
Proof.
  intros HPQ. induction la as [|a la IH]; intros lb lc H.
  - apply all3_nil_inv in H. destruct H as [-> ->]. constructor.
  - apply all3_cons_inv in H.
    destruct H as (b & lb' & c & lc' & -> & -> & Hp & Hrest).
    constructor; [now apply (HPQ a) | now apply IH].
Qed.

Lemma all3_Forall_sel {A B C : Type} (P : A -> B -> C -> Prop)
    (f : A -> bool) (Q : B -> Prop) (R : C -> Prop) (la : list A) :
  (forall a b c, P a b c -> f a = true -> Q b /\ R c) ->
  forall lb lc,
    all3 P la lb lc -> forallb f la = true -> Forall Q lb /\ Forall R lc.
Proof.
  intros HP. induction la as [|a la IH]; intros lb lc H Hf.
  - apply all3_nil_inv in H. destruct H as [-> ->]. split; constructor.
  - apply all3_cons_inv in H.
    destruct H as (b & lb' & c & lc' & -> & -> & Hp & Hrest).
    simpl in Hf. apply andb_true_iff in Hf. destruct Hf as [Hfa Hfl].
    destruct (HP a b c Hp Hfa) as [Hq Hr].
    destruct (IH lb' lc' Hrest Hfl) as [Hqs Hrs].
    split; constructor; assumption.
Qed.

Lemma same_text_back (args1 args2 : list Value) :
  Forall2 same_text args1 args2 ->
  match Vec.back args1, Vec.back args2 with
  | Some a1, Some a2 => same_text a1 a2
  | None, None => True
  | _, _ => False
  end.
Proof.
  induction 1 as [|a1 a2 l1 l2 Ha Hl IH]; [exact I|].
  destruct Hl as [|b1 b2 l1' l2' Hb Hl'].
  - exact Ha.
  - rewrite (vec_back_cons a1 (b1 :: l1')), (vec_back_cons a2 (b2 :: l2'))
      by discriminate.
    exact IH.
Qed.

Lemma same_text_map (args1 args2 : list Value) :
  Forall2 same_text args1 args2 -> map text args1 = map text args2.
Proof.
  induction 1 as [|a1 a2 l1 l2 [Ha _] _ IH]; [reflexivity|].
  simpl. now rewrite Ha, IH.
Qed.

Lemma same_text_statements (args1 args2 : list Value) :
  Forall2 same_text args1 args2 ->
  map statement_text args1 = map statement_text args2.
Proof.
  induction 1 as [|a1 a2 l1 l2 [Ht Hb] _ IH]; [reflexivity|].
  simpl. unfold statement_text at 1 3. now rewrite Ht, Hb, IH.
Qed.

Section TwoLayouts.

Variables tn1 tn2 : Tunables.
Variable env : Collaborators.
Variable lst : LoadStoreTracking.

Lemma WrapChild_same (a1 a2 : Value) (prefix postfix : string) (r1 r2 : Value) :
  usable a1 -> usable a2 -> same_text a1 a2 ->
  WrapChild tn1 a1 prefix postfix = Some r1 ->
  WrapChild tn2 a2 prefix postfix = Some r2 ->
  same_text r1 r2.
Proof.
  intros Hu1 Hu2 [Ht Hb] H1 H2.
  destruct (WrapChild_summary tn1 _ _ _ _ Hu1 H1) as (Ht1 & Hb1 & _).
  destruct (WrapChild_summary tn2 _ _ _ _ Hu2 H2) as (Ht2 & Hb2 & _).
  split; [now rewrite Ht1, Ht2, Ht | now rewrite Hb1, Hb2, Hb].
Qed.

Lemma Set_same (a1 a2 : Value) (var : Var) (r1 r2 : Value) :
  usable a1 -> usable a2 -> same_text a1 a2 ->
  Set_ tn1 a1 var = Some r1 ->
  Set_ tn2 a2 var = Some r2 ->
  same_text r1 r2.
Proof.
  unfold Set_. intros Hu1 Hu2 Hs H1 H2.
  eapply WrapChild_same; [| | |exact H1|exact H2].
  - exact Hu1.
  - exact Hu2.
  - exact Hs.
Qed.

Lemma WrapBinary_same (l1 l2 r1 r2 : Value) (infix : string)
    (indent_right : bool) (res1 res2 : Value) :
  usable l1 -> usable l2 -> usable r1 -> usable r2 ->
  same_text l1 l2 -> same_text r1 r2 ->
  needs_bracketing l1 = needs_bracketing l2 ->
  needs_bracketing r1 = needs_bracketing r2 ->
  WrapBinary tn1 [l1; r1] infix indent_right = Some res1 ->
  WrapBinary tn2 [l2; r2] infix indent_right = Some res2 ->
  same_text res1 res2.
Proof.
  intros Hl1 Hl2 Hr1 Hr2 [Htl _] [Htr Hbr] Hfl Hfr H1 H2.
  destruct (WrapBinary_summary tn1 _ _ _ _ _ Hl1 Hr1 H1) as (Ht1 & Hb1 & _).
  destruct (WrapBinary_summary tn2 _ _ _ _ _ Hl2 Hr2 H2) as (Ht2 & Hb2 & _).
  unfold bracketed_text in *. split.
  - now rewrite Ht1, Ht2, Htl, Htr, Hfl, Hfr.
  - now rewrite Hb1, Hb2, Hbr, Hfr.
Qed.

Lemma WrapNAry_same (args1 args2 : list Value) (prefix postfix : string)
    (r1 r2 : Value) :
  Forall usable args1 -> Forall usable args2 ->
  Forall2 same_text args1 args2 ->
  WrapNAry tn1 args1 prefix postfix = Some r1 ->
  WrapNAry tn2 args2 prefix postfix = Some r2 ->
  same_text r1 r2.
Proof.
  intros Hu1 Hu2 Hs H1 H2.
  destruct (WrapNAry_summary tn1 _ _ _ _ Hu1 H1) as (Ht1 & Hb1 & _).
  destruct (WrapNAry_summary tn2 _ _ _ _ Hu2 H2) as (Ht2 & Hb2 & _).
  split.
  - now rewrite Ht1, Ht2, (same_text_map _ _ Hs).
  - rewrite Hb1, Hb2. unfold nary_brace.
    destruct (Str.empty postfix); [|reflexivity].
    pose proof (same_text_back _ _ Hs) as Hback.
    destruct (Vec.back args1), (Vec.back args2); try contradiction;
      [apply Hback | reflexivity].
Qed.

Lemma LoadStore_same (a1 a2 : Value) (addr_exp : Node) (offset : Z)
    (opc : Opcode) (align : Z) (op_type : Type_.t) (r1 r2 : Value) :
  usable a1 -> usable a2 -> same_text a1 a2 ->
  needs_bracketing a1 = needs_bracketing a2 ->
  LoadStore tn1 env lst a1 addr_exp offset opc align op_type = Some r1 ->
  LoadStore tn2 env lst a2 addr_exp offset opc align op_type = Some r2 ->
  same_text r1 r2
  /\ usable r1 /\ usable r2
  /\ needs_bracketing r1 = needs_bracketing r2.
Proof.
  intros Hu1 Hu2 [Ht _] Hf H1 H2.
  destruct (LoadStore_summary tn1 env lst _ _ _ _ _ _ _ Hu1 H1)
    as (Ht1 & Hb1 & Hf1 & Hr1).
  destruct (LoadStore_summary tn2 env lst _ _ _ _ _ _ _ Hu2 H2)
    as (Ht2 & Hb2 & Hf2 & Hr2).
  unfold bracketed_text in *.
  repeat split; try apply Hr1; try apply Hr2.
  - now rewrite Ht1, Ht2, Ht, Hf.
  - now rewrite Hb1, Hb2.
  - now rewrite Hf1, Hf2.
Qed.

Lemma Block_same (a1 a2 : Value) (label name : string) :
  same_text a1 a2 ->
  same_text (Block tn1 a1 label name) (Block tn2 a2 label name).
Proof.
  intros [Ht _].
  destruct (Block_summary tn1 a1 label name) as (Ht1 & Hb1 & _).
  destruct (Block_summary tn2 a2 label name) as (Ht2 & Hb2 & _).
  split; [now rewrite Ht1, Ht2, Ht | now rewrite Hb1, Hb2].
Qed.

Lemma Forall2_nth_error {A B : Type} (R : A -> B -> Prop)
    (l1 : list A) (l2 : list B) (i : nat) (a : A) (b : B) :
  Forall2 R l1 l2 ->
  nth_error l1 i = Some a -> nth_error l2 i = Some b -> R a b.
Proof.
  intros H. revert i. induction H as [|x y l1 l2 Hxy _ IH]; intros i.
  - destruct i; discriminate.
  - destruct i as [|i]; simpl.
    + now intros [= <-] [= <-].
    + apply IH.
Qed.

Lemma DecompileIf_same (false_ : ExprList) (args1 args2 : list Value)
    (r1 r2 : Value) :
  (forall i a, nth_error args1 i = Some a -> i < 2 -> usable a) ->
  (forall i a, nth_error args2 i = Some a -> i < 2 -> usable a) ->
  (negb (length false_ =? 0) = true ->
   (forall a, nth_error args1 2 = Some a -> usable a)
   /\ (forall a, nth_error args2 2 = Some a -> usable a)) ->
  Forall2 same_text args1 args2 ->
  DecompileIf tn1 false_ args1 = Some r1 ->
  DecompileIf tn2 false_ args2 = Some r2 ->
  same_text r1 r2.
Proof.
  intros Hu1 Hu2 Hu3 Hs H1 H2.
  destruct (DecompileIf_summary tn1 false_ args1 r1) as
    (c1 & t1 & e1 & Hc1 & Ht1 & He1 & Htext1 & Hb1); try exact H1.
  { intros a Ha. apply (Hu1 0 a); [exact Ha | lia]. }
  { intros a Ha. apply (Hu1 1 a); [exact Ha | lia]. }
  { intros Hf. now apply Hu3. }
  destruct (DecompileIf_summary tn2 false_ args2 r2) as
    (c2 & t2 & e2 & Hc2 & Ht2 & He2 & Htext2 & Hb2); try exact H2.
  { intros a Ha. apply (Hu2 0 a); [exact Ha | lia]. }
  { intros a Ha. apply (Hu2 1 a); [exact Ha | lia]. }
  { intros Hf. now apply Hu3. }
  split; [|now rewrite Hb1, Hb2].
  rewrite Htext1, Htext2. unfold if_text.
  destruct (Forall2_nth_error _ _ _ 0 _ _ Hs Hc1 Hc2) as [-> _].
  destruct (Forall2_nth_error _ _ _ 1 _ _ Hs Ht1 Ht2) as [-> _].
  do 5 f_equal.
  destruct (negb (length false_ =? 0)); [|now subst].
  subst e1 e2.
  destruct (nth_error args1 2) as [x1|] eqn:E1;
    destruct (nth_error args2 2) as [x2|] eqn:E2; try reflexivity.
  - now destruct (Forall2_nth_error _ _ _ 2 _ _ Hs E1 E2) as [-> _].
  - apply Forall2_length in Hs. apply nth_error_None in E2.
    assert (2 < length args1) by (apply nth_error_Some; congruence). lia.
  - apply Forall2_length in Hs. apply nth_error_None in E1.
    assert (2 < length args2) by (apply nth_error_Some; congruence). lia.
Qed.

Lemma Statements_same (args1 args2 : list Value) :
  Forall has_last_character args1 -> Forall has_last_character args2 ->
  Forall2 same_text args1 args2 ->
  same_text (mkValue (concat (map terminated_lines args1)) false)
            (mkValue (concat (map terminated_lines args2)) false).
Proof.
  intros H1 H2 Hs.
  destruct (Statements_summary args1 H1) as [Ht1 Hb1].
  destruct (Statements_summary args2 H2) as [Ht2 Hb2].
  split.
  - now rewrite Ht1, Ht2, (same_text_statements _ _ Hs).
  - rewrite Hb1, Hb2. pose proof (same_text_back _ _ Hs) as Hback.
    destruct (Vec.back args1), (Vec.back args2); try contradiction;
      [apply Hback | reflexivity].
Qed.

End TwoLayouts.

(** ** The text of a node does not depend on the tunables *)

Section SameText.

Variables tn1 tn2 : Tunables.
Variable env : Collaborators.
Variable cur_func : option Func.
Variable lst : LoadStoreTracking.

Local Notation "'alike'" := (rendered_alike tn1 tn2 env cur_func lst).
Local Notation "'has_func'" :=
  (match cur_func with Some _ => true | None => false end).

Lemma alike_usable (c : Node) (a1 a2 : Value) :
  alike c a1 a2 -> has_lines c = true -> usable a1 /\ usable a2.
Proof.
  intros (H1 & H2 & _ & Hl1 & Hl2) Hc. split; split; try assumption.
  - exact (has_lines_rendered tn1 env cur_func lst c a1 H1 Hc).
  - exact (has_lines_rendered tn2 env cur_func lst c a2 H2 Hc).
Qed.

Lemma alike_flag (c : Node) (a1 a2 : Value) :
  alike c a1 a2 -> flag_known c = true ->
  needs_bracketing a1 = needs_bracketing a2.
Proof.
  intros (H1 & H2 & _) Hc. unfold flag_known in Hc.
  destruct (static_flag c) as [b|] eqn:Hb; [|discriminate].
  rewrite (DecompileExpr_flag tn1 env cur_func lst c a1 b H1 Hb).
  now rewrite (DecompileExpr_flag tn2 env cur_func lst c a2 b H2 Hb).
Qed.

Lemma alike_same (c : Node) (a1 a2 : Value) :
  alike c a1 a2 -> same_text a1 a2.
Proof. now intros (_ & _ & H & _). Qed.

Lemma alike_all_usable (cs : list Node) (args1 args2 : list Value) :
  all3 alike cs args1 args2 -> forallb has_lines cs = true ->
  Forall usable args1 /\ Forall usable args2.
Proof. apply all3_Forall_sel. apply alike_usable. Qed.

Lemma alike_all_same (cs : list Node) (args1 args2 : list Value) :
  all3 alike cs args1 args2 -> Forall2 same_text args1 args2.
Proof. apply all3_Forall2. apply alike_same. Qed.

Lemma alike_statements (cs : list Node) (args1 args2 : list Value) :
  all3 alike cs args1 args2 ->
  forallb (fun c => has_lines c && no_empty_atom env c) cs = true ->
  Forall has_last_character args1 /\ Forall has_last_character args2.
Proof.
  apply all3_Forall_sel. intros c a1 a2 Ha Hc.
  apply andb_true_iff in Hc. destruct Hc as [Hc _].
  destruct (alike_usable c a1 a2 Ha Hc) as [[Hv1 Hl1] [Hv2 Hl2]].
  split; now apply lines_last_character.
Qed.

(** The first operand, when its lines are used. *)
Lemma alike_first (cs : list Node) (args1 args2 : list Value) :
  all3 alike cs args1 args2 -> first_has_lines cs = true ->
  exists c cs' a1 rest1 a2 rest2,
    cs = c :: cs' /\ args1 = a1 :: rest1 /\ args2 = a2 :: rest2
    /\ alike c a1 a2 /\ usable a1 /\ usable a2 /\ same_text a1 a2.
Proof.
  intros H Hf. destruct cs as [|c cs']; [discriminate|].
  apply all3_cons_inv in H.
  destruct H as (a1 & rest1 & a2 & rest2 & -> & -> & Ha & _).
  destruct (alike_usable c a1 a2 Ha Hf) as [Hu1 Hu2].
  exists c, cs', a1, rest1, a2, rest2.
  exact (conj eq_refl (conj eq_refl (conj eq_refl
           (conj Ha (conj Hu1 (conj Hu2 (alike_same c a1 a2 Ha))))))).
Qed.

(** Both operands of a binary, a comparison or a store. *)
Lemma alike_two (cs : list Node) (args1 args2 : list Value) :
  all3 alike cs args1 args2 ->
  match cs with
  | [a; b] => has_lines a && has_lines b
  | _ => false
  end = true ->
  exists c0 c1 l1 r1 l2 r2,
    cs = [c0; c1] /\ args1 = [l1; r1] /\ args2 = [l2; r2]
    /\ alike c0 l1 l2 /\ alike c1 r1 r2
    /\ usable l1 /\ usable l2 /\ usable r1 /\ usable r2.
Proof.
  intros H Hf. destruct cs as [|c0 [|c1 [|c2 cs']]]; try discriminate.
  apply andb_true_iff in Hf. destruct Hf as [H0 H1].
  apply all3_cons_inv in H.
  destruct H as (l1 & rest1 & l2 & rest2 & -> & -> & Hl & H).
  apply all3_cons_inv in H.
  destruct H as (r1 & rest1' & r2 & rest2' & -> & -> & Hr & H).
  apply all3_nil_inv in H. destruct H as [-> ->].
  destruct (alike_usable c0 l1 l2 Hl H0) as [Hul1 Hul2].
  destruct (alike_usable c1 r1 r2 Hr H1) as [Hur1 Hur2].
  exists c0, c1, l1, r1, l2, r2.
  exact (conj eq_refl (conj eq_refl (conj eq_refl
           (conj Hl (conj Hr (conj Hul1 (conj Hul2 (conj Hur1 Hur2)))))))).
Qed.

Lemma alike_nth (cs : list Node) (args1 args2 : list Value) :
  all3 alike cs args1 args2 ->
  forall i a1,
    nth_error args1 i = Some a1 ->
    exists c a2,
      nth_error cs i = Some c /\ nth_error args2 i = Some a2 /\ alike c a1 a2.
Proof.
  revert args1 args2. induction cs as [|c cs IH]; intros args1 args2 H i a1 Hi.
  - apply all3_nil_inv in H. destruct H as [-> _]. destruct i; discriminate.
  - apply all3_cons_inv in H.
    destruct H as (b1 & rest1 & b2 & rest2 & -> & -> & Hb & H).
    destruct i as [|i]; simpl in Hi |- *.
    + injection Hi as <-. now exists c, b2.
    + now apply (IH rest1 rest2).
Qed.

Lemma alike_nth2 (cs : list Node) (args1 args2 : list Value) :
  all3 alike cs args1 args2 ->
  forall i a2,
    nth_error args2 i = Some a2 ->
    exists c a1,
      nth_error cs i = Some c /\ nth_error args1 i = Some a1 /\ alike c a1 a2.
Proof.
  revert args1 args2. induction cs as [|c cs IH]; intros args1 args2 H i a2 Hi.
  - apply all3_nil_inv in H. destruct H as [_ ->]. destruct i; discriminate.
  - apply all3_cons_inv in H.
    destruct H as (b1 & rest1 & b2 & rest2 & -> & -> & Hb & H).
    destruct i as [|i]; simpl in Hi |- *.
    + injection Hi as <-. now exists c, b1.
    + now apply (IH rest1 rest2).
Qed.

Ltac same_value H1 H2 :=
  match type of H1 with
  | _ = Some ?r1 =>
      match type of H2 with
      | _ = Some ?r2 =>
          let E := fresh "E" in
          assert (E : Some r1 = Some r2) by (rewrite <- H1, <- H2; reflexivity);
          injection E as <-; split; reflexivity
      end
  end.

Ltac step2 H1 H2 :=
  cbn [Partial.bind nth_error tl] in H1, H2;
  match type of H1 with
  | Partial.bind ?c _ = Some _ =>
      destruct c eqn:?; [|discriminate H1];
      cbn [Partial.bind nth_error tl] in H1, H2
  end.

Lemma DecompileExprType_same (n : Node) (args1 args2 : list Value)
    (r1 r2 : Value) :
  ntype n = NodeType.Expr ->
  all3 alike (children n) args1 args2 ->
  node_ok env has_func n = true ->
  operand_flags_known n = true ->
  DecompileExprType tn1 env lst n args1 = Some r1 ->
  DecompileExprType tn2 env lst n args2 = Some r2 ->
  same_text r1 r2.
Proof.
  unfold node_ok, operand_flags_known, DecompileExprType.
  intros Hnt Hall Hok Hflags H1 H2.
  rewrite Hnt in Hok, Hflags. rewrite !andb_true_iff in Hok.
  destruct Hok as (Hu & Hx & Hop).
  pose proof (alike_first _ _ _ Hall) as Hfirst.
  pose proof (alike_two _ _ _ Hall) as Htwo.
  pose proof (alike_all_usable _ _ _ Hall) as Husable.
  pose proof (alike_all_same _ _ _ Hall) as Hsame.
  destruct (etype n) eqn:Het; simpl in Hop.
  - (* Const *) same_value H1 H2.
  - (* LocalGet *) same_value H1 H2.
  - (* GlobalGet *) same_value H1 H2.
  - (* LocalSet *)
    destruct (Hfirst Hop)
      as (c & cs' & a1 & rest1 & a2 & rest2 & _ & -> & -> & _ & U1 & U2 & S).
    step2 H1 H2. exact (Set_same tn1 tn2 _ _ _ _ _ U1 U2 S H1 H2).
  - (* GlobalSet *)
    destruct (Hfirst Hop)
      as (c & cs' & a1 & rest1 & a2 & rest2 & _ & -> & -> & _ & U1 & U2 & S).
    step2 H1 H2. exact (Set_same tn1 tn2 _ _ _ _ _ U1 U2 S H1 H2).
  - (* LocalTee *)
    step2 H1 H2.
    destruct (children n) as [|c cs'] eqn:Hcs.
    + apply all3_nil_inv in Hall. destruct Hall as [-> ->]. same_value H1 H2.
    + destruct (Hfirst Hop)
        as (c' & cs'' & a1 & rest1 & a2 & rest2 & _ & -> & -> & _ & U1 & U2 & S).
      exact (Set_same tn1 tn2 _ _ _ _ _ U1 U2 S H1 H2).
  - (* Binary *)
    destruct (Htwo Hop)
      as (c0 & c1 & l1 & x1 & l2 & x2 & Hcs & -> & -> & Al & Ar
          & Ul1 & Ul2 & Ur1 & Ur2).
    rewrite Hcs in Hflags. simpl in Hflags.
    rewrite andb_true_r in Hflags. apply andb_true_iff in Hflags.
    destruct Hflags as [F0 F1].
    step2 H1 H2.
    exact (WrapBinary_same tn1 tn2 _ _ _ _ _ _ _ _ Ul1 Ul2 Ur1 Ur2
             (alike_same _ _ _ Al) (alike_same _ _ _ Ar)
             (alike_flag _ _ _ Al F0) (alike_flag _ _ _ Ar F1) H1 H2).
  - (* Compare *)
    destruct (Htwo Hop)
      as (c0 & c1 & l1 & x1 & l2 & x2 & Hcs & -> & -> & Al & Ar
          & Ul1 & Ul2 & Ur1 & Ur2).
    rewrite Hcs in Hflags. simpl in Hflags.
    rewrite andb_true_r in Hflags. apply andb_true_iff in Hflags.
    destruct Hflags as [F0 F1].
    step2 H1 H2.
    exact (WrapBinary_same tn1 tn2 _ _ _ _ _ _ _ _ Ul1 Ul2 Ur1 Ur2
             (alike_same _ _ _ Al) (alike_same _ _ _ Ar)
             (alike_flag _ _ _ Al F0) (alike_flag _ _ _ Ar F1) H1 H2).
  - (* Unary *)
    destruct (Hfirst Hop)
      as (c & cs' & a1 & rest1 & a2 & rest2 & _ & -> & -> & _ & U1 & U2 & S).
    step2 H1 H2. exact (WrapChild_same tn1 tn2 _ _ _ _ _ _ U1 U2 S H1 H2).
  - (* Load *)
    destruct (Hfirst Hop)
      as (c & cs' & a1 & rest1 & a2 & rest2 & Hcs & -> & -> & A & U1 & U2 & S).
    rewrite Hcs in Hflags, H1, H2.
    step2 H1 H2. destruct p as [[opc al] off].
    cbn [Partial.bind nth_error] in H1, H2.
    exact (proj1 (LoadStore_same tn1 tn2 env lst _ _ _ _ _ _ _ _ _ U1 U2 S
                    (alike_flag _ _ _ A Hflags) H1 H2)).
  - (* Store *)
    destruct (Htwo Hop)
      as (c0 & c1 & l1 & x1 & l2 & x2 & Hcs & -> & -> & Al & Ar
          & Ul1 & Ul2 & Ur1 & Ur2).
    rewrite Hcs in Hflags, H1, H2. simpl in Hflags.
    rewrite andb_true_r in Hflags. apply andb_true_iff in Hflags.
    destruct Hflags as [F0 F1].
    step2 H1 H2. destruct p as [[opc al] off].
    cbn [Partial.bind nth_error tl] in H1, H2.
    bind_inv H1. rename a into l1', Ha into Hl1.
    bind_inv H2. rename a into l2', Ha into Hl2.
    destruct (LoadStore_same tn1 tn2 env lst _ _ _ _ _ _ _ _ _ Ul1 Ul2
                (alike_same _ _ _ Al) (alike_flag _ _ _ Al F0) Hl1 Hl2)
      as (S' & U1' & U2' & F').
    exact (WrapBinary_same tn1 tn2 _ _ _ _ _ _ _ _ U1' U2' Ur1 Ur2
             S' (alike_same _ _ _ Ar) F' (alike_flag _ _ _ Ar F1) H1 H2).
  - (* If *)
    step2 H1 H2.
    destruct (e n) as [[]|]; try discriminate Hx.
    simpl in Heqo. injection Heqo as <-.
    assert (Hsel : forall i,
               (i < 2 \/ (i = 2 /\ negb (length false_ =? 0) = true)) ->
               forall c, nth_error (children n) i = Some c ->
                         has_lines c = true).
    { intros i Hi c Hc.
      destruct false_ as [|f0 fs];
        destruct (children n) as [|c0 [|c1 rest]]; try discriminate Hop.
      - apply andb_true_iff in Hop. destruct Hop as [O0 O1].
        destruct Hi as [Hi | [_ Hi]]; [|discriminate].
        destruct i as [|[|i]]; simpl in Hc; try lia; now injection Hc as <-.
      - destruct rest as [|c2 rest]; [discriminate Hop|].
        rewrite !andb_true_iff in Hop. destruct Hop as [[O0 O1] O2].
        destruct i as [|[|[|i]]]; simpl in Hc; try lia;
          now injection Hc as <-. }
    eapply (DecompileIf_same tn1 tn2 false_ args1 args2);
      [| | |exact Hsame|exact H1|exact H2].
    + intros i a Ha Hi.
      destruct (alike_nth _ _ _ Hall i a Ha) as (c & a2 & Hc & _ & A).
      exact (proj1 (alike_usable c a a2 A (Hsel i (or_introl Hi) c Hc))).
    + intros i a Ha Hi.
      destruct (alike_nth2 _ _ _ Hall i a Ha) as (c & a1 & Hc & _ & A).
      exact (proj2 (alike_usable c a1 a A (Hsel i (or_introl Hi) c Hc))).
    + intros Hf. split; intros a Ha.
      * destruct (alike_nth _ _ _ Hall 2 a Ha) as (c & a2 & Hc & _ & A).
        exact (proj1 (alike_usable c a a2 A
                        (Hsel 2 (or_intror (conj eq_refl Hf)) c Hc))).
      * destruct (alike_nth2 _ _ _ Hall 2 a Ha) as (c & a1 & Hc & _ & A).
        exact (proj2 (alike_usable c a1 a A
                        (Hsel 2 (or_intror (conj eq_refl Hf)) c Hc))).
  - (* Block *)
    destruct (children n) as [|c cs']; [discriminate Hop|].
    apply all3_cons_inv in Hall.
    destruct Hall as (a1 & rest1 & a2 & rest2 & -> & -> & A & _).
    step2 H1 H2. injection H1 as <-. injection H2 as <-.
    apply Block_same. exact (alike_same _ _ _ A).
  - (* Loop *)
    destruct (children n) as [|c cs']; [discriminate Hop|].
    apply all3_cons_inv in Hall.
    destruct Hall as (a1 & rest1 & a2 & rest2 & -> & -> & A & _).
    step2 H1 H2. injection H1 as <-. injection H2 as <-.
    apply Block_same. exact (alike_same _ _ _ A).
  - (* Br *) same_value H1 H2.
  - (* BrIf *)
    destruct (Hfirst Hop)
      as (c & cs' & a1 & rest1 & a2 & rest2 & _ & -> & -> & _ & U1 & U2 & S).
    step2 H1 H2. step2 H1 H2.
    exact (WrapChild_same tn1 tn2 _ _ _ _ _ _ U1 U2 S H1 H2).
  - (* Return *)
    destruct (Husable Hop) as [U1 U2].
    exact (WrapNAry_same tn1 tn2 _ _ _ _ _ _ U1 U2 Hsame H1 H2).
  - (* Drop *)
    destruct (children n) as [|c cs']; [discriminate Hop|].
    apply all3_cons_inv in Hall.
    destruct Hall as (a1 & rest1 & a2 & rest2 & -> & -> & A & _).
    simpl in H1, H2. injection H1 as <-. injection H2 as <-.
    exact (alike_same _ _ _ A).
  - (* Call *)
    destruct (Husable Hop) as [U1 U2]. step2 H1 H2.
    exact (WrapNAry_same tn1 tn2 _ _ _ _ _ _ U1 U2 Hsame H1 H2).
  - (* Convert *)
    destruct (Husable Hop) as [U1 U2]. step2 H1 H2.
    exact (WrapNAry_same tn1 tn2 _ _ _ _ _ _ U1 U2 Hsame H1 H2).
  - (* Nop *)
    destruct (Husable Hop) as [U1 U2].
    exact (WrapNAry_same tn1 tn2 _ _ _ _ _ _ U1 U2 Hsame H1 H2).
  - (* Other *)
    destruct (Husable Hop) as [U1 U2].
    exact (WrapNAry_same tn1 tn2 _ _ _ _ _ _ U1 U2 Hsame H1 H2).
Qed.

End SameText.

Section SameTextNode.

Variables tn1 tn2 : Tunables.
Variable env : Collaborators.
Variable cur_func : option Func.
Variable lst : LoadStoreTracking.

Local Notation "'alike'" := (rendered_alike tn1 tn2 env cur_func lst).
Local Notation "'has_func'" :=
  (match cur_func with Some _ => true | None => false end).

Lemma DecompileNode_same (n : Node) (args1 args2 : list Value)
    (r1 r2 : Value) :
  all3 alike (children n) args1 args2 ->
  node_ok env has_func n = true ->
  operand_flags_known n = true ->
  DecompileNode tn1 env cur_func lst n args1 = Some r1 ->
  DecompileNode tn2 env cur_func lst n args2 = Some r2 ->
  same_text r1 r2.
Proof.
  intros Hall Hok Hflags H1 H2.
  pose proof (alike_all_same tn1 tn2 env cur_func lst _ _ _ Hall) as Hsame.
  pose proof (alike_all_usable tn1 tn2 env cur_func lst _ _ _ Hall) as Husable.
  unfold DecompileNode in H1, H2.
  destruct (ntype n) eqn:Hnt.
  - discriminate H1.
  - (* FlushToVars *)
    unfold node_ok in Hok. rewrite Hnt in Hok.
    apply andb_true_iff in Hok. destruct Hok as [_ Hop].
    destruct (Husable Hop) as [U1 U2].
    destruct (u_var_start n); [|discriminate H1].
    destruct (u_var_count n); [|discriminate H1].
    cbn [Partial.bind] in H1, H2.
    exact (WrapNAry_same tn1 tn2 _ _ _ _ _ _ U1 U2 Hsame H1 H2).
  - (* FlushedVar *)
    assert (E : Some r1 = Some r2) by (rewrite <- H1, <- H2; reflexivity).
    injection E as <-. split; reflexivity.
  - (* Statements *)
    unfold node_ok in Hok. rewrite Hnt in Hok.
    apply andb_true_iff in Hok. destruct Hok as [_ Hop].
    destruct (alike_statements tn1 tn2 env cur_func lst _ _ _ Hall Hop)
      as [L1 L2].
    rewrite (statements_loop_text args1 [] L1) in H1.
    rewrite (statements_loop_text args2 [] L2) in H2.
    simpl in H1, H2. injection H1 as <-. injection H2 as <-.
    now apply Statements_same.
  - (* EndReturn *)
    unfold node_ok in Hok. rewrite Hnt in Hok.
    apply andb_true_iff in Hok. destruct Hok as [_ Hop].
    destruct (Husable Hop) as [U1 U2].
    exact (WrapNAry_same tn1 tn2 _ _ _ _ _ _ U1 U2 Hsame H1 H2).
  - (* Decl *)
    assert (E : Some r1 = Some r2) by (rewrite <- H1, <- H2; reflexivity).
    injection E as <-. split; reflexivity.
  - (* DeclInit *)
    unfold node_ok in Hok. rewrite Hnt in Hok.
    rewrite !andb_true_iff in Hok. destruct Hok as (_ & _ & Hop).
    destruct (alike_first tn1 tn2 env cur_func lst _ _ _ Hall Hop)
      as (c & cs' & a1 & rest1 & a2 & rest2 & _ & -> & -> & _ & U1 & U2 & S).
    cbn [Partial.bind nth_error] in H1, H2.
    destruct (u_var n); [|discriminate H1].
    destruct cur_func; [|discriminate H1].
    cbn [Partial.bind] in H1, H2.
    exact (WrapChild_same tn1 tn2 _ _ _ _ _ _ U1 U2 S H1 H2).
  - (* Expr *)
    exact (DecompileExprType_same tn1 tn2 env cur_func lst n args1 args2
             r1 r2 Hnt Hall Hok Hflags H1 H2).
Qed.

Lemma flag_ok_children (nt : NodeType.t) (et : ExprType.t)
    (x : option Expr) (cs : list Node) (w : NodeU) :
  flag_ok (mkNode nt et x cs w) = true ->
  operand_flags_known (mkNode nt et x cs w) = true
  /\ Forall (fun c => flag_ok c = true) cs.
Proof.
  simpl. intros H. apply andb_true_iff in H. destruct H as [Hn Hcs].
  split; [exact Hn|]. clear Hn.
  induction cs as [|c cs IH]; [constructor|].
  apply andb_true_iff in Hcs. destruct Hcs as [Hc Hcs].
  constructor; [exact Hc | exact (IH Hcs)].
Qed.

Lemma all3_Forall2_left {A B C : Type} (P : A -> B -> C -> Prop)
    (Q : A -> B -> Prop) (la : list A) (lb : list B) (lc : list C) :
  (forall a b c, P a b c -> Q a b) ->
  all3 P la lb lc -> Forall2 Q la lb.
Proof.
  intros HPQ. revert lb lc.
  induction la as [|a la IH]; intros [|b lb] [|c lc] H;
    try contradiction; constructor.
  - exact (HPQ _ _ _ (proj1 H)).
  - exact (IH _ _ (proj2 H)).
Qed.

Lemma all3_Forall2_right {A B C : Type} (P : A -> B -> C -> Prop)
    (Q : A -> C -> Prop) (la : list A) (lb : list B) (lc : list C) :
  (forall a b c, P a b c -> Q a c) ->
  all3 P la lb lc -> Forall2 Q la lc.
Proof.
  intros HPQ. revert lb lc.
  induction la as [|a la IH]; intros [|b lb] [|c lc] H;
    try contradiction; constructor.
  - exact (HPQ _ _ _ (proj1 H)).
  - exact (IH _ _ (proj2 H)).
Qed.

Lemma Forall2_render_children (tn : Tunables) (cs : list Node)
    (args : list Value) :
  Forall2 (fun c a => DecompileExpr tn env cur_func lst c = Some a) cs args ->
  render_children tn env cur_func lst cs = Some args.
Proof.
  unfold render_children.
  induction 1 as [|c a cs args Hc _ IH]; simpl; [reflexivity|].
  now rewrite Hc, IH.
Qed.

(** A well-formed node whose leaves have a text and whose operand flags are
    fixed renders, under any two settings of the tunables, into fragments
    with the same text. *)
Lemma DecompileExpr_alike (n : Node) :
  well_formed env has_func n = true ->
  no_empty_atom env n = true ->
  flag_ok n = true ->
  exists a1 a2, alike n a1 a2.
Proof.
  induction n as [nt et x cs w IH] using Node_nested_ind.
  intros Hwf Hatoms Hflags.
  pose proof Hatoms as Hatoms'.
  apply well_formed_children in Hwf. destruct Hwf as [Hok Hwcs].
  apply no_empty_atom_children in Hatoms. destruct Hatoms as [_ Hacs].
  apply flag_ok_children in Hflags. destruct Hflags as [Hfl Hfcs].
  assert (Hkids : exists args1 args2, all3 alike cs args1 args2).
  { clear Hok Hfl Hatoms'.
    induction IH as [|c cs Hc _ IHcs]; [now exists [], []|].
    inversion Hwcs; subst. inversion Hacs; subst. inversion Hfcs; subst.
    destruct Hc as (a1 & a2 & Ha); try assumption.
    destruct IHcs as (args1 & args2 & Hargs); try assumption.
    exists (a1 :: args1), (a2 :: args2). now split. }
  destruct Hkids as (args1 & args2 & Hall).
  assert (K1 : Forall2
                 (fun c a => DecompileExpr tn1 env cur_func lst c = Some a)
                 cs args1).
  { refine (all3_Forall2_left _ _ _ _ _ _ Hall). now intros a b c (H & _). }
  assert (K2 : Forall2
                 (fun c a => DecompileExpr tn2 env cur_func lst c = Some a)
                 cs args2).
  { refine (all3_Forall2_right _ _ _ _ _ _ Hall). now intros a b c (_ & H & _). }
  destruct (DecompileNode_defined tn1 env cur_func lst _ args1 Hok K1)
    as (r1 & Hr1).
  destruct (DecompileNode_defined tn2 env cur_func lst _ args2 Hok K2)
    as (r2 & Hr2).
  assert (E1 : DecompileExpr tn1 env cur_func lst (mkNode nt et x cs w)
               = Some r1).
  { rewrite DecompileExpr_unfold. simpl children.
    rewrite (Forall2_render_children tn1 _ _ K1). exact Hr1. }
  assert (E2 : DecompileExpr tn2 env cur_func lst (mkNode nt et x cs w)
               = Some r2).
  { rewrite DecompileExpr_unfold. simpl children.
    rewrite (Forall2_render_children tn2 _ _ K2). exact Hr2. }
  exists r1, r2. split; [exact E1|]. split; [exact E2|]. split.
  - exact (DecompileNode_same (mkNode nt et x cs w) _ _ _ _ Hall Hok Hfl
             Hr1 Hr2).
  - split.
    + exact (DecompileExpr_lines tn1 env cur_func lst _ _ Hatoms' E1).
    + exact (DecompileExpr_lines tn2 env cur_func lst _ _ Hatoms' E2).
Qed.

End SameTextNode.

(** ** The module walker only appends *)

Lemma CheckImportExport_appends (m : Module_) (s : string)
    (kind : ExternalKind.t) (index : Z) (name : string) :
  CheckImportExport m s kind index name
  = ((s ++ fst (CheckImportExport m "" kind index name))%string,
     snd (CheckImportExport m "" kind index name)).
Proof.
  unfold CheckImportExport. simpl.
  destruct (match GetExport m name with Some _ => _ | None => _ end),
    (IsImport m kind index); simpl;
    now rewrite ?StrFacts.append_assoc, ?StrFacts.append_nil_r.
Qed.

Lemma strip_newline : strip_whitespace newline = "".
Proof. reflexivity. Qed.

Lemma strip_cat (l : list string) :
  strip_whitespace (Str.cat l) = Str.cat (map strip_whitespace l).
Proof.
  induction l as [|x l IH]; [reflexivity|].
  cbn [Str.cat fold_right map]. rewrite StrFacts.strip_append.
  f_equal. exact IH.
Qed.

Lemma same_stripped_append (a1 a2 b : string) :
  same_stripped a1 a2 -> same_stripped (a1 ++ b) (a2 ++ b).
Proof. unfold same_stripped. intros H. now rewrite !StrFacts.strip_append, H. Qed.

Lemma same_stripped_append2 (a1 a2 b1 b2 : string) :
  same_stripped a1 a2 -> same_stripped b1 b2 ->
  same_stripped (a1 ++ b1) (a2 ++ b2).
Proof.
  unfold same_stripped. intros H H'. now rewrite !StrFacts.strip_append, H, H'.
Qed.

Lemma DecompileMemory_same (m : Module_) (s1 s2 : string) (i : Z) (x : Memory) :
  same_stripped s1 s2 ->
  same_stripped (fst (DecompileMemory m (s1, i) x))
                (fst (DecompileMemory m (s2, i) x))
  /\ snd (DecompileMemory m (s1, i) x) = snd (DecompileMemory m (s2, i) x).
Proof.
  intros H. unfold DecompileMemory.
  rewrite (CheckImportExport_appends m s1), (CheckImportExport_appends m s2).
  destruct (snd (CheckImportExport m "" _ _ _)); simpl; split;
    try reflexivity; repeat apply same_stripped_append; exact H.
Qed.

Lemma DecompileTable_same (env : Collaborators) (m : Module_) (s1 s2 : string)
    (i : Z) (x : Table) :
  same_stripped s1 s2 ->
  same_stripped (fst (DecompileTable env m (s1, i) x))
                (fst (DecompileTable env m (s2, i) x))
  /\ snd (DecompileTable env m (s1, i) x) = snd (DecompileTable env m (s2, i) x).
Proof.
  intros H. unfold DecompileTable.
  rewrite (CheckImportExport_appends m s1), (CheckImportExport_appends m s2).
  destruct (snd (CheckImportExport m "" _ _ _)); simpl; split;
    try reflexivity; repeat apply same_stripped_append; exact H.
Qed.

Lemma fold_left_same {A : Type} (body : string * Z -> A -> string * Z)
    (l : list A) :
  (forall s1 s2 i x, same_stripped s1 s2 ->
     same_stripped (fst (body (s1, i) x)) (fst (body (s2, i) x))
     /\ snd (body (s1, i) x) = snd (body (s2, i) x)) ->
  forall s1 s2 i, same_stripped s1 s2 ->
    same_stripped (fst (fold_left body l (s1, i)))
                  (fst (fold_left body l (s2, i))).
Proof.
  intros Hbody. induction l as [|x l IH]; intros s1 s2 i H; [exact H|].
  simpl. destruct (Hbody s1 s2 i x H) as [Hs Hi].
  destruct (body (s1, i) x) as [s1' i1], (body (s2, i) x) as [s2' i2].
  simpl in Hs, Hi. subst i2. now apply IH.
Qed.

Lemma foldM_same {S A : Type} (R : S -> S -> Prop)
    (body1 body2 : S -> A -> option S) (l : list A) :
  (forall st1 st2 x st1' st2',
     R st1 st2 -> body1 st1 x = Some st1' -> body2 st2 x = Some st2' ->
     R st1' st2') ->
  forall st1 st2 r1 r2,
    R st1 st2 -> foldM body1 st1 l = Some r1 -> foldM body2 st2 l = Some r2 ->
    R r1 r2.
Proof.
  intros Hbody. induction l as [|x l IH]; intros st1 st2 r1 r2 HR H1 H2.
  - simpl in H1, H2. injection H1 as <-. injection H2 as <-. exact HR.
  - simpl in H1, H2. bind_inv H1. bind_inv H2.
    exact (IH _ _ _ _ (Hbody _ _ _ _ _ HR Ha Ha0) H1 H2).
Qed.

Lemma section_end_same {A : Type} (items : list A) (s1 s2 : string) :
  same_stripped s1 s2 ->
  same_stripped (section_end items s1) (section_end items s2).
Proof.
  intros H. unfold section_end. destruct (negb _); [|exact H].
  now apply same_stripped_append.
Qed.

Section ModuleText.

Variables tn1 tn2 : Tunables.
Variable env : Collaborators.
Variable m : Module_.
Hypothesis Hbuilder : builder_ok env.

Lemma DecompileExpr_same_text (cur_func : option Func)
    (lst : LoadStoreTracking) (root : Node) (val1 val2 : Value) :
  ast_ok env cur_func root = true ->
  DecompileExpr tn1 env cur_func lst root = Some val1 ->
  DecompileExpr tn2 env cur_func lst root = Some val2 ->
  text val1 = text val2.
Proof.
  unfold ast_ok. rewrite !andb_true_iff. intros [[Hwf Hatoms] Hflags] H1 H2.
  destruct (DecompileExpr_alike tn1 tn2 env cur_func lst root Hwf Hatoms Hflags)
    as (a1 & a2 & H1' & H2' & [Ht _] & _).
  congruence.
Qed.


Lemma InitExp_same (lst : LoadStoreTracking) (el : ExprList) (ie1 ie2 : string) :
  InitExp tn1 env None lst el = Some ie1 ->
  InitExp tn2 env None lst el = Some ie2 ->
  same_stripped ie1 ie2.
Proof.
  unfold InitExp. intros H1 H2.
  bind_inv H1. clear Ha. bind_inv H1. rename Ha into Hroot.
  bind_inv H1. rename Ha into Hval1.
  bind_inv H1. apply guard_some in Ha. apply andb_true_iff in Ha.
  destruct Ha as [_ Hlen1]. apply Nat.eqb_eq in Hlen1.
  bind_inv H2. clear Ha. rewrite Hroot in H2. cbn [Partial.bind] in H2.
  bind_inv H2. rename Ha into Hval2.
  bind_inv H2. apply guard_some in Ha. apply andb_true_iff in Ha.
  destruct Ha as [_ Hlen2]. apply Nat.eqb_eq in Hlen2.
  pose proof (Hbuilder _ _ _ _ _ Hroot) as Hok.
  pose proof (DecompileExpr_same_text None lst _ _ _ Hok Hval1 Hval2) as Ht.
  unfold text in Ht.
  match type of Hlen1 with
  | length (v ?x) = 1 => destruct (v x) as [|l1 [|? ?]]; try discriminate Hlen1
  end.
  match type of Hlen2 with
  | length (v ?x) = 1 => destruct (v x) as [|l2 [|? ?]]; try discriminate Hlen2
  end.
  simpl in H1, H2. injection H1 as <-. injection H2 as <-.
  now rewrite !text_of_lines_one in Ht.
Qed.

Lemma DecompileGlobal_same (lst : LoadStoreTracking) (st1 st2 : string * Z)
    (g : Global) (r1 r2 : string * Z) :
  same_stripped (fst st1) (fst st2) /\ snd st1 = snd st2 ->
  DecompileGlobal tn1 env m None lst st1 g = Some r1 ->
  DecompileGlobal tn2 env m None lst st2 g = Some r2 ->
  same_stripped (fst r1) (fst r2) /\ snd r1 = snd r2.
Proof.
  destruct st1 as [s1 i], st2 as [s2 i']. cbn [fst snd]. intros [Hs <-].
  unfold DecompileGlobal.
  rewrite (CheckImportExport_appends m s1), (CheckImportExport_appends m s2).
  destruct (snd (CheckImportExport m "" _ _ _)); simpl; intros H1 H2.
  - injection H1 as <-. injection H2 as <-. simpl. split; [|reflexivity].
    repeat apply same_stripped_append. exact Hs.
  - bind_inv H1. bind_inv Ha. injection Ha as <-. injection H1 as <-.
    bind_inv H2. bind_inv Ha. injection Ha as <-. injection H2 as <-.
    simpl. split; [|reflexivity].
    apply same_stripped_append. apply same_stripped_append2.
    + repeat apply same_stripped_append. exact Hs.
    + unfold same_stripped. simpl.
      rewrite !StrFacts.append_nil_r.
      exact (f_equal (String "=") (InitExp_same _ _ _ _ Ha0 Ha1)).
Qed.

Lemma DecompileData_same (lst : LoadStoreTracking) (s1 s2 : string)
    (dat : DataSegment) (r1 r2 : string) :
  same_stripped s1 s2 ->
  DecompileData tn1 env None lst s1 dat = Some r1 ->
  DecompileData tn2 env None lst s2 dat = Some r2 ->
  same_stripped r1 r2.
Proof.
  intros Hs H1 H2. unfold DecompileData in H1, H2.
  bind_inv H1. rename a into ie1, Ha into Hie1. bind_inv H1.
  rename a into bs, Ha into Hbs. injection H1 as <-.
  bind_inv H2. rename a into ie2, Ha into Hie2. rewrite Hbs in H2.
  cbn [Partial.bind] in H2. injection H2 as <-.
  apply same_stripped_append2; [exact Hs|].
  pose proof (InitExp_same _ _ _ _ Hie1 Hie2) as Hie.
  unfold same_stripped in *.
  repeat first [progress simpl | rewrite StrFacts.strip_append].
  now rewrite Hie.
Qed.

End ModuleText.

Lemma fold_left_sep {A : Type} (f : string -> A -> string) (l : list A) :
  (forall s x, f s x = (s ++ f "" x)%string) ->
  forall s, fold_left f l s = (s ++ fold_left f l "")%string.
Proof.
  intros Hf. induction l as [|x l IH]; intros s; simpl.
  - now rewrite StrFacts.append_nil_r.
  - rewrite (IH (f s x)), (IH (f "" x)), (Hf s x).
    now rewrite StrFacts.append_assoc.
Qed.

Lemma DecompileParams_appends (env : Collaborators) (lst : LoadStoreTracking)
    (s : string) (f : Func) :
  DecompileParams env lst s f = (s ++ DecompileParams env lst "" f)%string.
Proof.
  unfold DecompileParams. apply fold_left_sep. intros s' [i t].
  destruct (i =? 0)%nat; simpl; now rewrite ?StrFacts.append_assoc.
Qed.

Lemma DecompileResults_appends (env : Collaborators) (s : string) (f : Func) :
  DecompileResults env s f = (s ++ DecompileResults env "" f)%string.
Proof.
  unfold DecompileResults.
  destruct (Func_result_types f) as [|t [|t' ts]].
  - now rewrite StrFacts.append_nil_r.
  - reflexivity.
  - match goal with
    | |- context [fold_left ?g _ _] =>
        assert (Hg : forall s x, g s x = (s ++ g "" x)%string)
    end.
    { intros s' [i x]. destruct (i =? 0)%nat; simpl;
        now rewrite ?StrFacts.append_assoc. }
    rewrite (fold_left_sep _ _ Hg (s ++ ":(")%string).
    rewrite (fold_left_sep _ _ Hg ("" ++ ":(")%string).
    simpl. now rewrite !StrFacts.append_assoc.
Qed.

Lemma body_lines (lines : list string) (init : string) :
  strip_whitespace
    (fold_left (fun (s : string) (stat : string) => ((s ++ stat) ++ newline)%string)
       lines init)
  = (strip_whitespace init ++ text_of_lines lines)%string.
Proof.
  revert init. induction lines as [|l lines IH]; intros init; simpl.
  - unfold text_of_lines. simpl. now rewrite StrFacts.append_nil_r.
  - rewrite IH, text_of_lines_cons, !StrFacts.strip_append, strip_newline.
    now rewrite StrFacts.append_nil_r, StrFacts.append_assoc.
Qed.

Lemma signature_appends (env : Collaborators) (lst : LoadStoreTracking)
    (s : string) (f : Func) :
  DecompileResults env (DecompileParams env lst s f ++ ")") f
  = (s ++ DecompileResults env (DecompileParams env lst "" f ++ ")") f)%string.
Proof.
  rewrite DecompileResults_appends, DecompileParams_appends.
  rewrite (DecompileResults_appends env (_ ++ ")")%string).
  now rewrite !StrFacts.append_assoc.
Qed.

Section ModuleText2.

Variables tn1 tn2 : Tunables.
Variable env : Collaborators.
Variable m : Module_.
Hypothesis Hbuilder : builder_ok env.

Lemma DecompileFunc_same (st1 st2 : string * LoadStoreTracking * Z) (f : Func)
    (r1 r2 : string * LoadStoreTracking * Z) :
  same_state st1 st2 ->
  DecompileFunc tn1 env m st1 f = Some r1 ->
  DecompileFunc tn2 env m st2 f = Some r2 ->
  same_state r1 r2.
Proof.
  destruct st1 as [[s1 lst] i], st2 as [[s2 lst'] i'].
  unfold same_state. cbn [fst snd]. intros (Hs & <- & <-).
  unfold DecompileFunc.
  rewrite (CheckImportExport_appends m s1), (CheckImportExport_appends m s2).
  destruct (snd (CheckImportExport m "" _ _ _)); cbn [negb Partial.bind];
    intros H1 H2.
  - injection H1 as <-. injection H2 as <-. cbn [fst snd].
    split; [|now split].
    rewrite !(signature_appends env lst (_ ++ _)%string).
    repeat apply same_stripped_append. exact Hs.
  - destruct (nth_error (AST_Construct env (Some f) (Func_exprs f)
                           (length (Func_result_types f)) true) 0)
      as [root|] eqn:Hroot; [|discriminate H1].
    cbn [Partial.bind] in H1, H2.
    pose proof (Hbuilder _ _ _ _ _ Hroot) as Hok.
    destruct (DecompileExpr tn1 env (Some f) _ root) as [val1|] eqn:Hval1;
      [|discriminate H1].
    destruct (DecompileExpr tn2 env (Some f) _ root) as [val2|] eqn:Hval2;
      [|discriminate H2].
    cbn [Partial.bind] in H1, H2. injection H1 as <-. injection H2 as <-.
    cbn [fst snd]. split; [|now split].
    pose proof (DecompileExpr_same_text tn1 tn2 env _ _ root val1 val2 Hok
                  Hval1 Hval2) as Ht.
    apply same_stripped_append. apply same_stripped_append.
    unfold same_stripped. rewrite !body_lines.
    fold (text (IndentValue val1 (indent_amount tn1) "")).
    fold (text (IndentValue val2 (indent_amount tn2) "")).
    rewrite !IndentValue_text_plain, Ht. f_equal.
    apply same_stripped_append.
    rewrite !(signature_appends env _ (_ ++ _)%string).
    repeat apply same_stripped_append. exact Hs.
Qed.

Lemma Decompile_same (s1 s2 : string) :
  Decompile tn1 env m = Some s1 ->
  Decompile tn2 env m = Some s2 ->
  same_stripped s1 s2.
Proof.
  unfold Decompile. intros H1 H2.
  destruct (fold_left (DecompileMemory m) (memories m) ("", 0%Z))
    as [sm im] eqn:Hm.
  bind_inv H1. rename a into sg1, Ha into Hg1.
  bind_inv H2. rename a into sg2, Ha into Hg2.
  assert (Hglob : same_stripped (fst sg1) (fst sg2) /\ snd sg1 = snd sg2).
  { refine (foldM_same
              (fun st1 st2 : string * Z =>
                 same_stripped (fst st1) (fst st2) /\ snd st1 = snd st2)
              _ _ _ _ _ _ _ _ _ Hg1 Hg2).
    - intros st1 st2 x st1' st2' HR.
      exact (DecompileGlobal_same tn1 tn2 env m Hbuilder _ st1 st2 x st1' st2' HR).
    - now split. }
  destruct Hglob as [Hglob _].
  pose proof (fold_left_same (DecompileTable env m) (tables m)
                (DecompileTable_same env m) _ _ 0%Z
                (section_end_same (globals m) _ _ Hglob)) as Htab.
  destruct (fold_left (DecompileTable env m) (tables m)
              (section_end (globals m) (fst sg1), 0%Z)) as [st1 it1].
  destruct (fold_left (DecompileTable env m) (tables m)
              (section_end (globals m) (fst sg2), 0%Z)) as [st2 it2].
  cbn [fst] in Htab.
  bind_inv H1. rename a into sd1, Ha into Hd1.
  bind_inv H2. rename a into sd2, Ha into Hd2.
  assert (Hdat : same_stripped sd1 sd2).
  { refine (foldM_same same_stripped _ _ _ _ _ _ _ _ _ Hd1 Hd2).
    - intros x1 x2 x x1' x2' HR.
      exact (DecompileData_same tn1 tn2 env Hbuilder _ x1 x2 x x1' x2' HR).
    - now apply section_end_same. }
  bind_inv H1. rename a into sf1, Ha into Hf1.
  bind_inv H2. rename a into sf2, Ha into Hf2.
  injection H1 as <-. injection H2 as <-.
  refine (proj1 (foldM_same same_state _ _ _ _ _ _ _ _ _ Hf1 Hf2)).
  - intros x1 x2 x x1' x2'. apply DecompileFunc_same.
  - split; [|now split]. now apply section_end_same.
Qed.

End ModuleText2.

(** ** The tunables only move whitespace *)

(** X1: a tree that is well formed, has no leaf of empty text and in which
    every operand whose flag is read has a flag fixed by its kind is
    rendered under any two settings of [indent_amount] and
    [target_exp_width], and the two fragments hold the same characters once
    whitespace is deleted; the [Statements] loop also treats them alike. *)
Theorem DecompileExpr_text_independent_of_tunables (tn1 tn2 : Tunables)
    (env : Collaborators) (cur_func : option Func) (lst : LoadStoreTracking)
    (n : Node) :
  ast_ok env cur_func n = true ->
  exists val1 val2,
    DecompileExpr tn1 env cur_func lst n = Some val1
    /\ DecompileExpr tn2 env cur_func lst n = Some val2
    /\ text val1 = text val2
    /\ brace val1 = brace val2.
Proof.
  unfold ast_ok. rewrite !andb_true_iff. intros [[Hwf Hatoms] Hflags].
  destruct (DecompileExpr_alike tn1 tn2 env cur_func lst n Hwf Hatoms Hflags)
    as (a1 & a2 & H1 & H2 & [Ht Hb] & _).
  now exists a1, a2.
Qed.

Lemma DecompileExpr_text_independent_of_tunables_witness :
  ast_ok Sample.env None Sample.body = true
  /\ exists val1 val2,
       DecompileExpr default_tunables Sample.env None Demo.lst Sample.body
       = Some val1
       /\ DecompileExpr Sample.narrow Sample.env None Demo.lst Sample.body
          = Some val2
       /\ text val1 = text val2
       /\ brace val1 = brace val2.
Proof.
  split; [reflexivity|].
  apply (DecompileExpr_text_independent_of_tunables default_tunables
           Sample.narrow Sample.env None Demo.lst Sample.body).
  reflexivity.
Defined.

(** X2: when every tree of the AST builder can be taken by the renderer,
    two runs of [Decompile] on the same module with different
    [indent_amount] and [target_exp_width] give outputs that differ in
    whitespace only. *)
Theorem Decompile_text_independent_of_tunables (tn1 tn2 : Tunables)
    (env : Collaborators) (m : Module_) (s1 s2 : string) :
  builder_ok env ->
  Decompile tn1 env m = Some s1 ->
  Decompile tn2 env m = Some s2 ->
  strip_whitespace s1 = strip_whitespace s2.
Proof.
  intros Hbuilder H1 H2.
  exact (Decompile_same tn1 tn2 env m Hbuilder s1 s2 H1 H2).
Qed.

Lemma Sample_builder_ok : builder_ok Sample.env.
Proof.
  intros f el n b root H. simpl in H. injection H as <-.
  now destruct f.
Qed.

Lemma Decompile_text_independent_of_tunables_witness :
  exists s1 s2,
    Decompile default_tunables Sample.env Sample.module = Some s1
    /\ Decompile Sample.narrow Sample.env Sample.module = Some s2
    /\ s1 <> s2
    /\ strip_whitespace s1 = strip_whitespace s2.
Proof.
  eexists. eexists.
  split; [vm_compute; reflexivity|].
  split; [vm_compute; reflexivity|].
  split; [discriminate|].
  apply (Decompile_text_independent_of_tunables default_tunables
           Sample.narrow Sample.env Sample.module).
  - exact Sample_builder_ok.
  - reflexivity.
  - reflexivity.
Defined.

(** ** What the layout primitives keep *)

Ltac solve_usable :=
  split; [discriminate | unfold lines_not_empty; simpl; repeat constructor;
                         discriminate].

Section LayoutShape.

Variable tn : Tunables.

Lemma WrapChild_length (child : Value) (prefix postfix : string) (val : Value) :
  WrapChild tn child prefix postfix = Some val ->
  length (v val) = length (v child) \/ length (v val) = S (length (v child)).
Proof.
  unfold WrapChild. intros H.
  destruct (_ || _)%bool.
  - left. destruct (length (v child) =? 1) eqn:Hone.
    + destruct (v child) as [|l rest]; [discriminate|].
      now injection H as <-.
    + bind_inv H. injection H as <-. simpl.
      rewrite (update_back_length _ _ _ Ha). apply IndentValue_length.
  - right. bind_inv H. injection H as <-. simpl.
    rewrite (update_back_length _ _ _ Ha). simpl.
    now rewrite IndentValue_length.
Qed.

(** X3: on a child with lines, none of them empty, [WrapChild] returns a
    fragment that reads [prefix], the child, [postfix] whichever of its
    three layouts it chooses; the child's [needs_bracketing] flag is handed
    on, and at most one line is added (the prefix on a line of its own). *)
Theorem WrapChild_keeps_text_and_flag (child : Value)
    (prefix postfix : string) :
  usable child ->
  exists val,
    WrapChild tn child prefix postfix = Some val
    /\ text val
       = (strip_whitespace prefix ++ text child
            ++ strip_whitespace postfix)%string
    /\ needs_bracketing val = needs_bracketing child
    /\ (length (v val) = length (v child)
        \/ length (v val) = S (length (v child))).
Proof.
  intros Hu.
  destruct (WrapChild_defined tn child prefix postfix (proj1 Hu)) as [val H].
  destruct (WrapChild_summary tn child prefix postfix val Hu H)
    as (Ht & _ & Hf).
  exists val. repeat split; try assumption.
  exact (WrapChild_length _ _ _ _ H).
Qed.

(** X4: [BracketIfNeeded] puts a fragment between ['('] and [')'] exactly
    when its flag is set and clears the flag, so that a second call changes
    nothing. *)
Theorem BracketIfNeeded_brackets_once (val : Value) :
  usable val ->
  exists val',
    BracketIfNeeded tn val = Some val'
    /\ text val' = bracketed_text val
    /\ needs_bracketing val' = false
    /\ BracketIfNeeded tn val' = Some val'.
Proof.
  intros Hu.
  destruct (BracketIfNeeded_defined tn val (proj1 Hu)) as (val' & H & _).
  destruct (BracketIfNeeded_summary tn val val' Hu H) as (Ht & _ & Hf & _).
  exists val'. repeat split; try assumption.
  unfold BracketIfNeeded. now rewrite Hf.
Qed.

(** X5: [WrapBinary] writes the left operand, the infix and the right
    operand in this order in both of its layouts, an operand between
    brackets exactly when its flag is set; the result asks for brackets. *)
Theorem WrapBinary_brackets_flagged_operands (l r : Value) (infix : string)
    (indent_right : bool) :
  usable l -> usable r ->
  exists val,
    WrapBinary tn [l; r] infix indent_right = Some val
    /\ text val
       = (bracketed_text l ++ strip_whitespace infix
            ++ bracketed_text r)%string
    /\ needs_bracketing val = true.
Proof.
  intros Hl Hr.
  destruct (WrapBinary_defined tn l r infix indent_right (proj1 Hl) (proj1 Hr))
    as [val H].
  destruct (WrapBinary_summary tn l r infix indent_right val Hl Hr H)
    as (Ht & _ & Hf).
  now exists val.
Qed.

Lemma width_of_line (val : Value) (s : string) :
  v val = [s] -> width val = String.length s.
Proof. unfold width. now intros ->. Qed.

Lemma BracketIfNeeded_keeps_lines (val val' : Value) :
  BracketIfNeeded tn val = Some val' -> v val <> [] -> v val' <> [].
Proof.
  unfold BracketIfNeeded. destruct (negb _).
  - now intros [= <-].
  - intros H _. bind_inv H. injection H as <-. simpl.
    exact (WrapChild_not_nil _ _ _ _ _ Ha).
Qed.

(** X6: when both operands have lines, a result of [WrapBinary] that is a
    single line is shorter than [target_exp_width]; a result that reaches
    the width has two lines or more. *)
Theorem WrapBinary_one_line_is_narrow (args : list Value) (infix : string)
    (indent_right : bool) (val : Value) :
  Forall (fun a => v a <> []) args ->
  WrapBinary tn args infix indent_right = Some val ->
  (length (v val) = 1 -> width val < target_exp_width tn)
  /\ (target_exp_width tn <= width val -> 2 <= length (v val)).
Proof.
  intros Hargs H.
  assert (Hone : length (v val) = 1 -> width val < target_exp_width tn).
  { unfold WrapBinary in H. bind_inv H. clear Ha.
    bind_inv H. rename a0 into left0, Ha into Hl0.
    bind_inv H. rename a0 into right0, Ha into Hr0.
    bind_inv H. rename a0 into left, Ha into Hl.
    bind_inv H. rename a0 into right, Ha into Hr.
    pose proof (proj1 (Forall_forall _ _) Hargs _ (nth_error_In _ _ Hl0))
      as Hvl0.
    pose proof (proj1 (Forall_forall _ _) Hargs _ (nth_error_In _ _ Hr0))
      as Hvr0.
    pose proof (BracketIfNeeded_keeps_lines _ _ Hl Hvl0) as Hvl.
    pose proof (BracketIfNeeded_keeps_lines _ _ Hr Hvr0) as Hvr.
    destruct (_ && _)%bool eqn:Hfit.
    - rewrite !andb_true_iff in Hfit. destruct Hfit as [[Hw Hl1] Hr1].
      apply Nat.ltb_lt in Hw.
      bind_inv H. rename a0 into l0, Ha into Hl0'.
      bind_inv H. rename a0 into r0, Ha into Hr0'.
      injection H as <-. intros _.
      destruct (v left) as [|x [|? ?]] eqn:El; try discriminate Hl1.
      destruct (v right) as [|y [|? ?]] eqn:Er; try discriminate Hr1.
      simpl in Hl0', Hr0'. injection Hl0' as <-. injection Hr0' as <-.
      rewrite (width_of_line left x El), (width_of_line right y Er) in Hw.
      rewrite (width_of_line (mkValue [_] true) _ eq_refl).
      rewrite !StrFacts.length_append. lia.
    - bind_inv H. injection H as <-. simpl. intros Hlen.
      rewrite length_app, (update_back_length _ _ _ Ha) in Hlen.
      assert (length (v left) <> 0) by (now destruct (v left)).
      assert (length (v (if indent_right
                         then IndentValue right (indent_amount tn) ""
                         else right)) <> 0).
      { destruct indent_right.
        - rewrite IndentValue_length. now destruct (v right).
        - now destruct (v right). }
      lia. }
  split; [exact Hone|].
  intros Hw. pose proof (WrapBinary_not_nil _ _ _ _ _ H) as Hnil.
  destruct (v val) as [|x [|y rest]] eqn:E; [contradiction| |simpl; lia].
  specialize (Hone eq_refl). lia.
Qed.

(** X7: on arguments with lines, none of them empty, [WrapNAry] returns a
    fragment that reads [prefix], the arguments separated by [','] and
    [postfix] in its single-line layout and in both multi-line layouts, and
    that asks for no brackets. *)
Theorem WrapNAry_text_in_every_layout (args : list Value)
    (prefix postfix : string) :
  Forall usable args ->
  exists val,
    WrapNAry tn args prefix postfix = Some val
    /\ text val
       = (strip_whitespace prefix ++ String.concat "," (map text args)
            ++ strip_whitespace postfix)%string
    /\ needs_bracketing val = false.
Proof.
  intros Hu.
  assert (Hv : Forall (fun a => v a <> []) args).
  { eapply Forall_impl; [|exact Hu]. now intros a [Ha _]. }
  destruct (WrapNAry_defined tn args prefix postfix Hv) as [val H].
  destruct (WrapNAry_summary tn args prefix postfix val Hu H) as (Ht & _ & Hf).
  now exists val.
Qed.

End LayoutShape.

Lemma WrapChild_keeps_text_and_flag_witness :
  exists val,
    WrapChild Sample.narrow Sample.sum "fffffffffffffffff(" ")" = Some val
    /\ text val = "fffffffffffffffff(a+b)"
    /\ needs_bracketing val = true
    /\ (length (v val) = 2 \/ length (v val) = 3).
Proof.
  apply (WrapChild_keeps_text_and_flag Sample.narrow Sample.sum
           "fffffffffffffffff(" ")").
  solve_usable.
Defined.

Lemma BracketIfNeeded_brackets_once_witness :
  exists val',
    BracketIfNeeded default_tunables Sample.sum = Some val'
    /\ text val' = "(a+b)"
    /\ needs_bracketing val' = false
    /\ BracketIfNeeded default_tunables val' = Some val'.
Proof.
  apply (BracketIfNeeded_brackets_once default_tunables Sample.sum).
  solve_usable.
Defined.

Lemma WrapBinary_brackets_flagged_operands_witness :
  exists val,
    WrapBinary default_tunables [Sample.sum; Demo.line "c"] " * " false
    = Some val
    /\ text val = "(a+b)*c"
    /\ needs_bracketing val = true.
Proof.
  apply (WrapBinary_brackets_flagged_operands default_tunables Sample.sum
           (Demo.line "c") " * " false); solve_usable.
Defined.

Lemma WrapBinary_one_line_is_narrow_witness :
  (length (v (mkValue ["x * y"] true)) = 1 ->
   width (mkValue ["x * y"] true) < target_exp_width default_tunables)
  /\ (target_exp_width default_tunables <= width (mkValue ["x * y"] true) ->
      2 <= length (v (mkValue ["x * y"] true))).
Proof.
  apply (WrapBinary_one_line_is_narrow default_tunables
           [Demo.line "x"; Demo.line "y"] " * " false).
  - repeat constructor; discriminate.
  - reflexivity.
Defined.

Lemma WrapNAry_text_in_every_layout_witness :
  exists val,
    WrapNAry Sample.narrow [Sample.sum; Demo.line "c"] "f(" ")" = Some val
    /\ text val = "f(a+b,c)"
    /\ needs_bracketing val = false.
Proof.
  apply (WrapNAry_text_in_every_layout Sample.narrow
           [Sample.sum; Demo.line "c"] "f(" ")").
  apply Forall_cons; [solve_usable|].
  apply Forall_cons; [solve_usable | apply Forall_nil].
Defined.

(** ** Flags, braces and conditionals *)

Section RendererShape.

Variable tn : Tunables.
Variable env : Collaborators.
Variable cur_func : option Func.
Variable lst : LoadStoreTracking.

(** X8: the kind of a node fixes the [needs_bracketing] flag of its
    fragment wherever [static_flag] gives one: set for assignments, binary
    operations, comparisons and stores; the operand's flag under a unary
    operation, a [br_if], a block, a loop, a drop and a declaration with
    initialiser; cleared for every other kind except an [if] whose condition
    may ask for brackets. *)
Theorem DecompileExpr_flag_fixed_by_kind (n : Node) (val : Value) (b : bool) :
  DecompileExpr tn env cur_func lst n = Some val ->
  static_flag n = Some b ->
  needs_bracketing val = b.
Proof. apply DecompileExpr_flag. Qed.

Lemma DecompileIf_brace (false_ : ExprList) (args : list Value) (val : Value) :
  DecompileIf tn false_ args = Some val -> brace val = true.
Proof.
  unfold DecompileIf. intros H.
  bind_inv H. rename a into elsep. clear Ha.
  bind_inv H. bind_inv H.
  destruct elsep as [els|]; cbv beta iota zeta in H.
  - destruct (_ || _)%bool.
    + binds_inv H. injection H as <-. apply brace_snoc.
    + binds_inv H. injection H as <-. rewrite brace_one.
      apply if_else_line_text.
  - destruct (_ || _)%bool.
    + binds_inv H. injection H as <-. apply brace_snoc.
    + binds_inv H. injection H as <-. rewrite brace_one.
      apply if_line_text.
Qed.

(** X9: the fragment of a block, of a loop and of an [if], in either
    layout, ends in ['}'], so the [Statements] loop leaves it as it is and
    no [';'] follows the closing brace. *)
Theorem braced_constructs_take_no_semicolon (n : Node) (val : Value) :
  ntype n = NodeType.Expr ->
  etype n = ExprType.Block \/ etype n = ExprType.Loop
  \/ etype n = ExprType.If ->
  DecompileExpr tn env cur_func lst n = Some val ->
  brace val = true /\ terminate_statement val = Some (v val).
Proof.
  intros Hnt Het H.
  assert (Hb : brace val = true).
  { rewrite DecompileExpr_unfold in H. bind_inv H. rename a into args.
    unfold DecompileNode in H. rewrite Hnt in H.
    unfold DecompileExprType in H.
    destruct Het as [Het | [Het | Het]]; rewrite Het in H; binds_inv H.
    - injection H as <-. apply Block_summary.
    - injection H as <-. apply Block_summary.
    - exact (DecompileIf_brace _ _ _ H). }
  split; [exact Hb|].
  unfold brace, last_line in Hb. unfold terminate_statement.
  destruct (Vec.back (v val)) as [s|]; [|discriminate]. simpl.
  unfold ends_with in Hb. destruct (Str.back s) as [c|]; [|discriminate].
  simpl. now rewrite Hb.
Qed.

(** X10: [LoadStore] puts an address whose flag is set between brackets
    before it appends the access, and the result never asks for brackets. *)
Theorem LoadStore_brackets_flagged_address (val : Value) (addr_exp : Node)
    (offset : Z) (opc : Opcode) (align : Z) (op_type : Type_.t) :
  usable val ->
  exists val',
    LoadStore tn env lst val addr_exp offset opc align op_type = Some val'
    /\ text val'
       = (bracketed_text val
            ++ strip_whitespace
                 (LoadStore_suffix env lst addr_exp offset opc align op_type))%string
    /\ needs_bracketing val' = false.
Proof.
  intros Hu.
  destruct (LoadStore_defined tn env lst val addr_exp offset opc align op_type
              (proj1 Hu)) as (val' & H & _).
  destruct (LoadStore_summary tn env lst val addr_exp offset opc align op_type
              val' Hu H) as (Ht & _ & Hf & _).
  now exists val'.
Qed.

(** X11: an [if] reads [if (c) { t }], with [else { e }] when the record
    has a second arm, in the single-line layout and in the multi-line one:
    the two layouts hold the same characters. *)
Theorem If_has_the_same_tokens_in_both_layouts (false_ : ExprList)
    (args : list Value) (val : Value) :
  Forall usable args ->
  DecompileIf tn false_ args = Some val ->
  exists c t,
    nth_error args 0 = Some c /\ nth_error args 1 = Some t
    /\ text val
       = if_text c t (if negb (length false_ =? 0)
                      then nth_error args 2 else None).
Proof.
  intros Hu H.
  assert (Hnth : forall i a, nth_error args i = Some a -> usable a).
  { intros i a Ha.
    exact (proj1 (Forall_forall _ _) Hu a (nth_error_In _ _ Ha)). }
  destruct (DecompileIf_summary tn false_ args val (Hnth 0) (Hnth 1)
              (fun _ => Hnth 2) H)
    as (c & t & els & Hc & Ht & -> & Htext & _).
  now exists c, t.
Qed.

End RendererShape.

Lemma DecompileExpr_flag_fixed_by_kind_witness :
  needs_bracketing (mkValue ["(p i32_add 4)[8]:int"] false) = false.
Proof.
  apply (DecompileExpr_flag_fixed_by_kind default_tunables
           (Demo.env (fun _ => [])) None Demo.lst Sample.load_of_sum
           (mkValue ["(p i32_add 4)[8]:int"] false) false);
    reflexivity.
Defined.

Lemma braced_constructs_take_no_semicolon_witness :
  brace (mkValue ["block L {"; "  x"; "}"] false) = true
  /\ terminate_statement (mkValue ["block L {"; "  x"; "}"] false)
     = Some ["block L {"; "  x"; "}"].
Proof.
  apply (braced_constructs_take_no_semicolon default_tunables
           (Demo.env (fun _ => [])) None Demo.lst
           (Sample.block (Demo.local_get "x"))
           (mkValue ["block L {"; "  x"; "}"] false)).
  - reflexivity.
  - left. reflexivity.
  - reflexivity.
Defined.

Lemma LoadStore_brackets_flagged_address_witness :
  exists val',
    LoadStore default_tunables (Demo.env (fun _ => [])) Demo.lst Sample.sum
      (Demo.local_get "p") 8 (Demo.opcode "i32.load") 4 Type_.I32 = Some val'
    /\ text val' = "(a+b)[8]:int"
    /\ needs_bracketing val' = false.
Proof.
  apply (LoadStore_brackets_flagged_address default_tunables
           (Demo.env (fun _ => [])) Demo.lst Sample.sum (Demo.local_get "p")
           8 (Demo.opcode "i32.load") 4 Type_.I32).
  solve_usable.
Defined.

Lemma If_has_the_same_tokens_in_both_layouts_witness :
  exists c t,
    nth_error [Demo.line "c"; Demo.line "xxxxxxxxxx"; Demo.line "yyyyyyyyyy"] 0
    = Some c
    /\ nth_error [Demo.line "c"; Demo.line "xxxxxxxxxx"; Demo.line "yyyyyyyyyy"]
         1 = Some t
    /\ text (mkValue ["if (c) {"; "  xxxxxxxxxx"; "} else {"; "  yyyyyyyyyy";
                      "}"] false)
       = if_text c t (Some (Demo.line "yyyyyyyyyy")).
Proof.
  apply (If_has_the_same_tokens_in_both_layouts Sample.narrow [OtherExpr]
           [Demo.line "c"; Demo.line "xxxxxxxxxx"; Demo.line "yyyyyyyyyy"]).
  - apply Forall_cons; [solve_usable|].
    apply Forall_cons; [solve_usable|].
    apply Forall_cons; [solve_usable | apply Forall_nil].
  - reflexivity.
Defined.

(** ** Widths, indentation and literals *)

Lemma width_fold (l : list string) (a : nat) :
  fold_left (fun w s => Nat.max w (String.length s)) l a
  = Nat.max a (fold_left (fun w s => Nat.max w (String.length s)) l 0).
Proof.
  revert a. induction l as [|s l IH]; intros a; simpl; [lia|].
  rewrite (IH (Nat.max a _)), (IH (String.length s)). lia.
Qed.

Lemma width_cons (s : string) (l : list string) (flag flag' : bool) :
  width (mkValue (s :: l) flag)
  = Nat.max (String.length s) (width (mkValue l flag')).
Proof. unfold width. simpl. now rewrite width_fold. Qed.

(** X12: [width()] is the length of the longest line: no line is longer,
    some line has that length, and a fragment without lines has width 0. *)
Theorem width_is_the_longest_line (val : Value) :
  Forall (fun s => String.length s <= width val) (v val)
  /\ match v val with
     | [] => width val = 0
     | _ :: _ => exists s, In s (v val) /\ String.length s = width val
     end.
Proof.
  destruct val as [l flag]. simpl v. induction l as [|s l [IHle IHmax]].
  - split; [constructor | reflexivity].
  - rewrite (width_cons s l flag flag). split.
    + constructor; [lia|].
      eapply Forall_impl; [|exact IHle]. simpl. intros x Hx. lia.
    + destruct (Nat.max_spec (String.length s) (width (mkValue l flag)))
        as [[Hlt ->] | [Hge ->]].
      * destruct l as [|x l'];
          [unfold width in Hlt; simpl in Hlt; lia|].
        destruct IHmax as (y & Hy & Hlen).
        exists y. split; [now right | exact Hlen].
      * exists s. split; [now left | reflexivity].
Qed.

Lemma length_Indent (k : nat) : String.length (Indent k) = k.
Proof.
  unfold Indent. induction k as [|k IH]; simpl; [reflexivity|now rewrite IH].
Qed.

Lemma width_map_indent (k : nat) (l : list string) (flag : bool) :
  l <> [] ->
  width (mkValue (map (fun s => (Indent k ++ s)%string) l) flag)
  = width (mkValue l flag) + k.
Proof.
  induction l as [|s l IH]; [congruence|]. intros _. cbn [map].
  rewrite !(width_cons _ _ flag flag), StrFacts.length_append, length_Indent.
  destruct l as [|x l'].
  - unfold width. simpl. lia.
  - rewrite IH by discriminate. lia.
Qed.

Lemma IndentValue_map (val : Value) (k : nat) :
  v (IndentValue val k "") = map (fun s => (Indent k ++ s)%string) (v val).
Proof.
  unfold IndentValue. destruct (v val) as [|s l] eqn:E; [now rewrite E|].
  reflexivity.
Qed.

(** X13: without a first indent, [IndentValue] puts [amount] spaces in
    front of every line: the width of a fragment with lines grows by
    [amount], and the characters other than whitespace and the flag stay. *)
Theorem IndentValue_shifts_every_line (val : Value) (k : nat) :
  v (IndentValue val k "") = map (fun s => (Indent k ++ s)%string) (v val)
  /\ (v val <> [] -> width (IndentValue val k "") = width val + k)
  /\ text (IndentValue val k "") = text val
  /\ needs_bracketing (IndentValue val k "") = needs_bracketing val.
Proof.
  split; [apply IndentValue_map|]. split; [|split].
  - intros Hne. destruct val as [l flag]. simpl in *.
    rewrite <- (width_map_indent k l flag Hne).
    unfold width. now rewrite IndentValue_map.
  - apply IndentValue_text_plain.
  - unfold IndentValue. now destruct (v val).
Qed.

Lemma trim_loop_fixed (fuel : nat) (s : string) :
  trim_cond s = false -> trim_loop fuel s = s.
Proof. intros H. destruct fuel; simpl; [reflexivity|now rewrite H]. Qed.

(** X14: [to_string] on any text, of a number or not, only shortens it, and
    trimming a second time changes nothing. *)
Theorem to_string_is_idempotent (s : string) :
  to_string (to_string s) = to_string s
  /\ String.length (to_string s) <= String.length s.
Proof.
  unfold to_string at 1 3.
  destruct (trim_loop_exit (String.length s) s (le_n _)) as [Hexit [k Hk]].
  fold (to_string s) in Hexit, Hk. split.
  - now apply trim_loop_fixed.
  - rewrite Hk at 2. rewrite StrFacts.length_append. lia.
Qed.

Lemma replace_length (a b : ascii) (s : string) :
  String.length (Str.replace a b s) = String.length s.
Proof. induction s as [|c s IH]; simpl; [reflexivity|now rewrite IH]. Qed.

Lemma replace_occurs (a b : ascii) (s : string) :
  Ascii.eqb b a = false -> occurs a (Str.replace a b s) = false.
Proof.
  intros Hab. induction s as [|c s IH]; simpl; [reflexivity|].
  rewrite IH, orb_false_r.
  destruct (Ascii.eqb c a) eqn:E; [exact Hab | exact E].
Qed.

Lemma replace_absent (a b : ascii) (s : string) :
  occurs a s = false -> Str.replace a b s = s.
Proof.
  induction s as [|c s IH]; simpl; [reflexivity|].
  intros H. apply orb_false_iff in H. destruct H as [Hc Hs].
  now rewrite Hc, IH.
Qed.

(** X15: the token of an opcode has no ['.'] left, has the length of the
    opcode's name, and is that name when the name has no ['.']. *)
Theorem OpcodeToToken_has_no_dot (opcode : Opcode) :
  occurs "." (OpcodeToToken opcode) = false
  /\ String.length (OpcodeToToken opcode) = String.length (GetDecomp opcode)
  /\ (occurs "." (GetDecomp opcode) = false ->
      OpcodeToToken opcode = GetDecomp opcode).
Proof.
  unfold OpcodeToToken. split; [|split].
  - now apply replace_occurs.
  - apply replace_length.
  - apply replace_absent.
Qed.

Lemma to_int_not_nil (z : Z) :
  Z.to_int z <> Decimal.Pos Decimal.Nil /\ Z.to_int z <> Decimal.Neg Decimal.Nil.
Proof.
  destruct z as [|p|p]; simpl; split; try discriminate;
    intros H; injection H as H;
    pose proof (DecimalPos.Unsigned.to_uint_nonnil p); contradiction.
Qed.

Lemma of_Z_inj (a b : Z) : Str.of_Z a = Str.of_Z b -> a = b.
Proof.
  unfold Str.of_Z. intros H. apply DecimalZ.to_int_inj.
  destruct (to_int_not_nil a) as [Ha1 Ha2], (to_int_not_nil b) as [Hb1 Hb2].
  pose proof (NilZero.isi _ Ha1 Ha2) as Ia.
  pose proof (NilZero.isi _ Hb1 Hb2) as Ib.
  rewrite H in Ia. congruence.
Qed.

Lemma TempVarName_inj (a b : Z) : TempVarName a = TempVarName b -> a = b.
Proof. unfold TempVarName. intros H. injection H as H. now apply of_Z_inj. Qed.

(** X16: two temporaries have the same name only when they have the same
    index. *)
Theorem TempVarName_is_injective (a b : Z) :
  TempVarName a = TempVarName b <-> a = b.
Proof. split; [apply TempVarName_inj | now intros ->]. Qed.

Lemma flush_fold (f : nat -> string) (l : list nat) (s : string) :
  ~ In 0 l ->
  fold_left (fun (decls : string) (i : nat) =>
               ((if (i =? 0)%nat then decls else decls ++ ", ") ++ f i)%string)
    l s
  = (s ++ Str.cat (map (fun i => (", " ++ f i)%string) l))%string.
Proof.
  revert s. induction l as [|i l IH]; intros s Hnot; simpl.
  - now rewrite StrFacts.append_nil_r.
  - rewrite IH by (intros Hin; apply Hnot; now right).
    destruct i as [|i]; [exfalso; apply Hnot; now left|]. simpl.
    now rewrite !StrFacts.append_assoc.
Qed.

Lemma concat_sep (xs : list string) (x : string) :
  String.concat ", " (x :: xs)
  = (x ++ Str.cat (map (fun y => (", " ++ y)%string) xs))%string.
Proof.
  revert x. induction xs as [|y xs IH]; intros x.
  - simpl. now rewrite StrFacts.append_nil_r.
  - change (String.concat ", " (x :: y :: xs))
      with (x ++ ", " ++ String.concat ", " (y :: xs))%string.
    rewrite IH. simpl. reflexivity.
Qed.

Lemma separated_fold (f : nat -> string) (n : nat) (s : string) :
  fold_left (fun (decls : string) (i : nat) =>
               ((if (i =? 0)%nat then decls else decls ++ ", ") ++ f i)%string)
    (seq 0 n) s
  = (s ++ String.concat ", " (map f (seq 0 n)))%string.
Proof.
  destruct n as [|n]; [simpl; now rewrite StrFacts.append_nil_r|].
  cbn [seq map fold_left]. rewrite flush_fold.
  - rewrite concat_sep, map_map. cbn [Nat.eqb].
    now rewrite StrFacts.append_assoc.
  - intros Hin. apply in_seq in Hin. lia.
Qed.

Lemma mod_inj (s i j : Z) :
  (0 <= i < 2 ^ 32)%Z -> (0 <= j < 2 ^ 32)%Z ->
  ((s + i) mod 2 ^ 32 = (s + j) mod 2 ^ 32)%Z -> i = j.
Proof.
  intros Hi Hj H.
  assert (Hd : ((i - j) mod 2 ^ 32 = 0)%Z).
  { replace (i - j)%Z with ((s + i) - (s + j))%Z by lia.
    rewrite Zminus_mod, H, Z.sub_diag. reflexivity. }
  apply Z.mod_divide in Hd; [|lia]. destruct Hd as [q Hq]. nia.
Qed.

(** X17: a [FlushToVars] node writes [let], the names of its [var_count]
    temporaries separated by [", "], and [" = "]; the names are pairwise
    distinct, also when [var_start + i] wraps around. *)
Theorem flush_decls_lists_distinct_names (var_start var_count : Z) :
  flush_decls var_start var_count
  = ("let " ++ String.concat ", " (decl_names var_start var_count)
       ++ " = ")%string
  /\ length (decl_names var_start var_count) = Z.to_nat var_count
  /\ ((var_count <= 2 ^ 32)%Z -> NoDup (decl_names var_start var_count)).
Proof.
  unfold flush_decls, decl_names. split; [|split].
  - rewrite (separated_fold
               (fun i => TempVarName ((var_start + Z.of_nat i) mod 2 ^ 32))).
    now rewrite StrFacts.append_assoc.
  - now rewrite length_map, length_seq.
  - intros Hcount. apply NoDup_map_NoDup_ForallPairs; [|apply seq_NoDup].
    intros i j Hi Hj H. apply in_seq in Hi, Hj.
    apply TempVarName_inj in H. apply mod_inj in H; lia.
Qed.

Lemma to_int32_range (x : Z) :
  (- 2 ^ 31 <= to_int32 x < 2 ^ 31)%Z
  /\ (to_int32 x mod 2 ^ 32 = x mod 2 ^ 32)%Z.
Proof.
  unfold to_int32. split.
  - pose proof (Z.mod_pos_bound (x + 2 ^ 31) (2 ^ 32) ltac:(lia)). lia.
  - rewrite Zminus_mod, Z.mod_mod by lia. rewrite <- Zminus_mod.
    f_equal. lia.
Qed.

Lemma Const_u32_range (c : Const) : (0 <= Const_u32 c < 2 ^ 32)%Z.
Proof. unfold Const_u32. apply Z.mod_pos_bound. lia. Qed.

(** X18: an [i32] constant is written as the decimal of its 32 bits read
    in two's complement, a number from [-2^31] to [2^31 - 1]; two [i32]
    constants with the same text hold the same bits. *)
Theorem i32_constant_is_written_signed (env : Collaborators) (c : Const) :
  const_type c = Type_.I32 ->
  (exists z,
     DecompileConst env c = Some (mkValue [Str.of_Z z] false)
     /\ (- 2 ^ 31 <= z < 2 ^ 31)%Z
     /\ (z mod 2 ^ 32 = Const_u32 c)%Z)
  /\ (forall c',
        const_type c' = Type_.I32 ->
        DecompileConst env c = DecompileConst env c' ->
        Const_u32 c = Const_u32 c').
Proof.
  intros Ht. unfold DecompileConst. rewrite Ht. split.
  - exists (to_int32 (Const_u32 c)).
    destruct (to_int32_range (Const_u32 c)) as [Hr Hm].
    split; [reflexivity|]. split; [exact Hr|].
    rewrite Hm. apply Z.mod_small. apply Const_u32_range.
  - intros c' Ht' H. rewrite Ht' in H. injection H as H.
    apply of_Z_inj in H.
    destruct (to_int32_range (Const_u32 c)) as [_ Hm].
    destruct (to_int32_range (Const_u32 c')) as [_ Hm'].
    rewrite H, Hm' in Hm.
    rewrite !Z.mod_small in Hm by apply Const_u32_range. now symmetry.
Qed.

Lemma i32_constant_is_written_signed_witness :
  (exists z,
     DecompileConst (Demo.env (fun _ => [])) (mkConst Type_.I32 4294967295)
     = Some (mkValue [Str.of_Z z] false)
     /\ (- 2 ^ 31 <= z < 2 ^ 31)%Z
     /\ (z mod 2 ^ 32 = Const_u32 (mkConst Type_.I32 4294967295))%Z)
  /\ (forall c',
        const_type c' = Type_.I32 ->
        DecompileConst (Demo.env (fun _ => [])) (mkConst Type_.I32 4294967295)
        = DecompileConst (Demo.env (fun _ => [])) c' ->
        Const_u32 (mkConst Type_.I32 4294967295) = Const_u32 c').
Proof.
  apply (i32_constant_is_written_signed (Demo.env (fun _ => []))
           (mkConst Type_.I32 4294967295)).
  reflexivity.
Defined.

(** ** The text of a data segment *)

Lemma all_chars_append (p : ascii -> bool) (a b : string) :
  all_chars p (a ++ b) = all_chars p a && all_chars p b.
Proof.
  induction a as [|c a IH]; simpl; [reflexivity|].
  now rewrite IH, andb_assoc.
Qed.

Lemma byte_text_printable (c : Byte.byte) :
  all_chars printable_char (byte_text c) = true
  /\ String.length (byte_text c) = (if printable c then 1 else 3).
Proof. destruct c; vm_compute; split; reflexivity. Qed.

Lemma cat_byte_text (in_ : list Byte.byte) :
  all_chars printable_char (Str.cat (map byte_text in_)) = true
  /\ String.length (Str.cat (map byte_text in_)) = escaped_length in_.
Proof.
  induction in_ as [|c l [IHp IHl]]; [split; reflexivity|].
  cbn [map Str.cat fold_right escaped_length].
  rewrite all_chars_append, StrFacts.length_append.
  destruct (byte_text_printable c) as [Hp Hl].
  rewrite Hp, Hl. split; [exact IHp|]. f_equal. exact IHl.
Qed.

(** X19: [BinaryToString] returns a text for every input; each of its
    characters is printable ASCII, so the line of a data segment is never
    broken by the data, and it has two characters for the quotes, one for
    every printable byte and three for every other byte. *)
Theorem BinaryToString_is_printable (in_ : list Byte.byte) :
  exists s,
    BinaryToString in_ = Some s
    /\ all_chars printable_char s = true
    /\ String.length s = 2 + escaped_length in_.
Proof.
  exists (quoted (Str.cat (map byte_text in_))).
  destruct (cat_byte_text in_) as [Hp Hl].
  split; [apply BinaryToString_text|]. unfold quoted. split.
  - cbn [all_chars]. rewrite all_chars_append, Hp. reflexivity.
  - cbn [String.length]. rewrite StrFacts.length_append, Hl. simpl. lia.
Qed.

Lemma append_cancel_r (a b c : string) :
  (a ++ c)%string = (b ++ c)%string -> a = b.
Proof.
  revert b. induction a as [|x a IH]; intros [|y b] H; simpl in H.
  - reflexivity.
  - exfalso. apply (f_equal String.length) in H. simpl in H.
    rewrite StrFacts.length_append in H. lia.
  - exfalso. apply (f_equal String.length) in H. simpl in H.
    rewrite StrFacts.length_append in H. lia.
  - injection H as -> H. f_equal. now apply IH.
Qed.

Lemma hex_digit_inj (d d' : N) :
  (d < 16)%N -> (d' < 16)%N ->
  lower_hex_digit d = lower_hex_digit d' -> d = d'.
Proof.
  intros Hd Hd' H.
  assert (Hgen : forall k k', k < 16 -> k' < 16 ->
                   lower_hex_digit (N.of_nat k) = lower_hex_digit (N.of_nat k') ->
                   N.of_nat k = N.of_nat k').
  { clear. intros k k' Hk Hk'.
    do 16 (destruct k as [|k];
           [do 16 (destruct k' as [|k'];
                   [vm_compute; intros E;
                    first [reflexivity | discriminate E]|]); lia|]).
    lia. }
  specialize (Hgen (N.to_nat d) (N.to_nat d')).
  rewrite !Nnat.N2Nat.id in Hgen. apply Hgen; [lia | lia | exact H].
Qed.

Lemma to_N_inj (c c' : Byte.byte) : Byte.to_N c = Byte.to_N c' -> c = c'.
Proof.
  intros H. pose proof (Byte.of_to_N c) as Hc.
  pose proof (Byte.of_to_N c') as Hc'.
  rewrite H in Hc. congruence.
Qed.

Lemma to_N_bound (c : Byte.byte) : (Byte.to_N c < 256)%N.
Proof. destruct c; vm_compute; reflexivity. Qed.

Lemma ascii_of_byte_inj (c c' : Byte.byte) :
  ascii_of_byte c = ascii_of_byte c' -> c = c'.
Proof.
  intros H. apply (f_equal byte_of_ascii) in H.
  now rewrite !byte_of_ascii_of_byte in H.
Qed.

Lemma byte_text_cases (c : Byte.byte) :
  (printable c = true /\ byte_text c = Str.of_char (ascii_of_byte c))
  \/ (printable c = false
      /\ byte_text c
         = String Str.backslash
             (String (lower_hex_digit (Byte.to_N c / 16))
                (String (lower_hex_digit (Byte.to_N c mod 16)) ""))).
Proof. unfold byte_text. destruct (printable c); [left|right]; now split. Qed.

(** The text of a byte other than the backslash can be read back from the
    front of a text. *)
Lemma byte_text_head (c c' : Byte.byte) (r r' : string) :
  Byte.eqb c Byte.x5c = false -> Byte.eqb c' Byte.x5c = false ->
  (byte_text c ++ r)%string = (byte_text c' ++ r')%string ->
  c = c' /\ r = r'.
Proof.
  intros Hc Hc' H.
  assert (Hbs : forall x, Byte.eqb x Byte.x5c = false ->
                          ascii_of_byte x <> Str.backslash).
  { intros x Hx E. change Str.backslash with (ascii_of_byte Byte.x5c) in E.
    apply ascii_of_byte_inj in E. subst x. discriminate Hx. }
  revert H.
  destruct (byte_text_cases c) as [[_ Ec] | [_ Ec]],
           (byte_text_cases c') as [[_ Ec'] | [_ Ec']];
    rewrite Ec, Ec'; simpl; intros H.
  - injection H as H ->. split; [now apply ascii_of_byte_inj | reflexivity].
  - injection H as H _. exfalso. exact (Hbs c Hc H).
  - injection H as H _. exfalso. exact (Hbs c' Hc' (eq_sym H)).
  - injection H as Hhi Hlo ->. split; [|reflexivity].
    pose proof (to_N_bound c) as Hb. pose proof (to_N_bound c') as Hb'.
    apply hex_digit_inj in Hhi;
      [| apply N.Div0.div_lt_upper_bound; lia
       | apply N.Div0.div_lt_upper_bound; lia].
    apply hex_digit_inj in Hlo; [| apply N.mod_lt; lia | apply N.mod_lt; lia].
    apply to_N_inj.
    rewrite (N.div_mod (Byte.to_N c) 16), (N.div_mod (Byte.to_N c') 16) by lia.
    now rewrite Hhi, Hlo.
Qed.

Lemma byte_text_not_nil (c : Byte.byte) (r : string) :
  (byte_text c ++ r)%string <> "".
Proof.
  destruct (byte_text_cases c) as [[_ Ec] | [_ Ec]]; rewrite Ec; discriminate.
Qed.

Lemma cat_byte_text_inj (a b : list Byte.byte) :
  no_backslash a = true -> no_backslash b = true ->
  Str.cat (map byte_text a) = Str.cat (map byte_text b) -> a = b.
Proof.
  revert b. induction a as [|c a IH]; intros [|c' b] Ha Hb H.
  - reflexivity.
  - exfalso. simpl in H. exact (byte_text_not_nil c' _ (eq_sym H)).
  - exfalso. simpl in H. exact (byte_text_not_nil c _ H).
  - simpl in Ha, Hb. apply andb_true_iff in Ha, Hb.
    destruct Ha as [Hc Ha], Hb as [Hc' Hb].
    apply negb_true_iff in Hc, Hc'.
    cbn [map Str.cat fold_right] in H.
    destruct (byte_text_head c c' _ _ Hc Hc' H) as [-> Hrest].
    f_equal. exact (IH b Ha Hb Hrest).
Qed.

(** X20: on data without the byte 0x5C, [BinaryToString] loses nothing:
    two such inputs with the same text are the same bytes.  (With a 0x5C
    the text is ambiguous.) *)
Theorem BinaryToString_injective_without_backslash (a b : list Byte.byte) :
  no_backslash a = true -> no_backslash b = true ->
  BinaryToString a = BinaryToString b -> a = b.
Proof.
  intros Ha Hb H. rewrite !BinaryToString_text in H.
  injection H as H. apply append_cancel_r in H.
  now apply cat_byte_text_inj.
Qed.

Lemma BinaryToString_injective_without_backslash_witness :
  [Byte.x48; Byte.x00; Byte.x22] = [Byte.x48; Byte.x00; Byte.x22].
Proof.
  apply (BinaryToString_injective_without_backslash
           [Byte.x48; Byte.x00; Byte.x22] [Byte.x48; Byte.x00; Byte.x22]);
    reflexivity.
Defined.

(** ** Signatures and function bodies *)

Lemma indexed_fold {A : Type} (g : nat * A -> string) (l : list (nat * A))
    (s : string) :
  Forall (fun it => fst it <> 0) l ->
  fold_left (fun (s : string) (it : nat * A) =>
               let '(i, t) := it in
               ((if (i =? 0)%nat then s else s ++ ", ") ++ g (i, t))%string)
    l s
  = (s ++ Str.cat (map (fun it => (", " ++ g it)%string) l))%string.
Proof.
  revert s. induction l as [|[i t] l IH]; intros s Hl; simpl.
  - now rewrite StrFacts.append_nil_r.
  - inversion Hl as [|? ? Hi Hl']; subst. rewrite IH by exact Hl'.
    simpl in Hi. destruct i as [|i]; [contradiction|]. simpl.
    now rewrite !StrFacts.append_assoc.
Qed.

Lemma combine_seq_positive {A : Type} (k : nat) (l : list A) :
  Forall (fun it : nat * A => fst it <> 0) (combine (seq (S k) (length l)) l).
Proof.
  revert k. induction l as [|x l IH]; intros k; simpl; constructor.
  - simpl. lia.
  - apply IH.
Qed.

Lemma separated_pairs {A : Type} (g : nat * A -> string) (l : list A)
    (s : string) :
  fold_left (fun (s : string) (it : nat * A) =>
               let '(i, t) := it in
               ((if (i =? 0)%nat then s else s ++ ", ") ++ g (i, t))%string)
    (combine (seq 0 (length l)) l) s
  = (s ++ String.concat ", " (map g (combine (seq 0 (length l)) l)))%string.
Proof.
  destruct l as [|x l]; [simpl; now rewrite StrFacts.append_nil_r|].
  cbn [length seq combine map fold_left Nat.eqb].
  rewrite indexed_fold by apply combine_seq_positive.
  now rewrite concat_sep, map_map, StrFacts.append_assoc.
Qed.

Lemma DecompileParams_text (env : Collaborators) (lst : LoadStoreTracking)
    (s : string) (f : Func) :
  DecompileParams env lst s f
  = (s ++ String.concat ", " (param_decls env lst f))%string.
Proof.
  unfold DecompileParams, param_decls.
  exact (separated_pairs
           (fun it => LocalDecl env lst (IndexToAlphaName env (Z.of_nat (fst it)))
                        (snd it)) (Func_param_types f) s).
Qed.

Lemma map_combine_seq {A B : Type} (h : A -> B) (k : nat) (l : list A) :
  map (fun it : nat * A => h (snd it)) (combine (seq k (length l)) l) = map h l.
Proof.
  revert k. induction l as [|x l IH]; intros k; simpl; [reflexivity|].
  now rewrite IH.
Qed.

Lemma DecompileResults_text (env : Collaborators) (s : string) (f : Func) :
  DecompileResults env s f = (s ++ results_text env f)%string.
Proof.
  unfold DecompileResults, results_text.
  destruct (Func_result_types f) as [|t [|t' ts]].
  - now rewrite StrFacts.append_nil_r.
  - cbn [Str.cat fold_right]. now rewrite StrFacts.append_nil_r.
  - pose proof (separated_pairs (fun it => GetDecompTypeName env (snd it))
                  (t :: t' :: ts) (s ++ ":(")%string) as E.
    cbn beta in E. cbn [snd] in E. rewrite E.
    rewrite map_combine_seq. now rewrite !StrFacts.append_assoc.
Qed.

(** X21: the loops that write a signature put [", "] between two items and
    nowhere else: the parameters are the declarations [name:type] in order,
    and the results are nothing, [:t] for one result, and
    [:(t0, t1, ...)] for more. *)
Theorem signature_lists_are_comma_separated (env : Collaborators)
    (lst : LoadStoreTracking) (s : string) (f : Func) :
  DecompileParams env lst s f
  = (s ++ String.concat ", " (param_decls env lst f))%string
  /\ DecompileResults env s f = (s ++ results_text env f)%string
  /\ length (param_decls env lst f) = length (Func_param_types f).
Proof.
  split; [apply DecompileParams_text|]. split; [apply DecompileResults_text|].
  unfold param_decls. rewrite length_map, length_combine, length_seq. lia.
Qed.

Lemma CheckImportExport_text (m : Module_) (s : string)
    (kind : ExternalKind.t) (index : Z) (name : string) :
  CheckImportExport m s kind index name
  = ((s ++ export_import m kind index name)%string, IsImport m kind index).
Proof.
  unfold CheckImportExport, export_import.
  destruct (GetExport m name) as [x|]; [destruct (ExternalKind.eqb _ _)|];
    destruct (IsImport m kind index); simpl;
    now rewrite ?StrFacts.append_assoc, ?StrFacts.append_nil_r.
Qed.

(** X22: an imported function is written as its signature and [';'],
    after [export ] and [import ] in this order; neither the AST builder
    nor the tracker's [Track] nor the renderer is asked, so the step is
    defined whatever they would return, and the tunables play no part. *)
Theorem imported_function_is_a_declaration (tn : Tunables)
    (env : Collaborators) (m : Module_) (s : string)
    (lst : LoadStoreTracking) (func_index : Z) (f : Func) :
  IsImport m ExternalKind.Func func_index = true ->
  DecompileFunc tn env m (s, lst, func_index) f
  = Some ((s ++ export_import m ExternalKind.Func func_index (Func_name f)
             ++ signature env lst f ++ ";" ++ newline ++ newline)%string,
          lst_Clear env lst, ((func_index + 1) mod 2 ^ 32)%Z).
Proof.
  intros Himport. unfold DecompileFunc.
  rewrite CheckImportExport_text, Himport. cbn [negb Partial.bind].
  rewrite DecompileResults_text, DecompileParams_text.
  unfold signature. cbn [Str.cat fold_right].
  now rewrite !StrFacts.append_assoc, ?StrFacts.append_nil_r.
Qed.

Lemma body_text (lines : list string) (init : string) :
  fold_left (fun (s : string) (stat : string) => ((s ++ stat) ++ newline)%string)
    lines init
  = (init ++ Str.cat (map (fun l => (l ++ newline)%string) lines))%string.
Proof.
  revert init. induction lines as [|l lines IH]; intros init; simpl.
  - now rewrite StrFacts.append_nil_r.
  - rewrite IH. now rewrite !StrFacts.append_assoc.
Qed.

(** X23: a function that is not imported is written as its signature, the
    declarations made with the tracker after [Track] and [CheckLayouts],
    then [ {], every line of the rendered body after [indent_amount] spaces
    and followed by a newline, and [}] with an empty line after it; the
    tracker goes on cleared and the index incremented. *)
Theorem function_body_is_indented (tn : Tunables)
    (env : Collaborators) (m : Module_) (s : string)
    (lst : LoadStoreTracking) (func_index : Z) (f : Func)
    (root : Node) (val : Value) :
  IsImport m ExternalKind.Func func_index = false ->
  nth_error (AST_Construct env (Some f) (Func_exprs f)
               (length (Func_result_types f)) true) 0 = Some root ->
  DecompileExpr tn env (Some f)
    (lst_CheckLayouts env (lst_Track env lst root)) root = Some val ->
  DecompileFunc tn env m (s, lst, func_index) f
  = Some ((s ++ export_import m ExternalKind.Func func_index (Func_name f)
             ++ signature env (lst_CheckLayouts env (lst_Track env lst root)) f
             ++ " {" ++ newline
             ++ Str.cat (map (fun l => (Indent (indent_amount tn) ++ l
                                          ++ newline)%string) (v val))
             ++ "}" ++ newline ++ newline)%string,
          lst_Clear env (lst_CheckLayouts env (lst_Track env lst root)),
          ((func_index + 1) mod 2 ^ 32)%Z).
Proof.
  intros Himport Hroot Hval. unfold DecompileFunc.
  rewrite CheckImportExport_text, Himport. cbn [negb].
  rewrite Hroot. cbn [Partial.bind]. rewrite Hval.
  cbn [Partial.bind].
  rewrite body_text, IndentValue_map, map_map.
  rewrite DecompileResults_text, DecompileParams_text.
  unfold signature. cbn [Str.cat fold_right].
  rewrite !StrFacts.append_assoc, ?StrFacts.append_nil_r.
  rewrite (map_ext _ (fun l => (Indent (indent_amount tn) ++ l ++ newline)%string)
             (fun l => StrFacts.append_assoc _ l _)).
  reflexivity.
Qed.

Lemma imported_function_is_a_declaration_witness :
  DecompileFunc default_tunables Sample.env Sample.import_module
    ("", Demo.lst, 0%Z) Sample.func
  = Some (("export import function f(a:int, a:long):int;"
             ++ newline ++ newline)%string, Demo.lst, 1%Z).
Proof.
  apply (imported_function_is_a_declaration default_tunables Sample.env
           Sample.import_module "" Demo.lst 0 Sample.func).
  reflexivity.
Defined.

Lemma function_body_is_indented_witness :
  DecompileFunc Sample.narrow Sample.env Sample.module
    ("", Demo.lst, 0%Z) Sample.func
  = Some (Str.cat ["function f(a:int, a:long):int {"; newline;
                   "  if (a i32_lt_s b) {"; newline;
                   "    xxxxxxxxxxxxxxx"; newline;
                   "  } else {"; newline;
                   "    yyyyyyyyyyyyyyy"; newline;
                   "  }"; newline;
                   "  (1 i32_mul 2) i32_add "; newline;
                   "  c;"; newline;
                   "}"; newline; newline], Demo.lst, 1%Z).
Proof.
  apply (function_body_is_indented Sample.narrow Sample.env Sample.module ""
           Demo.lst 0 Sample.func Sample.body
           (mkValue ["if (a i32_lt_s b) {"; "  xxxxxxxxxxxxxxx"; "} else {";
                     "  yyyyyyyyyyyyyyy"; "}"; "(1 i32_mul 2) i32_add ";
                     "c;"] false));
    reflexivity.
Defined.

(** ** Initialisers *)

Lemma foldM_none {S A : Type} (body : S -> A -> option S) (l : list A)
    (x : A) :
  In x l -> (forall st, body st x = None) ->
  forall st, foldM body st l = None.
Proof.
  intros Hin Hx. induction l as [|a l IH]; intros st; [contradiction|].
  simpl. destruct Hin as [-> | Hin].
  - now rewrite Hx.
  - destruct (body st a) as [st1|]; [|reflexivity]. simpl. now apply IH.
Qed.

Lemma InitExp_empty (tn : Tunables) (env : Collaborators)
    (cur_func : option Func) (lst : LoadStoreTracking) :
  InitExp tn env cur_func lst [] = None.
Proof. reflexivity. Qed.

(** X24: [InitExp] is called on the offset of every data segment and on
    the initialiser of every global that is not imported; when one of them
    is an empty expression list, its assertion [!el.empty()] fails and
    [Decompile] returns nothing, whatever the rest of the module is. *)
Theorem Decompile_asserts_on_empty_initialiser (tn : Tunables)
    (env : Collaborators) (m : Module_) :
  (exists dat, In dat (data_segments m) /\ DataSegment_offset dat = [])
  \/ ((forall i, IsImport m ExternalKind.Global i = false)
      /\ exists g, In g (globals m) /\ init_expr g = []) ->
  Decompile tn env m = None.
Proof.
  intros [(dat & Hin & Hoff) | (Himport & g & Hin & Hinit)];
    unfold Decompile;
    destruct (fold_left (DecompileMemory m) (memories m) ("", 0%Z))
      as [sm im].
  - destruct (foldM (DecompileGlobal tn env m None (lst_initial env)) _ _)
      as [sg|]; [|reflexivity].
    cbn [Partial.bind].
    destruct (fold_left (DecompileTable env m) (tables m) _) as [st it].
    rewrite (foldM_none _ _ dat Hin); [reflexivity|].
    intros st0. unfold DecompileData. now rewrite Hoff, InitExp_empty.
  - rewrite (foldM_none _ _ g Hin); [reflexivity|].
    intros [s0 i0]. unfold DecompileGlobal.
    rewrite CheckImportExport_text, Himport. cbn [negb].
    now rewrite Hinit, InitExp_empty.
Qed.

Lemma Decompile_asserts_on_empty_initialiser_witness :
  Decompile default_tunables Sample.env Sample.passive_module = None.
Proof.
  apply (Decompile_asserts_on_empty_initialiser default_tunables Sample.env
           Sample.passive_module).
  left. exists Sample.passive. split; [now left | reflexivity].
Defined.

(** ** Lines of a fragment *)

(** X25: when no leaf of the tree has an empty text, the renderer never
    returns a fragment with an empty line, under any setting of the
    tunables. *)
Theorem rendered_lines_are_not_empty (tn : Tunables) (env : Collaborators)
    (cur_func : option Func) (lst : LoadStoreTracking) (n : Node)
    (val : Value) :
  no_empty_atom env n = true ->
  DecompileExpr tn env cur_func lst n = Some val ->
  Forall (fun s : string => 1 <= String.length s) (v val).
Proof.
  intros Hatoms H.
  pose proof (DecompileExpr_lines tn env cur_func lst n val Hatoms H) as Hl.
  eapply Forall_impl; [|exact Hl]. intros s Hs.
  destruct s as [|c s]; [contradiction | simpl; lia].
Qed.

Lemma rendered_lines_are_not_empty_witness :
  Forall (fun s : string => 1 <= String.length s)
    ["if (a i32_lt_s b) {"; "  xxxxxxxxxxxxxxx"; "} else {";
     "  yyyyyyyyyyyyyyy"; "}"; "(1 i32_mul 2) i32_add "; "c;"].
Proof.
  apply (rendered_lines_are_not_empty Sample.narrow Sample.env None Demo.lst
           Sample.body
           (mkValue ["if (a i32_lt_s b) {"; "  xxxxxxxxxxxxxxx"; "} else {";
                     "  yyyyyyyyyyyyyyy"; "}"; "(1 i32_mul 2) i32_add ";
                     "c;"] false));
    reflexivity.
Defined.
